(** * Reaction-wheel motor controller (ESP32 + DRV8308)

    Shallow embedding of the control path of the firmware:
    - the two constructors of [Driver], [Driver::begin],
      [Driver::drv_write], [Driver::drv_read], [Driver::cmd_speed_PWM] and
      the pin helpers (Driver.h / Driver.cpp),
    - [sign], [task_readActual], [task_calcSetpoint] and
      [task_speedControl] (CtrlTasks.cpp),
    - [Controller::calculate_omega] (Controller.cpp).

    C [float] and [double] values are IEEE 754 binary32 and binary64
    numbers, modelled with the Standard Library's [spec_float] and its
    correctly rounded operations; [uint8_t], [uint16_t], [uint32_t] and
    [unsigned long] are integers in [Z] with their wrap-around written out. *)

From Stdlib Require Import String.
From Stdlib Require Import ZArith Lia List Bool.
From Stdlib Require Import QArith Qabs Qpower Lqa.
From Stdlib Require Import Floats.SpecFloat.
Import ListNotations.
Local Open Scope Z_scope.

(** ** Machine integers *)

Definition wrap (bits n : Z) : Z := n mod 2 ^ bits.

Definition uint8 (n : Z) : Z := wrap 8 n.
Definition uint16 (n : Z) : Z := wrap 16 n.
Definition uint32 (n : Z) : Z := wrap 32 n.

(** Subtraction of two [uint32_t] (or 32-bit [unsigned long]) values. *)
Definition uint32_sub (a b : Z) : Z := uint32 (a - b).

(** Pin levels of the Arduino core. *)
Definition LOW : bool := false.
Definition HIGH : bool := true.

(** ** Floating point

    [F32] is C's [float], [F64] is C's [double].  Each operation is the
    correctly rounded (to nearest, ties to even) IEEE operation. *)

Module F32.
Definition prec : Z := 24.
Definition emax : Z := 128.
Definition t : Type := spec_float.

Definition add : t -> t -> t := SFadd prec emax.
Definition sub : t -> t -> t := SFsub prec emax.
Definition mul : t -> t -> t := SFmul prec emax.
Definition div : t -> t -> t := SFdiv prec emax.
Definition opp : t -> t := SFopp.
Definition ltb : t -> t -> bool := SFltb.
Definition leb : t -> t -> bool := SFleb.
Definition eqb : t -> t -> bool := SFeqb.
Definition valid : t -> bool := valid_binary prec emax.

(** Conversion of an integer to [float]. *)
Definition of_Z (n : Z) : t := binary_normalize prec emax n 0 false.

(** Conversion of a [double] to [float] (rounds). *)
Definition of_double (x : spec_float) : t :=
  match x with
  | S754_finite s m e => binary_round prec emax s m e
  | _ => x
  end.

(** A decimal literal [num / den] with the [f] suffix, correctly
    rounded. *)
Definition of_ratio (num den : positive) : t :=
  SFdiv prec emax (S754_finite false num 0) (S754_finite false den 0).

Definition zero : t := S754_zero false.
Definition is_nan (x : t) : bool :=
  match x with S754_nan => true | _ => false end.
Definition is_finite (x : t) : bool :=
  match x with S754_zero _ | S754_finite _ _ _ => true | _ => false end.
End F32.

Module F64.
Definition prec : Z := 53.
Definition emax : Z := 1024.
Definition t : Type := spec_float.

Definition add : t -> t -> t := SFadd prec emax.
Definition mul : t -> t -> t := SFmul prec emax.
Definition div : t -> t -> t := SFdiv prec emax.
Definition valid : t -> bool := valid_binary prec emax.

Definition of_Z (n : Z) : t := binary_normalize prec emax n 0 false.

(** Promotion of a [float] to [double] (exact; the mantissa is only
    re-aligned to 53 bits). *)
Definition of_float (x : F32.t) : t :=
  match x with
  | S754_finite s m e => binary_round prec emax s m e
  | _ => x
  end.

(** A decimal literal [num / den], correctly rounded. *)
Definition of_ratio (num den : positive) : t :=
  SFdiv prec emax (S754_finite false num 0) (S754_finite false den 0).
End F64.

(** [fabsf] of the C library. *)
Definition fabsf (x : F32.t) : F32.t := SFabs x.

(** The sign bit of a number ([spec_float] keeps none for a NaN). *)
Definition signbit (x : spec_float) : bool :=
  match x with
  | S754_zero s | S754_infinity s | S754_finite s _ _ => s
  | S754_nan => false
  end.

(** Arduino.h: [#define PI 3.1415926535897932384626433832795], a
    [double] literal. *)
Definition PI : F64.t :=
  Eval vm_compute in
    F64.of_ratio 31415926535897932384626433832795
                 10000000000000000000000000000000.

(** ** Driver (Driver.h, Driver.cpp) *)

(** What [drv_write] does on the SPI bus and the chip-select pin, in
    program order. *)
Inductive bus_event :=
| BeginTransaction (clock : Z)      (* vspi.beginTransaction(SPISettings(clock, MSBFIRST, SPI_MODE0)) *)
| ScsWrite (level : bool)           (* digitalWrite(PIN_SCS, level) *)
| DelayMicroseconds (us : Z)
| Transfer (byte : Z)               (* vspi.transfer(byte) *)
| EndTransaction.

Definition scs_begin : bus_event := ScsWrite HIGH.
Definition scs_end : bus_event := ScsWrite LOW.

(** [Driver::drv_write(uint8_t addr7, uint16_t message)]. *)
Definition drv_write (addr7 message : Z) : list bus_event :=
  let addr7 := uint8 addr7 in
  let message := uint16 message in
  [ BeginTransaction 10000;
    scs_begin;
    DelayMicroseconds 1;
    Transfer (uint8 (Z.lor (Z.shiftl 0 7) (Z.land addr7 127)));
    Transfer (uint8 (Z.shiftr message 8));
    Transfer (uint8 (Z.land message 255));
    DelayMicroseconds 1;
    scs_end;
    EndTransaction;
    DelayMicroseconds 5 ].

(** The bytes shifted out by a list of bus events. *)
Fixpoint transferred (evs : list bus_event) : list Z :=
  match evs with
  | [] => []
  | Transfer b :: evs' => b :: transferred evs'
  | _ :: evs' => transferred evs'
  end.

(** The bytes shifted out while chip select is asserted (HIGH, the
    DRV8308 select is active high); [scs] is the current level. *)
Fixpoint transferred_selected (scs : bool) (evs : list bus_event) : list Z :=
  match evs with
  | [] => []
  | ScsWrite l :: evs' => transferred_selected l evs'
  | Transfer b :: evs' =>
      if scs then b :: transferred_selected scs evs'
      else transferred_selected scs evs'
  | _ :: evs' => transferred_selected scs evs'
  end.

(** [Driver::drv_read(uint8_t addr7)]: [rx] holds the two bytes the chip
    shifts out during the two dummy transfers (what [vspi.transfer(0x00)]
    returns, kept in [msb] and [lsb]).  Gives the bus events and the
    returned [uint16_t]. *)
Definition drv_read (addr7 : Z) (rx : Z * Z) : list bus_event * Z :=
  let addr7 := uint8 addr7 in
  let msb := uint8 (fst rx) in
  let lsb := uint8 (snd rx) in
  ([ BeginTransaction 10000;
     scs_begin;
     DelayMicroseconds 1;
     Transfer (uint8 (Z.lor (Z.shiftl 1 7) (Z.land addr7 127)));
     Transfer (uint8 0);
     Transfer (uint8 0);
     DelayMicroseconds 1;
     scs_end;
     EndTransaction;
     DelayMicroseconds 5 ],
   uint16 (Z.lor (Z.shiftl msb 8) lsb)).

(** A bus trace is well framed when every byte is shifted out inside a
    transaction with chip select asserted, chip select is driven only
    inside a transaction, a transaction is closed only with chip select
    released, and the trace ends with no transaction open.  [txn] and
    [scs] are the state before the trace. *)
Fixpoint well_framed (txn scs : bool) (evs : list bus_event) : bool :=
  match evs with
  | [] => negb txn && negb scs
  | BeginTransaction _ :: evs' => negb txn && well_framed true scs evs'
  | EndTransaction :: evs' => txn && negb scs && well_framed false scs evs'
  | ScsWrite l :: evs' => txn && well_framed txn l evs'
  | Transfer _ :: evs' => txn && scs && well_framed txn scs evs'
  | DelayMicroseconds _ :: evs' => well_framed txn scs evs'
  end.

(** The members of the [Driver] object. *)
Module Members.
Record t := {
  data16 : Z;
  msb : Z;
  lsb : Z;
  PIN_SCLK : Z;
  PIN_MISO : Z;
  PIN_MOSI : Z;
  PIN_SCS : Z;
  PIN_EN : Z;
  PIN_CLKIN : Z;
  PIN_FGOUT : Z;
  PIN_FAULTn : Z;
  PIN_LOCKn : Z;
  PIN_RESET : Z;
  PIN_BRAKE : Z;
  PIN_DIR : Z;
  FILK1 : Z;
  FILK2 : Z;
  COMPK1 : Z;
  COMPK2 : Z;
  _lastEdgeTime : Z
}.
End Members.

(** [Driver::Driver(uint8_t FILK1_, uint8_t FILK2_, uint8_t COMPK1_,
    uint8_t COMPK2_)]: the arguments are [uint8_t], the members they are
    stored in are [uint16_t]. *)
Definition Driver_with_gains (FILK1_ FILK2_ COMPK1_ COMPK2_ : Z) : Members.t :=
  {| Members.data16 := 0; Members.msb := 0; Members.lsb := 0;
     Members.PIN_SCLK := 18; Members.PIN_MISO := 19; Members.PIN_MOSI := 23;
     Members.PIN_SCS := 5; Members.PIN_EN := 13; Members.PIN_CLKIN := 14;
     Members.PIN_FGOUT := 25; Members.PIN_FAULTn := 26;
     Members.PIN_LOCKn := 27; Members.PIN_RESET := 15;
     Members.PIN_BRAKE := 12; Members.PIN_DIR := 16;
     Members.FILK1 := uint16 (uint8 FILK1_);
     Members.FILK2 := uint16 (uint8 FILK2_);
     Members.COMPK1 := uint16 (uint8 COMPK1_);
     Members.COMPK2 := uint16 (uint8 COMPK2_);
     Members._lastEdgeTime := 0 |}.

(** [Driver::Driver(void)]. *)
Definition Driver_default : Members.t :=
  {| Members.data16 := 0; Members.msb := 0; Members.lsb := 0;
     Members.PIN_SCLK := 18; Members.PIN_MISO := 19; Members.PIN_MOSI := 23;
     Members.PIN_SCS := 5; Members.PIN_EN := 13; Members.PIN_CLKIN := 14;
     Members.PIN_FGOUT := 25; Members.PIN_FAULTn := 26;
     Members.PIN_LOCKn := 27; Members.PIN_RESET := 15;
     Members.PIN_BRAKE := 12; Members.PIN_DIR := 16;
     Members.FILK1 := 127; Members.FILK2 := 507;
     Members.COMPK1 := 100; Members.COMPK2 := 100;
     Members._lastEdgeTime := 0 |}.

Inductive pin_mode := INPUT | OUTPUT.

(** What [Driver::begin] does, in program order. *)
Inductive hw_event :=
| PinMode (pin : Z) (mode : pin_mode)
| DigitalWrite (pin : Z) (level : bool)
| AttachInterrupt (pin : Z)            (* attachInterrupt(digitalPinToInterrupt(pin), ISR_wrapper, RISING) *)
| SpiBegin (sclk miso mosi ss : Z)     (* vspi.begin(sclk, miso, mosi, ss) *)
| Bus (e : bus_event)                  (* a step of drv_write or drv_read *)
| SerialPrint (s : string)
| SerialPrintlnHex (v : Z)             (* Serial.println(v, HEX) *)
| LedcSetup (channel freq resolution : Z)
| LedcAttachPin (pin channel : Z).

(** One register of the initial programming: [drv_write(addr, value);
    Serial.print(text); Serial.println(drv_read(addr), HEX);].  [reply]
    gives the two bytes the chip answers a read of a register with. *)
Definition program_register (reply : Z -> Z * Z) (addr value : Z)
    (text : string) : list hw_event :=
  map Bus (drv_write addr value)
  ++ [SerialPrint text]
  ++ map Bus (fst (drv_read addr (reply (uint8 addr))))
  ++ [SerialPrintlnHex (snd (drv_read addr (reply (uint8 addr))))].

(** [Driver::begin()]. *)
Definition begin (o : Members.t) (reply : Z -> Z * Z)
  : Members.t * list hw_event :=
  let events :=
    [ PinMode (Members.PIN_SCS o) OUTPUT;
      PinMode (Members.PIN_EN o) OUTPUT;
      PinMode (Members.PIN_FGOUT o) INPUT;
      PinMode (Members.PIN_FAULTn o) INPUT;
      PinMode (Members.PIN_LOCKn o) INPUT;
      PinMode (Members.PIN_CLKIN o) OUTPUT;
      PinMode (Members.PIN_RESET o) OUTPUT;
      DigitalWrite (Members.PIN_RESET o) LOW;
      PinMode (Members.PIN_BRAKE o) OUTPUT;
      PinMode (Members.PIN_DIR o) OUTPUT;
      AttachInterrupt (Members.PIN_FGOUT o);
      DigitalWrite (Members.PIN_EN o) HIGH;       (* enable() *)
      DigitalWrite (Members.PIN_BRAKE o) LOW;     (* unbrake() *)
      DigitalWrite (Members.PIN_DIR o) LOW;       (* set_dir(LOW) *)
      SpiBegin (Members.PIN_SCLK o) (Members.PIN_MISO o)
               (Members.PIN_MOSI o) (-1) ]
    ++ program_register reply 0 8192 "0x00 expect 0x2000, got 0x"
    ++ program_register reply 3 3970 "0x03 expect 0xF82, got 0x"
    ++ program_register reply 4 512 "0x04 expect 0x0200, got 0x"
    ++ program_register reply 5 2048 "0x05 expect 0x0800, got 0x"
    ++ program_register reply 6 (Members.FILK1 o)
         "0x06 expect 0x007F, got 0x"
    ++ program_register reply 7 (Members.FILK2 o)
         "0x07 expect 0x01FB, got 0x"
    ++ program_register reply 8 (Members.COMPK1 o)
         "0x08 expect 0x007F, got 0x"
    ++ program_register reply 9 (Members.COMPK2 o)
         "0x09 expect 0x22A3, got 0x"
    ++ program_register reply 10 512 "0x0A expect 0x0200, got 0x"
    ++ program_register reply 11 1280 "0x0B expect 0x0500, got 0x"
    ++ [ LedcSetup 0 100 8;
         LedcAttachPin (Members.PIN_CLKIN o) 0 ] in
  ({| Members.data16 := Members.data16 o;
      Members.msb := uint8 (fst (reply 11));
      Members.lsb := uint8 (snd (reply 11));
      Members.PIN_SCLK := Members.PIN_SCLK o;
      Members.PIN_MISO := Members.PIN_MISO o;
      Members.PIN_MOSI := Members.PIN_MOSI o;
      Members.PIN_SCS := Members.PIN_SCS o;
      Members.PIN_EN := Members.PIN_EN o;
      Members.PIN_CLKIN := Members.PIN_CLKIN o;
      Members.PIN_FGOUT := Members.PIN_FGOUT o;
      Members.PIN_FAULTn := Members.PIN_FAULTn o;
      Members.PIN_LOCKn := Members.PIN_LOCKn o;
      Members.PIN_RESET := Members.PIN_RESET o;
      Members.PIN_BRAKE := Members.PIN_BRAKE o;
      Members.PIN_DIR := Members.PIN_DIR o;
      Members.FILK1 := Members.FILK1 o;
      Members.FILK2 := Members.FILK2 o;
      Members.COMPK1 := Members.COMPK1 o;
      Members.COMPK2 := Members.COMPK2 o;
      Members._lastEdgeTime := Members._lastEdgeTime o |},
   events).

(** The SPI traffic of a list of events. *)
Fixpoint bus_trace (evs : list hw_event) : list bus_event :=
  match evs with
  | [] => []
  | Bus e :: evs' => e :: bus_trace evs'
  | _ :: evs' => bus_trace evs'
  end.

(** The register writes a DRV8308 sees in a bus trace: for each
    transaction whose header byte has bit 7 clear, the 7-bit address and
    the 16-bit value made of the two bytes that follow. *)
Fixpoint registers_written (evs : list bus_event) : list (Z * Z) :=
  match evs with
  | [] => []
  | Transfer h :: Transfer b1 :: Transfer b2 :: evs' =>
      if Z.testbit h 7 then registers_written evs'
      else (Z.land h 127, 256 * b1 + b2) :: registers_written evs'
  | _ :: evs' => registers_written evs'
  end.

(** The level a pin is left at by a list of events ([None]: it is never
    driven); [scs] is the number of the chip-select pin. *)
Definition final_level (scs pin : Z) (evs : list hw_event) : option bool :=
  fold_left
    (fun acc e =>
       match e with
       | DigitalWrite p l => if p =? pin then Some l else acc
       | Bus (ScsWrite l) => if scs =? pin then Some l else acc
       | _ => acc
       end) evs None.

(** Every pin is made an OUTPUT before it is driven; [outs] are the pins
    that are outputs already. *)
Fixpoint outputs_first (scs : Z) (outs : list Z) (evs : list hw_event)
  : bool :=
  match evs with
  | [] => true
  | PinMode p OUTPUT :: evs' => outputs_first scs (p :: outs) evs'
  | PinMode p INPUT :: evs' =>
      outputs_first scs (filter (fun q => negb (q =? p)) outs) evs'
  | DigitalWrite p _ :: evs' =>
      existsb (Z.eqb p) outs && outputs_first scs outs evs'
  | Bus (ScsWrite _) :: evs' =>
      existsb (Z.eqb scs) outs && outputs_first scs outs evs'
  | _ :: evs' => outputs_first scs outs evs'
  end.

(** The levels and the tone the control loop drives. *)
Record Driver := {
  PIN_DIR : bool;
  PIN_BRAKE : bool;
  CLKIN_tone : F64.t        (* last frequency given to ledcWriteTone(0, _) *)
}.

(** The calls the control loop makes, in program order. *)
Inductive effect :=
| Cmd_speed_PWM (SPEED_CMD : F32.t)
| Brake
| Unbrake
| Set_dir (direction : bool)
| VTaskDelay (ticks : Z).

Definition get_dir (d : Driver) : bool := PIN_DIR d.

Definition set_dir (direction : bool) (d : Driver) : Driver :=
  {| PIN_DIR := direction; PIN_BRAKE := PIN_BRAKE d; CLKIN_tone := CLKIN_tone d |}.

Definition brake (d : Driver) : Driver :=
  {| PIN_DIR := PIN_DIR d; PIN_BRAKE := HIGH; CLKIN_tone := CLKIN_tone d |}.

Definition unbrake (d : Driver) : Driver :=
  {| PIN_DIR := PIN_DIR d; PIN_BRAKE := LOW; CLKIN_tone := CLKIN_tone d |}.

(** [Driver::cmd_speed_PWM]: [double freq = SPEED_CMD / 15;
    ledcWriteTone(0, freq);]. *)
Definition cmd_speed_PWM_freq (SPEED_CMD : F32.t) : F64.t :=
  F64.of_float (F32.div SPEED_CMD (F32.of_Z 15)).

Definition cmd_speed_PWM (SPEED_CMD : F32.t) (d : Driver) : Driver :=
  {| PIN_DIR := PIN_DIR d; PIN_BRAKE := PIN_BRAKE d;
     CLKIN_tone := cmd_speed_PWM_freq SPEED_CMD |}.

Definition exec_effect (d : Driver) (e : effect) : Driver :=
  match e with
  | Cmd_speed_PWM x => cmd_speed_PWM x d
  | Brake => brake d
  | Unbrake => unbrake d
  | Set_dir b => set_dir b d
  | VTaskDelay _ => d
  end.

Definition exec_effects (d : Driver) (es : list effect) : Driver :=
  fold_left exec_effect es d.

(** A call on the [Peripheral] object (everything but the scheduler
    delay). *)
Definition is_hw_command (e : effect) : bool :=
  match e with
  | VTaskDelay _ => false
  | _ => true
  end.

(** ** task_readActual (CtrlTasks.cpp) *)

(** The [speed_actual] share: one slot, overwritten by [put]; [puts]
    counts the writes. *)
Record Share := {
  share_value : F32.t;
  puts : nat
}.

Definition Share_put (v : F32.t) (s : Share) : Share :=
  {| share_value := v; puts := S (puts s) |}.

Definition Share_get (s : Share) : F32.t := share_value s.

(** The share before the first edge: it holds zero. *)
Definition share0 : Share := {| share_value := F32.zero; puts := 0 |}.

(** The electrical frequency in Hz computed from the interval between two
    edges: [frequency = 1 / (((float)dt_us) / 1000000)]. *)
Definition readActual_frequency (dt_us : Z) : F32.t :=
  F32.div (F32.of_Z 1) (F32.div (F32.of_Z dt_us) (F32.of_Z 1000000)).

(** The signed speed: [frequency * 15.0f] when the direction pin reads
    LOW, [frequency * -15.0f] otherwise. *)
Definition readActual_rpm (dt_us : Z) (direction : bool) : F32.t :=
  let frequency := readActual_frequency dt_us in
  if Bool.eqb direction LOW then F32.mul frequency (F32.of_Z 15)
  else F32.mul frequency (F32.opp (F32.of_Z 15)).

(** One turn of the [while (true)] loop: [last_time] is the local kept
    across turns, [current_time] the timestamp taken from [edge_time],
    [direction] what [Peripheral.get_dir()] returns.  Gives the new
    [last_time] and the share. *)
Definition task_readActual_iter (last_time current_time : Z)
    (direction : bool) (speed_actual : Share) : Z * Share :=
  let dt_us := uint32_sub current_time last_time in
  let last_time := current_time in
  if dt_us =? 0 then (last_time, speed_actual)
  else (last_time, Share_put (readActual_rpm dt_us direction) speed_actual).

(** ** Controller (Controller.h, Controller.cpp) *)

Record Controller := {
  J : F32.t;
  last_update_ms : Z;
  omega_rad_s : F32.t
}.

(** The constructor: [J(0.001712)], a [double] literal stored in a
    [const float]. *)
Definition J_flywheel : F32.t :=
  Eval vm_compute in F32.of_double (F64.of_ratio 107 62500).

Definition Controller_new : Controller :=
  {| J := J_flywheel;
     last_update_ms := 0;
     omega_rad_s := F32.zero |}.

(** The [float] literals of the control code. *)
Definition f32_0_001 : F32.t :=
  Eval vm_compute in F32.of_ratio 1 1000.
Definition f32_1 : F32.t := Eval vm_compute in F32.of_Z 1.
Definition f32_2 : F32.t := Eval vm_compute in F32.of_Z 2.
Definition f32_20 : F32.t := Eval vm_compute in F32.of_Z 20.
Definition f32_60 : F32.t := Eval vm_compute in F32.of_Z 60.
Definition f32_1000 : F32.t := Eval vm_compute in F32.of_Z 1000.
Definition f32_2500 : F32.t := Eval vm_compute in F32.of_Z 2500.

(** The elapsed time in seconds as the code computes it:
    [(now_ms - last_update_ms) / 1000.0f] on 32-bit [unsigned long]. *)
Definition elapsed_s (now_ms last_update_ms : Z) : F32.t :=
  F32.div (F32.of_Z (uint32_sub now_ms last_update_ms)) f32_1000.

(** The two guards on [dt_s]. *)
Definition clamp_dt (dt_s : F32.t) : F32.t :=
  if F32.leb dt_s F32.zero then f32_0_001
  else if F32.leb f32_1 dt_s then f32_1
  else dt_s.

(** [2.0f * PI / 60.0f] and [60.0f / (2.0f * PI)], evaluated in
    [double]. *)
Definition rad_per_rpm : F64.t :=
  Eval vm_compute in
    F64.div (F64.mul (F64.of_float f32_2) PI) (F64.of_float f32_60).
Definition rpm_per_rad : F64.t :=
  Eval vm_compute in
    F64.div (F64.of_float f32_60) (F64.mul (F64.of_float f32_2) PI).

(** [const float omega_max_rad_s = 2.0f * PI * 2500.0f / 60.0f]. *)
Definition omega_max_rad_s : F32.t :=
  Eval vm_compute in
    F32.of_double
      (F64.div (F64.mul (F64.mul (F64.of_float f32_2) PI)
                        (F64.of_float f32_2500))
               (F64.of_float f32_60)).

(** The two [if]s that clamp [omega_rad_s]. *)
Definition clamp_omega (omega : F32.t) : F32.t :=
  let omega :=
    if F32.ltb omega_max_rad_s omega then omega_max_rad_s else omega in
  if F32.ltb omega (F32.opp omega_max_rad_s) then F32.opp omega_max_rad_s
  else omega.

(** [omega_rad_s * (60.0f / (2.0f * PI))], stored in a [float]. *)
Definition to_rpm (omega : F32.t) : F32.t :=
  F32.of_double (F64.mul (F64.of_float omega) rpm_per_rad).

(** [speed * (2.0f * PI / 60.0f)], a [double]. *)
Definition to_rad_s (speed_rpm : F32.t) : F64.t :=
  F64.mul (F64.of_float speed_rpm) rad_per_rpm.

(** The value of [dt_s] after the two guards, when [millis()] returns
    [now_ms]. *)
Definition integration_step (c : Controller) (now_ms : Z) : F32.t :=
  clamp_dt (elapsed_s now_ms (last_update_ms c)).

(** [Controller::calculate_omega]: [now_ms] is what [millis()] returns,
    [speed_actual] what [speed_actual.get()] returns.  Gives the updated
    object and the returned [omega_rpm]. *)
Definition calculate_omega (c : Controller) (now_ms : Z)
    (speed_actual : F32.t) (torque_cmd_ : F32.t) : Controller * F32.t :=
  let dt_s := integration_step c now_ms in
  let alpha := F32.div torque_cmd_ (J c) in
  let torque_add := F32.mul alpha dt_s in
  let omega :=
    F32.of_double (F64.add (F64.of_float torque_add) (to_rad_s speed_actual)) in
  let omega := clamp_omega omega in
  ({| J := J c; last_update_ms := now_ms; omega_rad_s := omega |},
   to_rpm omega).

(** ** task_calcSetpoint (CtrlTasks.cpp) *)

(** One turn of [task_calcSetpoint]: [torque_cmd] is the content of the
    torque queue (oldest first), [now_ms] what [millis()] returns inside
    [calculate_omega], [speed_actual] the share.  [None]: the turn blocks
    in [torque_cmd.get()]; otherwise the updated controller, the rest of
    the queue and the value handed to [speed_cmd.put]. *)
Definition task_calcSetpoint_iter (c : Controller) (now_ms : Z)
    (speed_actual : Share) (torque_cmd : list F32.t)
  : option (Controller * list F32.t * F32.t) :=
  match torque_cmd with
  | [] => None
  | torque :: rest =>
      let '(c', omega) :=
        calculate_omega c now_ms (Share_get speed_actual) torque in
      Some (c', rest, omega)
  end.

(** ** task_speedControl (CtrlTasks.cpp) *)

(** [speed_state]: 0 idle, 1 accelerating, 2 decelerating, 3 the
    zero crossing from negative to positive speed, 4 the zero crossing from
    positive to negative speed. *)
Inductive state :=
| Idle
| Accelerating
| Decelerating
| CrossingNegToPos
| CrossingPosToNeg.

(** The value of the [uint8_t] tag. *)
Definition state_code (s : state) : Z :=
  match s with
  | Idle => 0
  | Accelerating => 1
  | Decelerating => 2
  | CrossingNegToPos => 3
  | CrossingPosToNeg => 4
  end.

(** The locals that live across turns of the loop. *)
Record SpeedControl := {
  speed_state : state;
  speed_command : F32.t
}.

(** [sign]: [(x >= 0.0f) ? +1 : -1]. *)
Definition sign (x : F32.t) : Z :=
  if F32.leb F32.zero x then 1 else -1.

(** The idle branch once a command has been taken from the queue. *)
Definition idle_decide (speed_command speed_real : F32.t) (direction : bool)
  : state * list effect :=
  if F32.ltb speed_real speed_command then
    if sign speed_command =? sign speed_real then
      if Bool.eqb direction LOW then
        (Accelerating, [Cmd_speed_PWM (fabsf speed_command)])
      else
        (Decelerating, [Cmd_speed_PWM (F32.of_Z 0); Brake])
    else
      (Decelerating, [Cmd_speed_PWM (F32.of_Z 0); Brake])
  else if F32.ltb speed_command speed_real then
    if sign speed_command =? sign speed_real then
      if Bool.eqb direction LOW then
        (Decelerating, [Cmd_speed_PWM (F32.of_Z 0); Brake])
      else
        (Accelerating, [Cmd_speed_PWM (fabsf speed_command)])
    else
      (Decelerating, [Cmd_speed_PWM (F32.of_Z 0); Brake])
  else
    (Idle, []).

(** The branch of state 1. *)
Definition accel_decide (speed_command speed_real : F32.t)
  : state * list effect :=
  if F32.leb (fabsf (F32.sub speed_real speed_command)) f32_20 then (Idle, [])
  else (Accelerating, [VTaskDelay 10]).

(** The branch of state 2; the delay at its end is unconditional. *)
Definition decel_decide (speed_command speed_real : F32.t) (direction : bool)
  : state * list effect :=
  let '(s, es) :=
    if sign speed_command =? sign speed_real then
      if F32.leb (fabsf (F32.sub speed_real speed_command)) f32_20 then
        (Idle, [Unbrake; Cmd_speed_PWM (fabsf speed_command)])
      else (Decelerating, [])
    else if Bool.eqb direction HIGH then
      if F32.ltb (fabsf speed_real) f32_20 then (CrossingNegToPos, [])
      else (Decelerating, [])
    else
      if F32.ltb (fabsf speed_real) f32_20 then (CrossingPosToNeg, [])
      else (Decelerating, [])
  in (s, es ++ [VTaskDelay 10]).

(** One turn of the [while (true)] loop.  [speed_real] is what
    [speed_actual.get()] returns, [direction] what [Peripheral.get_dir()]
    returns, [speed_cmd] the content of the command queue (oldest first).
    [None]: the turn blocks in [speed_cmd.get()] on an empty queue. *)
Definition task_speedControl_iter (l : SpeedControl) (speed_real : F32.t)
    (direction : bool) (speed_cmd : list F32.t)
  : option (SpeedControl * list F32.t * list effect) :=
  match speed_state l with
  | Idle =>
      match speed_cmd with
      | [] => None
      | c :: rest =>
          let '(s, es) := idle_decide c speed_real direction in
          Some ({| speed_state := s; speed_command := c |}, rest, es)
      end
  | Accelerating =>
      let '(s, es) := accel_decide (speed_command l) speed_real in
      Some ({| speed_state := s; speed_command := speed_command l |},
            speed_cmd, es)
  | Decelerating =>
      let '(s, es) := decel_decide (speed_command l) speed_real direction in
      Some ({| speed_state := s; speed_command := speed_command l |},
            speed_cmd, es)
  | CrossingNegToPos =>
      Some ({| speed_state := Accelerating;
               speed_command := speed_command l |},
            speed_cmd,
            [Set_dir LOW; Unbrake; Cmd_speed_PWM (fabsf (speed_command l))])
  | CrossingPosToNeg =>
      Some ({| speed_state := Accelerating;
               speed_command := speed_command l |},
            speed_cmd,
            [Set_dir HIGH; Unbrake; Cmd_speed_PWM (fabsf (speed_command l))])
  end.

(** The task together with the hardware it drives and its queue. *)
Record Config := {
  locals : SpeedControl;
  drv : Driver;
  queue : list F32.t
}.

(** The state before the first turn: [speed_state = 0],
    [speed_command = 0.0], [Peripheral.set_dir(LOW)] done. *)
Definition Config_init (d : Driver) : Config :=
  {| locals := {| speed_state := Idle; speed_command := F32.zero |};
     drv := set_dir LOW d;
     queue := [] |}.

(** One turn on a configuration, reading [speed_real] from the share. *)
Definition step (c : Config) (speed_real : F32.t)
  : option (Config * list effect) :=
  match task_speedControl_iter (locals c) speed_real (get_dir (drv c))
                               (queue c) with
  | None => None
  | Some (l, q, es) =>
      Some ({| locals := l; drv := exec_effects (drv c) es; queue := q |}, es)
  end.

(** Successive turns, one share reading per turn; the effects of all the
    turns are collected in order.  A turn that blocks ends the run. *)
Fixpoint run (c : Config) (readings : list F32.t) : Config * list effect :=
  match readings with
  | [] => (c, [])
  | r :: rs =>
      match step c r with
      | None => (c, [])
      | Some (c', es) =>
          let '(c'', es') := run c' rs in (c'', es ++ es')
      end
  end.

(** ** Notions used to state invariants of the control loop *)

(** The brake pin and the tone agree with [speed_state]: the brake is
    released while idle or accelerating; it is asserted, with a tone of
    0 Hz, while decelerating or crossing zero. *)
Definition brake_consistent (c : Config) : Prop :=
  match speed_state (locals c) with
  | Idle | Accelerating => PIN_BRAKE (drv c) = LOW
  | Decelerating | CrossingNegToPos | CrossingPosToNeg =>
      PIN_BRAKE (drv c) = HIGH /\ CLKIN_tone (drv c) = S754_zero false
  end.

(** A speed command the driver can follow: a number of the [float] format
    within 2500 RPM of zero. *)
Definition command_in_envelope (x : F32.t) : Prop :=
  F32.valid x = true /\
  F32.leb (F32.opp f32_2500) x = true /\ F32.leb x f32_2500 = true.

(** A tone the DRV8308 is asked for: between 0 Hz and 166.67 Hz. *)
Definition tone_in_range (f : F64.t) : Prop :=
  SFleb (S754_zero false) f = true /\
  SFleb f (F64.of_ratio 16667 100) = true.

(** ** Notions used in the proofs about rounding *)

(** [dyadic_le m1 e1 m2 e2] is [m1 * 2^e1 <= m2 * 2^e2], stated on
    integers after scaling both sides by the smaller exponent. *)
Definition dyadic_le (m1 e1 m2 e2 : Z) : Prop :=
  m1 * 2 ^ (e1 - Z.min e1 e2) <= m2 * 2 ^ (e2 - Z.min e1 e2).

Definition dyadic_leb (m1 e1 m2 e2 : Z) : bool :=
  m1 * 2 ^ (e1 - Z.min e1 e2) <=? m2 * 2 ^ (e2 - Z.min e1 e2).

(** The comparison [SFcompare] makes between two positive finite
    numbers. *)
Definition mag_compare (m1 : positive) (e1 : Z) (m2 : positive) (e2 : Z)
  : comparison :=
  match e1 ?= e2 with
  | Lt => Lt
  | Gt => Gt
  | Eq => Pos.compare_cont Eq m1 m2
  end.

(** A number whose magnitude is at most [M * 2^E]: a zero, or a finite
    number of the binary32 format below that bound. *)
Definition f32_within (M : positive) (E : Z) (x : F32.t) : Prop :=
  (exists s, x = S754_zero s) \/
  (exists s m e, x = S754_finite s m e /\
                 bounded F32.prec F32.emax m e = true /\
                 dyadic_le (Zpos m) e (Zpos M) E).

(** [m * 2^e] as a rational number. *)
Definition dyadicQ (m e : Z) : Q := (inject_Z m * 2 ^ e)%Q.

(** The value of a number with its sign. *)
Definition signedQ (s : bool) (m e : Z) : Q :=
  if s then (- dyadicQ m e)%Q else dyadicQ m e.

(** The rational value of a floating-point number (0 for what is not
    finite). *)
Definition F2Q (x : spec_float) : Q :=
  match x with
  | S754_finite s m e => signedQ s (Zpos m) e
  | _ => 0%Q
  end.

(** [P] holds of every integer from 0 up to [k - 1]. *)
Fixpoint forall_below (k : nat) (P : Z -> bool) : bool :=
  match k with
  | O => true
  | S k' => P (Z.of_nat k') && forall_below k' P
  end.

(** * Properties *)

(** ** Dyadic numbers, digits and shifts *)

Lemma dyadic_leb_spec m1 e1 m2 e2 :
  dyadic_leb m1 e1 m2 e2 = true <-> dyadic_le m1 e1 m2 e2.
Proof. apply Z.leb_le. Qed.

Lemma dyadic_le_at (e0 m1 e1 m2 e2 : Z) :
  e0 <= e1 -> e0 <= e2 ->
  (dyadic_le m1 e1 m2 e2 <-> m1 * 2 ^ (e1 - e0) <= m2 * 2 ^ (e2 - e0)).
Proof.
  intros H1 H2. unfold dyadic_le.
  set (k := Z.min e1 e2).
  assert (Hk : e0 <= k) by (unfold k; lia).
  assert (Hk1 : k <= e1) by (unfold k; lia).
  assert (Hk2 : k <= e2) by (unfold k; lia).
  replace (e1 - e0) with ((e1 - k) + (k - e0)) by lia.
  replace (e2 - e0) with ((e2 - k) + (k - e0)) by lia.
  rewrite !Z.pow_add_r by lia. rewrite !Z.mul_assoc.
  assert (Hp : 0 < 2 ^ (k - e0)) by (apply Z.pow_pos_nonneg; lia).
  split; intros H.
  - apply Z.mul_le_mono_nonneg_r; lia.
  - apply Z.mul_le_mono_pos_r in H; lia.
Qed.

Lemma dyadic_le_scaled (e0 m1 e1 m2 e2 : Z) :
  e0 <= e1 -> e0 <= e2 -> dyadic_le m1 e1 m2 e2 ->
  m1 * 2 ^ (e1 - e0) <= m2 * 2 ^ (e2 - e0).
Proof. intros H1 H2. apply (proj1 (dyadic_le_at e0 m1 e1 m2 e2 H1 H2)). Qed.

Lemma dyadic_le_of_scaled (e0 m1 e1 m2 e2 : Z) :
  e0 <= e1 -> e0 <= e2 ->
  m1 * 2 ^ (e1 - e0) <= m2 * 2 ^ (e2 - e0) -> dyadic_le m1 e1 m2 e2.
Proof. intros H1 H2. apply (proj2 (dyadic_le_at e0 m1 e1 m2 e2 H1 H2)). Qed.

Lemma dyadic_le_trans (m1 e1 m2 e2 m3 e3 : Z) :
  dyadic_le m1 e1 m2 e2 -> dyadic_le m2 e2 m3 e3 -> dyadic_le m1 e1 m3 e3.
Proof.
  set (e0 := Z.min e1 (Z.min e2 e3)).
  rewrite (dyadic_le_at e0 m1 e1 m2 e2), (dyadic_le_at e0 m2 e2 m3 e3),
    (dyadic_le_at e0 m1 e1 m3 e3) by (unfold e0; lia).
  lia.
Qed.

Lemma dyadic_le_mul (k ek m1 e1 m2 e2 : Z) :
  0 <= k -> dyadic_le m1 e1 m2 e2 ->
  dyadic_le (m1 * k) (e1 + ek) (m2 * k) (e2 + ek).
Proof.
  intros Hk. unfold dyadic_le.
  rewrite Z.add_min_distr_r.
  replace (e1 + ek - (Z.min e1 e2 + ek)) with (e1 - Z.min e1 e2) by lia.
  replace (e2 + ek - (Z.min e1 e2 + ek)) with (e2 - Z.min e1 e2) by lia.
  intros H.
  rewrite (Z.mul_comm m1 k), (Z.mul_comm m2 k), <- !Z.mul_assoc.
  apply Z.mul_le_mono_nonneg_l; lia.
Qed.

Lemma digits2_pos_bounds (m : positive) :
  2 ^ (Zpos (digits2_pos m) - 1) <= Zpos m < 2 ^ Zpos (digits2_pos m).
Proof.
  induction m as [m IH|m IH|]; cbn [digits2_pos].
  - rewrite Pos2Z.inj_succ.
    replace (Z.succ (Zpos (digits2_pos m)) - 1) with (Z.succ (Zpos (digits2_pos m) - 1)) by lia.
    rewrite !Z.pow_succ_r by lia. lia.
  - rewrite Pos2Z.inj_succ.
    replace (Z.succ (Zpos (digits2_pos m)) - 1) with (Z.succ (Zpos (digits2_pos m) - 1)) by lia.
    rewrite !Z.pow_succ_r by lia. lia.
  - simpl. lia.
Qed.

Lemma Zdigits2_bounds (m : Z) :
  0 < m -> 2 ^ (Zdigits2 m - 1) <= m < 2 ^ Zdigits2 m.
Proof.
  destruct m as [|p|p]; try lia. intros _. apply digits2_pos_bounds.
Qed.

Lemma Zdigits2_pos (m : Z) : 0 < m -> 0 < Zdigits2 m.
Proof. destruct m; simpl; lia. Qed.

Lemma Zdigits2_unique (m k : Z) :
  2 ^ (k - 1) <= m < 2 ^ k -> 0 < k -> Zdigits2 m = k.
Proof.
  intros [H1 H2] Hk.
  assert (Hm : 0 < m).
  { assert (0 < 2 ^ (k - 1)) by (apply Z.pow_pos_nonneg; lia). lia. }
  pose proof (Zdigits2_bounds m Hm) as [H3 H4].
  pose proof (Zdigits2_pos m Hm) as Hd.
  assert (Zdigits2 m - 1 < k).
  { apply (Z.pow_lt_mono_r_iff 2); lia. }
  assert (k - 1 < Zdigits2 m).
  { apply (Z.pow_lt_mono_r_iff 2); lia. }
  lia.
Qed.

Lemma iter_pos_nat {A} (f : A -> A) (p : positive) (x : A) :
  iter_pos f p x = Nat.iter (Pos.to_nat p) f x.
Proof.
  revert x. induction p as [p IH|p IH|]; intros x; cbn [iter_pos].
  - rewrite !IH, Pos2Nat.inj_xI.
    replace (S (2 * Pos.to_nat p)) with (Pos.to_nat p + (Pos.to_nat p + 1))%nat by lia.
    rewrite !Nat.iter_add. reflexivity.
  - rewrite !IH, Pos2Nat.inj_xO.
    replace (2 * Pos.to_nat p)%nat with (Pos.to_nat p + Pos.to_nat p)%nat by lia.
    rewrite Nat.iter_add. reflexivity.
  - reflexivity.
Qed.

Lemma shr_1_m (mrs : shr_record) :
  0 <= shr_m mrs ->
  shr_m (shr_1 mrs) = shr_m mrs / 2 /\
  shr_r (shr_1 mrs) = Z.odd (shr_m mrs) /\
  shr_s (shr_1 mrs) = shr_r mrs || shr_s mrs.
Proof.
  destruct mrs as [m r s]. cbn [shr_m shr_r shr_s].
  destruct m as [|[p|p|]|p]; intros Hm; try lia; cbn [shr_1 shr_m shr_r shr_s].
  - repeat split.
  - rewrite Pos2Z.inj_xI. repeat split.
    apply (Z.div_unique _ _ _ 1); lia.
  - rewrite Pos2Z.inj_xO. repeat split.
    apply (Z.div_unique _ _ _ 0); lia.
  - repeat split.
Qed.

(** State of the shifted record after [k] shifts of an exact value. *)
Lemma iter_shr_1 (k : nat) (m : Z) :
  0 <= m ->
  shr_m (Nat.iter k shr_1 (Build_shr_record m false false))
    = m / 2 ^ Z.of_nat k /\
  (shr_r (Nat.iter k shr_1 (Build_shr_record m false false))
   || shr_s (Nat.iter k shr_1 (Build_shr_record m false false)) = true ->
   m mod 2 ^ Z.of_nat k <> 0).
Proof.
  intros Hm. induction k as [|k IH].
  - simpl. rewrite Z.div_1_r. split; [ reflexivity | discriminate ].
  - rewrite Nat.iter_succ.
    set (prev := Nat.iter k shr_1 _) in *.
    destruct IH as [IHm IHs].
    assert (Hp : 0 <= shr_m prev).
    { rewrite IHm. apply Z.div_pos; [ lia | apply Z.pow_pos_nonneg; lia ]. }
    destruct (shr_1_m prev Hp) as (H1 & H2 & H3).
    rewrite Nat2Z.inj_succ, Z.pow_succ_r by lia.
    assert (Hk : 0 < 2 ^ Z.of_nat k) by (apply Z.pow_pos_nonneg; lia).
    split.
    + rewrite H1, IHm. rewrite Z.div_div by lia. f_equal. lia.
    + rewrite H2, H3. intros H.
      apply orb_true_iff in H. destruct H as [H | H].
      * rewrite IHm in H.
        intros Hz.
        assert (Hd : m = 2 ^ Z.of_nat k * (2 * (m / (2 * 2 ^ Z.of_nat k)))).
        { pose proof (Z.div_mod m (2 * 2 ^ Z.of_nat k) ltac:(lia)). lia. }
        assert (Hq : m / 2 ^ Z.of_nat k = 2 * (m / (2 * 2 ^ Z.of_nat k))).
        { rewrite Hd at 1. rewrite Z.mul_comm, Z.div_mul by lia. reflexivity. }
        rewrite Hq in H. rewrite Z.odd_mul in H. discriminate.
      * specialize (IHs H). intros Hz. apply IHs.
        rewrite <- (Z.mod_mod_divide m (2 * 2 ^ Z.of_nat k) (2 ^ Z.of_nat k)).
        -- rewrite Hz. apply Z.mod_0_l. lia.
        -- exists 2. lia.
Qed.

Lemma iter_shr_1_m (k : nat) (mrs : shr_record) :
  0 <= shr_m mrs ->
  shr_m (Nat.iter k shr_1 mrs) = shr_m mrs / 2 ^ Z.of_nat k.
Proof.
  intros Hm. induction k as [|k IH].
  - simpl. now rewrite Z.div_1_r.
  - rewrite Nat.iter_succ.
    assert (Hp : 0 <= shr_m (Nat.iter k shr_1 mrs)).
    { rewrite IH. apply Z.div_pos; [ lia | apply Z.pow_pos_nonneg; lia ]. }
    destruct (shr_1_m _ Hp) as [-> _]. rewrite IH.
    rewrite Nat2Z.inj_succ, Z.pow_succ_r by lia.
    assert (Hk : 0 < 2 ^ Z.of_nat k) by (apply Z.pow_pos_nonneg; lia).
    rewrite Z.div_div by lia. f_equal. lia.
Qed.

Lemma shr_record_of_loc_m (m : Z) (l : location) :
  shr_m (shr_record_of_loc m l) = m.
Proof. destruct l as [|[ | | ]]; reflexivity. Qed.

(** ** Rounding to nearest in a binary format *)

Section Rounding.
Variables prec emax : Z.
Hypothesis Hprec : 0 < prec.

Lemma fexp_mono (x y : Z) : x <= y -> fexp prec emax x <= fexp prec emax y.
Proof. unfold fexp, emin. lia. Qed.

Lemma fexp_succ (x : Z) :
  fexp prec emax (x + 1) = fexp prec emax x \/
  fexp prec emax (x + 1) = fexp prec emax x + 1.
Proof. unfold fexp, emin. lia. Qed.

Lemma fexp_small (x : Z) :
  x <= fexp prec emax x -> fexp prec emax x = emin prec emax.
Proof. unfold fexp, emin. lia. Qed.

Lemma fexp_emin_1 : fexp prec emax (1 + emin prec emax) = emin prec emax.
Proof. unfold fexp, emin. lia. Qed.

Lemma shr_exact (m e : Z) (p : positive) :
  0 <= m ->
  exists mrs,
    shr (shr_record_of_loc m loc_Exact) e (Zpos p) = (mrs, e + Zpos p) /\
    shr_m mrs = m / 2 ^ Zpos p /\
    (shr_r mrs || shr_s mrs = true -> m mod 2 ^ Zpos p <> 0).
Proof.
  intros Hm. cbn [shr shr_record_of_loc].
  rewrite iter_pos_nat.
  destruct (iter_shr_1 (Pos.to_nat p) m Hm) as [H1 H2].
  rewrite positive_nat_Z in H1, H2.
  eexists. split; [ reflexivity | split; assumption ].
Qed.

Lemma shr_fexp_exact (m e : Z) :
  0 < m -> e <= fexp prec emax (Zdigits2 m + e) ->
  exists mrs,
    shr_fexp prec emax m e loc_Exact
      = (mrs, fexp prec emax (Zdigits2 m + e)) /\
    shr_m mrs = m / 2 ^ (fexp prec emax (Zdigits2 m + e) - e) /\
    (shr_r mrs || shr_s mrs = true ->
     m mod 2 ^ (fexp prec emax (Zdigits2 m + e) - e) <> 0).
Proof.
  intros Hm He. unfold shr_fexp.
  set (n := fexp prec emax (Zdigits2 m + e) - e).
  destruct n as [|p|p] eqn:En; [ | | lia ].
  - exists (shr_record_of_loc m loc_Exact).
    cbn [shr shr_record_of_loc shr_m shr_r shr_s orb].
    rewrite Z.pow_0_r, Z.div_1_r.
    split; [ f_equal; lia | split; [ reflexivity | discriminate ] ].
  - destruct (shr_exact m e p ltac:(lia)) as (mrs & H1 & H2 & H3).
    exists mrs. rewrite H1. split; [ f_equal; lia | split; assumption ].
Qed.

Lemma round_nearest_even_cases (mrs : shr_record) :
  round_nearest_even (shr_m mrs) (loc_of_shr_record mrs) = shr_m mrs \/
  (round_nearest_even (shr_m mrs) (loc_of_shr_record mrs) = shr_m mrs + 1 /\
   shr_r mrs || shr_s mrs = true).
Proof.
  destruct mrs as [m [|] [|]]; cbn; auto.
  destruct (Z.even m); auto.
Qed.

(** Digits of a quotient by a power of two. *)
Lemma Zdigits2_div_pow2 (m n : Z) :
  0 < m -> 0 <= n -> 0 < m / 2 ^ n ->
  Zdigits2 (m / 2 ^ n) = Zdigits2 m - n.
Proof.
  intros Hm Hn Hq.
  pose proof (Zdigits2_bounds m Hm) as [H1 H2].
  pose proof (Zdigits2_pos m Hm) as Hd.
  assert (Hp : 0 < 2 ^ n) by (apply Z.pow_pos_nonneg; lia).
  assert (Hlt : n < Zdigits2 m).
  { apply (Z.pow_lt_mono_r_iff 2); [ lia | lia | ].
    assert (2 ^ n <= m); [ | lia ].
    destruct (Z.le_gt_cases (2 ^ n) m) as [|Hc]; [ assumption | ].
    rewrite Z.div_small in Hq by lia. lia. }
  apply Zdigits2_unique; [ | lia ].
  split.
  - apply Z.div_le_lower_bound; [ lia | ].
    rewrite <- Z.pow_add_r by lia.
    replace (n + (Zdigits2 m - n - 1)) with (Zdigits2 m - 1) by lia. lia.
  - apply Z.div_lt_upper_bound; [ lia | ].
    rewrite <- Z.pow_add_r by lia.
    replace (n + (Zdigits2 m - n)) with (Zdigits2 m) by lia. lia.
Qed.

(** The second normalisation step of [binary_round_aux], on a mantissa
    [mr] that is either in the binade of exponent [E] or the power of two
    just above it. *)
Lemma shr_fexp_renormalise (mr E : Z) :
  0 < mr ->
  fexp prec emax (Zdigits2 mr + E) = E \/
  (mr = 2 ^ (Zdigits2 mr - 1) /\ 1 < Zdigits2 mr /\
   fexp prec emax (Zdigits2 mr - 1 + E) = E) ->
  exists (m'' : positive) (e'' : Z),
    shr_m (fst (shr_fexp prec emax mr E loc_Exact)) = Zpos m'' /\
    snd (shr_fexp prec emax mr E loc_Exact) = e'' /\
    E <= e'' /\ Zpos m'' * 2 ^ (e'' - E) = mr /\
    canonical_mantissa prec emax m'' e'' = true.
Proof.
  intros Hmr H.
  destruct mr as [|pm|pm]; try lia.
  unfold shr_fexp.
  destruct (Z.eq_dec (fexp prec emax (Zdigits2 (Zpos pm) + E)) E) as [Heq | Hne].
  - rewrite Heq, Z.sub_diag. cbn [shr shr_record_of_loc fst snd shr_m].
    exists pm, E. repeat split; try lia.
    + rewrite Z.sub_diag. lia.
    + unfold canonical_mantissa. apply Z.eqb_eq. exact Heq.
  - destruct H as [H | (Hpow & Hd & Hf)]; [ contradiction | ].
    destruct (fexp_succ (Zdigits2 (Zpos pm) - 1 + E)) as [Hs | Hs];
      replace (Zdigits2 (Zpos pm) - 1 + E + 1) with (Zdigits2 (Zpos pm) + E)
        in Hs by lia; rewrite Hf in Hs; [ contradiction | ].
    rewrite Hs. replace (E + 1 - E) with 1 by lia.
    cbn [shr shr_record_of_loc iter_pos fst snd].
    assert (Hh : Zpos pm = 2 * 2 ^ (Zdigits2 (Zpos pm) - 2)).
    { rewrite Hpow at 1. rewrite <- Z.pow_succ_r by lia. f_equal. lia. }
    assert (Hpos : 0 < 2 ^ (Zdigits2 (Zpos pm) - 2))
      by (apply Z.pow_pos_nonneg; lia).
    destruct pm as [q|q|]; [ lia | | cbn in Hd; lia ].
    cbn [shr_1 shr_m].
    exists q, (E + 1). repeat split; try lia.
    + replace (E + 1 - E) with 1 by lia. lia.
    + unfold canonical_mantissa. apply Z.eqb_eq.
      change (Zpos (digits2_pos q)) with (Zdigits2 (Zpos q)).
      assert (Hq : Zdigits2 (Zpos q) = Zdigits2 (Zpos q~0) - 1).
      { cbn [Zdigits2 digits2_pos]. lia. }
      rewrite Hq.
      replace (Zdigits2 (Zpos q~0) - 1 + (E + 1)) with (Zdigits2 (Zpos q~0) + E) by lia.
      exact Hs.
Qed.

Lemma shr_fexp_zero (E : Z) :
  shr_m (fst (shr_fexp prec emax 0 E loc_Exact)) = 0.
Proof.
  unfold shr_fexp.
  destruct (fexp prec emax (Zdigits2 0 + E) - E) as [|p|p];
    try reflexivity.
  destruct (shr_exact 0 E p ltac:(lia)) as (mrs & H1 & H2 & _).
  rewrite H1. cbn [fst]. rewrite H2. apply Z.div_0_l.
  apply Z.pow_nonzero; lia.
Qed.

(** The first shift of [binary_round_aux] divides the mantissa by the power
    of two that brings it to the canonical exponent, whatever the location
    it starts from. *)
Lemma shr_fexp_m (m e : Z) (l : location) :
  0 < m -> e <= fexp prec emax (Zdigits2 m + e) ->
  snd (shr_fexp prec emax m e l) = fexp prec emax (Zdigits2 m + e) /\
  shr_m (fst (shr_fexp prec emax m e l))
    = m / 2 ^ (fexp prec emax (Zdigits2 m + e) - e).
Proof.
  intros Hm He. unfold shr_fexp.
  destruct (fexp prec emax (Zdigits2 m + e) - e) as [|p|p] eqn:En;
    [ | | lia ].
  - cbn [shr fst snd]. rewrite shr_record_of_loc_m, Z.pow_0_r, Z.div_1_r.
    split; lia.
  - cbn [shr fst snd]. rewrite iter_pos_nat, iter_shr_1_m;
      rewrite shr_record_of_loc_m; [ | lia ].
    rewrite positive_nat_Z. split; lia.
Qed.

(** After rounding, the mantissa is in the binade of the canonical exponent
    or is the power of two just above it. *)
Lemma rounded_mantissa_binade (m e mr : Z) :
  0 < m -> e <= fexp prec emax (Zdigits2 m + e) -> 0 < mr ->
  mr = m / 2 ^ (fexp prec emax (Zdigits2 m + e) - e) \/
  mr = m / 2 ^ (fexp prec emax (Zdigits2 m + e) - e) + 1 ->
  fexp prec emax (Zdigits2 mr + fexp prec emax (Zdigits2 m + e))
    = fexp prec emax (Zdigits2 m + e) \/
  (mr = 2 ^ (Zdigits2 mr - 1) /\ 1 < Zdigits2 mr /\
   fexp prec emax (Zdigits2 mr - 1 + fexp prec emax (Zdigits2 m + e))
     = fexp prec emax (Zdigits2 m + e)).
Proof.
  intros Hm He Hpos Hmr.
  set (E := fexp prec emax (Zdigits2 m + e)) in *.
  set (n := E - e) in *.
  assert (Hn : 0 <= n) by (unfold n; lia).
  assert (Hp : 0 < 2 ^ n) by (apply Z.pow_pos_nonneg; lia).
  assert (H0 : 0 <= m / 2 ^ n) by (apply Z.div_pos; lia).
  pose proof (Zdigits2_bounds m Hm) as [Hd1 Hd2].
  pose proof (Zdigits2_pos m Hm) as Hd.
  destruct (Z.eq_dec (m / 2 ^ n) 0) as [Hq0 | Hq0].
  - (* everything was shifted out: the result is the least subnormal *)
    assert (mr = 1) as -> by lia.
    left. cbn [Zdigits2 digits2_pos].
    assert (m < 2 ^ n).
    { destruct (Z.le_gt_cases (2 ^ n) m) as [Hc|]; [ | assumption ].
      assert (1 <= m / 2 ^ n); [ | lia ].
      apply Z.div_le_lower_bound; lia. }
    assert (Zdigits2 m - 1 < n).
    { apply (Z.pow_lt_mono_r_iff 2); lia. }
    assert (HE : E = emin prec emax).
    { apply fexp_small. unfold n in *. fold E. lia. }
    rewrite HE. now apply fexp_emin_1.
  - assert (Hq : 0 < m / 2 ^ n) by lia.
    pose proof (Zdigits2_div_pow2 m n Hm Hn Hq) as Hdq.
    pose proof (Zdigits2_bounds _ Hq) as [Hq1 Hq2].
    pose proof (Zdigits2_pos _ Hq) as Hdpos.
    rewrite Hdq in Hq1, Hq2, Hdpos.
    assert (HfE : fexp prec emax (Zdigits2 m - n + E) = E).
    { unfold n. replace (Zdigits2 m - (E - e) + E) with (Zdigits2 m + e) by lia.
      reflexivity. }
    destruct Hmr as [-> | ->].
    + left. now rewrite Hdq.
    + destruct (Z.eq_dec (m / 2 ^ n + 1) (2 ^ (Zdigits2 m - n))) as [He2 | He2].
      * right.
        assert (Hdd : Zdigits2 (m / 2 ^ n + 1) = Zdigits2 m - n + 1).
        { apply Zdigits2_unique; [ | lia ].
          rewrite He2.
          replace (Zdigits2 m - n + 1 - 1) with (Zdigits2 m - n) by lia.
          split; [ lia | ].
          apply Z.pow_lt_mono_r; lia. }
        rewrite Hdd.
        replace (Zdigits2 m - n + 1 - 1) with (Zdigits2 m - n) by lia.
        repeat split; [ exact He2 | lia | exact HfE ].
      * left.
        assert (Hdd : Zdigits2 (m / 2 ^ n + 1) = Zdigits2 m - n).
        { apply Zdigits2_unique; lia. }
        now rewrite Hdd.
Qed.

(** What [binary_round_aux] returns on a positive mantissa whose exponent
    is not above the canonical one [E]: the mantissa is divided by the
    power of two that brings it to [E], the quotient is kept or
    incremented, and the result [mr] is renormalised. *)
Lemma binary_round_aux_shape (s : bool) (m e : Z) (l : location) :
  0 < m -> e <= fexp prec emax (Zdigits2 m + e) ->
  exists mr : Z,
    mr = round_nearest_even (shr_m (fst (shr_fexp prec emax m e l)))
           (loc_of_shr_record (fst (shr_fexp prec emax m e l))) /\
    (mr = m / 2 ^ (fexp prec emax (Zdigits2 m + e) - e) \/
     mr = m / 2 ^ (fexp prec emax (Zdigits2 m + e) - e) + 1) /\
    ((mr = 0 /\ binary_round_aux prec emax s m e l = S754_zero s) \/
     (exists (m'' : positive) (e'' : Z),
        fexp prec emax (Zdigits2 m + e) <= e'' /\
        Zpos m'' * 2 ^ (e'' - fexp prec emax (Zdigits2 m + e)) = mr /\
        canonical_mantissa prec emax m'' e'' = true /\
        binary_round_aux prec emax s m e l =
          if e'' <=? emax - prec then S754_finite s m'' e''
          else S754_infinity s)).
Proof.
  intros Hm He.
  destruct (shr_fexp_m m e l Hm He) as [H1 H2].
  set (E := fexp prec emax (Zdigits2 m + e)) in *.
  assert (Hp : 0 < 2 ^ (E - e)) by (apply Z.pow_pos_nonneg; lia).
  assert (H0 : 0 <= m / 2 ^ (E - e)) by (apply Z.div_pos; lia).
  unfold binary_round_aux.
  destruct (shr_fexp prec emax m e l) as [mrs' e'].
  cbn [fst snd] in *. subst e'.
  set (mr := round_nearest_even (shr_m mrs') (loc_of_shr_record mrs')).
  assert (Hmr : mr = m / 2 ^ (E - e) \/ mr = m / 2 ^ (E - e) + 1).
  { destruct (round_nearest_even_cases mrs') as [Hr | [Hr _]];
      fold mr in Hr; rewrite H2 in Hr; auto. }
  exists mr. split; [ reflexivity | split; [ exact Hmr | ] ].
  destruct (Z.eq_dec mr 0) as [Hz | Hnz].
  - left. split; [ exact Hz | ].
    rewrite Hz.
    pose proof (shr_fexp_zero E) as Hs.
    destruct (shr_fexp prec emax 0 E loc_Exact) as [mrs2 e2].
    cbn [fst] in Hs. now rewrite Hs.
  - right.
    assert (Hpos : 0 < mr) by lia.
    pose proof (rounded_mantissa_binade m e mr Hm He Hpos Hmr) as Hcond.
    fold E in Hcond.
    destruct (shr_fexp_renormalise mr E Hpos Hcond)
      as (m'' & e'' & Hm'' & He'' & HEe & Hval & Hcan).
    destruct (shr_fexp prec emax mr E loc_Exact) as [mrs2 e2].
    cbn [fst snd] in Hm'', He''. subst e2. rewrite Hm''.
    exists m'', e''. repeat split; assumption.
Qed.

Lemma binary_round_aux_exact (s : bool) (m e : Z) :
  0 < m -> e <= fexp prec emax (Zdigits2 m + e) ->
  exists mr : Z,
    (mr = m / 2 ^ (fexp prec emax (Zdigits2 m + e) - e) \/
     (mr = m / 2 ^ (fexp prec emax (Zdigits2 m + e) - e) + 1 /\
      m mod 2 ^ (fexp prec emax (Zdigits2 m + e) - e) <> 0)) /\
    ((mr = 0 /\ binary_round_aux prec emax s m e loc_Exact = S754_zero s) \/
     (exists (m'' : positive) (e'' : Z),
        fexp prec emax (Zdigits2 m + e) <= e'' /\
        Zpos m'' * 2 ^ (e'' - fexp prec emax (Zdigits2 m + e)) = mr /\
        canonical_mantissa prec emax m'' e'' = true /\
        binary_round_aux prec emax s m e loc_Exact =
          if e'' <=? emax - prec then S754_finite s m'' e''
          else S754_infinity s)).
Proof.
  intros Hm He.
  destruct (binary_round_aux_shape s m e loc_Exact Hm He)
    as (mr & Hdef & _ & Hres).
  destruct (shr_fexp_exact m e Hm He) as (mrs' & H1 & H2 & H3).
  rewrite H1 in Hdef. cbn [fst] in Hdef.
  exists mr. split; [ | exact Hres ].
  destruct (round_nearest_even_cases mrs') as [Hr | [Hr Hrs]];
    rewrite <- Hdef, H2 in Hr; auto.
Qed.

(** *** Canonical mantissas and the order *)

Lemma canonical_fexp (m : positive) (e : Z) :
  canonical_mantissa prec emax m e = true ->
  fexp prec emax (Zdigits2 (Zpos m) + e) = e.
Proof. unfold canonical_mantissa. intros H. now apply Z.eqb_eq in H. Qed.

Lemma canonical_digits_le (m : positive) (e : Z) :
  canonical_mantissa prec emax m e = true -> Zdigits2 (Zpos m) <= prec.
Proof.
  intros H. apply canonical_fexp in H. unfold fexp, emin in H. lia.
Qed.

Lemma dyadic_le_digits (m1 e1 m2 e2 : Z) :
  0 < m1 -> 0 < m2 -> dyadic_le m1 e1 m2 e2 ->
  Zdigits2 m1 + e1 <= Zdigits2 m2 + e2.
Proof.
  intros H1 H2 H.
  set (e0 := Z.min e1 e2).
  apply (dyadic_le_at e0) in H; [ | unfold e0; lia | unfold e0; lia ].
  pose proof (Zdigits2_bounds m1 H1) as [Ha _].
  pose proof (Zdigits2_bounds m2 H2) as [_ Hb].
  pose proof (Zdigits2_pos m1 H1). pose proof (Zdigits2_pos m2 H2).
  assert (Hp1 : 0 < 2 ^ (e1 - e0)) by (apply Z.pow_pos_nonneg; unfold e0; lia).
  assert (Hp2 : 0 < 2 ^ (e2 - e0)) by (apply Z.pow_pos_nonneg; unfold e0; lia).
  assert (Hlt : 2 ^ (Zdigits2 m1 - 1 + (e1 - e0)) < 2 ^ (Zdigits2 m2 + (e2 - e0))).
  { rewrite !Z.pow_add_r by (unfold e0; lia).
    apply Z.le_lt_trans with (m1 * 2 ^ (e1 - e0)).
    - apply Z.mul_le_mono_nonneg_r; lia.
    - apply Z.le_lt_trans with (m2 * 2 ^ (e2 - e0)); [ exact H | ].
      apply Z.mul_lt_mono_pos_r; lia. }
  apply Z.pow_lt_mono_r_iff in Hlt; unfold e0 in *; lia.
Qed.

Lemma canonical_exp_le (m1 m2 : positive) (e1 e2 : Z) :
  canonical_mantissa prec emax m1 e1 = true ->
  canonical_mantissa prec emax m2 e2 = true ->
  dyadic_le (Zpos m1) e1 (Zpos m2) e2 -> e1 <= e2.
Proof.
  intros H1 H2 H.
  apply canonical_fexp in H1. apply canonical_fexp in H2.
  rewrite <- H1, <- H2. apply fexp_mono.
  apply dyadic_le_digits; lia || assumption.
Qed.

Lemma mag_compare_le (m1 m2 : positive) (e1 e2 : Z) :
  canonical_mantissa prec emax m1 e1 = true ->
  canonical_mantissa prec emax m2 e2 = true ->
  (mag_compare m1 e1 m2 e2 <> Gt <-> dyadic_le (Zpos m1) e1 (Zpos m2) e2).
Proof.
  intros H1 H2. unfold mag_compare. split.
  - destruct (Z.compare_spec e1 e2) as [-> | Hlt | Hgt]; intros H.
    + apply (dyadic_le_at e2); [ lia | lia | ].
      rewrite Z.sub_diag, Z.pow_0_r.
      change (Pos.compare_cont Eq m1 m2) with (Pos.compare m1 m2) in H.
      assert (Hm : (m1 <= m2)%positive) by exact H. lia.
    + apply (dyadic_le_at e1); [ lia | lia | ].
      rewrite Z.sub_diag, Z.pow_0_r.
      pose proof (canonical_digits_le _ _ H1) as Hd1.
      pose proof (canonical_fexp _ _ H1) as Hf1.
      pose proof (canonical_fexp _ _ H2) as Hf2.
      assert (Hd2 : Zdigits2 (Zpos m2) = prec).
      { unfold fexp, emin in Hf1, Hf2. lia. }
      pose proof (Zdigits2_bounds (Zpos m1) ltac:(lia)) as [_ Hb1].
      pose proof (Zdigits2_bounds (Zpos m2) ltac:(lia)) as [Hb2 _].
      rewrite Hd2 in Hb2.
      assert (Hpw : 2 ^ Zdigits2 (Zpos m1) <= 2 ^ prec)
        by (apply Z.pow_le_mono_r; lia).
      assert (Hpp : 2 ^ prec = 2 * 2 ^ (prec - 1)).
      { rewrite <- Z.pow_succ_r by lia. f_equal. lia. }
      assert (He : 2 ^ 1 <= 2 ^ (e2 - e1)) by (apply Z.pow_le_mono_r; lia).
      change (2 ^ 1) with 2 in He.
      assert (Zpos m2 * 2 <= Zpos m2 * 2 ^ (e2 - e1))
        by (apply Z.mul_le_mono_nonneg_l; lia).
      lia.
    + congruence.
  - intros H. pose proof (canonical_exp_le _ _ _ _ H1 H2 H) as He.
    destruct (Z.compare_spec e1 e2) as [-> | Hlt | Hgt];
      [ | discriminate | lia ].
    apply (dyadic_le_at e2) in H; [ | lia | lia ].
    rewrite Z.sub_diag, Z.pow_0_r in H.
    change (Pos.compare_cont Eq m1 m2) with (Pos.compare m1 m2).
    apply Pos.compare_le_iff. lia.
Qed.

(** *** Rounding does not cross a representable bound *)

Lemma binary_round_aux_le (s : bool) (m e : Z) (Mb : positive) (Eb : Z) :
  0 < m -> e <= fexp prec emax (Zdigits2 m + e) ->
  bounded prec emax Mb Eb = true ->
  dyadic_le m e (Zpos Mb) Eb ->
  binary_round_aux prec emax s m e loc_Exact = S754_zero s \/
  exists (m'' : positive) (e'' : Z),
    binary_round_aux prec emax s m e loc_Exact = S754_finite s m'' e'' /\
    bounded prec emax m'' e'' = true /\
    dyadic_le (Zpos m'') e'' (Zpos Mb) Eb.
Proof.
  intros Hm He Hb Hle.
  apply andb_true_iff in Hb. destruct Hb as [Hcb Hbb].
  apply Z.leb_le in Hbb.
  destruct (binary_round_aux_exact s m e Hm He) as (mr & Hmr & Hres).
  set (E := fexp prec emax (Zdigits2 m + e)) in *.
  destruct Hres as [[_ Hz] | (m'' & e'' & HEe & Hval & Hcan & Hres)];
    [ left; exact Hz | right ].
  assert (HEb : E <= Eb).
  { rewrite <- (canonical_fexp _ _ Hcb). apply fexp_mono.
    apply dyadic_le_digits; lia || assumption. }
  assert (Hmle : mr <= Zpos Mb * 2 ^ (Eb - E)).
  { apply (dyadic_le_at e) in Hle; [ | lia | lia ].
    rewrite Z.sub_diag, Z.pow_0_r, Z.mul_1_r in Hle.
    replace (Eb - e) with ((Eb - E) + (E - e)) in Hle by lia.
    rewrite Z.pow_add_r, Z.mul_assoc in Hle by lia.
    set (N := Zpos Mb * 2 ^ (Eb - E)) in *.
    assert (Hp : 0 < 2 ^ (E - e)) by (apply Z.pow_pos_nonneg; lia).
    pose proof (Z.div_mod m (2 ^ (E - e)) ltac:(lia)) as Hdm.
    pose proof (Z.mod_pos_bound m (2 ^ (E - e)) Hp) as Hmod.
    destruct Hmr as [-> | [-> Hnz]].
    - apply Z.div_le_upper_bound; lia.
    - assert (m / 2 ^ (E - e) < N); [ | lia ].
      apply Z.div_lt_upper_bound; [ lia | ].
      destruct (Z.eq_dec m (2 ^ (E - e) * N)) as [Heq | Hne]; [ | lia ].
      exfalso. apply Hnz. rewrite Heq, Z.mul_comm. apply Z.mod_mul. lia. }
  assert (Hle'' : dyadic_le (Zpos m'') e'' (Zpos Mb) Eb).
  { apply (dyadic_le_at E); [ lia | lia | ]. now rewrite Hval. }
  pose proof (canonical_exp_le _ _ _ _ Hcan Hcb Hle'') as He''.
  exists m'', e''. rewrite Hres.
  assert (Hfin : (e'' <=? emax - prec) = true) by (apply Z.leb_le; lia).
  rewrite Hfin. repeat split; [ | exact Hle'' ].
  unfold bounded. now rewrite Hcan, Hfin.
Qed.

Lemma binary_round_aux_valid (s : bool) (m e : Z) :
  0 < m -> e <= fexp prec emax (Zdigits2 m + e) ->
  valid_binary prec emax (binary_round_aux prec emax s m e loc_Exact) = true.
Proof.
  intros Hm He.
  destruct (binary_round_aux_exact s m e Hm He) as (mr & _ & Hres).
  destruct Hres as [[_ ->] | (m'' & e'' & _ & _ & Hcan & ->)];
    [ reflexivity | ].
  destruct (e'' <=? emax - prec) eqn:Hfin; [ | reflexivity ].
  cbn [valid_binary]. unfold bounded. now rewrite Hcan, Hfin.
Qed.

(** *** Rounding does not cross a representable bound from above *)

Lemma binary_round_aux_ge (s : bool) (m e : Z) (l : location)
    (Mb : positive) (Eb : Z) :
  0 < m -> e <= fexp prec emax (Zdigits2 m + e) ->
  bounded prec emax Mb Eb = true ->
  dyadic_le (Zpos Mb) Eb m e ->
  binary_round_aux prec emax s m e l = S754_infinity s \/
  exists (m'' : positive) (e'' : Z),
    binary_round_aux prec emax s m e l = S754_finite s m'' e'' /\
    bounded prec emax m'' e'' = true /\
    dyadic_le (Zpos Mb) Eb (Zpos m'') e''.
Proof.
  intros Hm He Hb Hle.
  apply andb_true_iff in Hb. destruct Hb as [Hcb _].
  pose proof (canonical_fexp _ _ Hcb) as Hfb.
  destruct (binary_round_aux_shape s m e l Hm He) as (mr & _ & Hmr & Hres).
  set (E := fexp prec emax (Zdigits2 m + e)) in *.
  assert (Hp : 0 < 2 ^ (E - e)) by (apply Z.pow_pos_nonneg; lia).
  pose proof (Zdigits2_bounds m Hm) as [Hd1 Hd2].
  pose proof (Zdigits2_pos m Hm) as Hd.
  pose proof (Zdigits2_bounds (Zpos Mb) ltac:(lia)) as [Hb1 Hb2].
  pose proof (Zdigits2_pos (Zpos Mb) ltac:(lia)) as Hdb.
  (* the bound is below the truncated mantissa already *)
  assert (Hq : dyadic_le (Zpos Mb) Eb (m / 2 ^ (E - e)) E).
  { destruct (Z.le_gt_cases E Eb) as [HEb | HEb].
    - apply (dyadic_le_at e) in Hle; [ | lia | lia ].
      rewrite Z.sub_diag, Z.pow_0_r, Z.mul_1_r in Hle.
      apply (dyadic_le_at E); [ lia | lia | ].
      rewrite Z.sub_diag, Z.pow_0_r, Z.mul_1_r.
      apply Z.div_le_lower_bound; [ lia | ].
      replace (Eb - e) with ((E - e) + (Eb - E)) in Hle by lia.
      rewrite Z.pow_add_r in Hle by lia. lia.
    - assert (Hlt : Zdigits2 (Zpos Mb) + Eb < Zdigits2 m + e).
      { destruct (Z.le_gt_cases (Zdigits2 m + e) (Zdigits2 (Zpos Mb) + Eb))
          as [Hc | Hc]; [ | lia ].
        apply fexp_mono in Hc. fold E in Hc. lia. }
      assert (Hn : E - e < Zdigits2 m).
      { destruct (Z.le_gt_cases (Zdigits2 m) (E - e)) as [Hc | Hc]; [ | lia ].
        assert (HE : E = emin prec emax) by (apply fexp_small; fold E; lia).
        revert Hfb HEb HE. unfold fexp. lia. }
      assert (Hqlo : 2 ^ (Zdigits2 m - 1 - (E - e)) <= m / 2 ^ (E - e)).
      { apply Z.div_le_lower_bound; [ lia | ].
        rewrite <- Z.pow_add_r by lia.
        replace (E - e + (Zdigits2 m - 1 - (E - e))) with (Zdigits2 m - 1)
          by lia. lia. }
      apply (dyadic_le_at Eb); [ lia | lia | ].
      rewrite Z.sub_diag, Z.pow_0_r, Z.mul_1_r.
      assert (Hpw : 2 ^ Zdigits2 (Zpos Mb)
                    <= 2 ^ (Zdigits2 m - 1 - (E - e)) * 2 ^ (E - Eb)).
      { rewrite <- Z.pow_add_r by lia. apply Z.pow_le_mono_r; lia. }
      assert (0 < 2 ^ (E - Eb)) by (apply Z.pow_pos_nonneg; lia).
      nia. }
  assert (Hmrge : dyadic_le (Zpos Mb) Eb mr E).
  { eapply dyadic_le_trans; [ exact Hq | ].
    apply (dyadic_le_at E); [ lia | lia | ].
    rewrite Z.sub_diag, Z.pow_0_r. lia. }
  destruct Hres as [[Hz _] | (m'' & e'' & HEe & Hval & Hcan & ->)].
  - exfalso. subst mr.
    pose proof (dyadic_le_scaled (Z.min Eb E) _ _ _ _
                  (Z.le_min_l Eb E) (Z.le_min_r Eb E) Hmrge) as Hz0.
    assert (0 < 2 ^ (Eb - Z.min Eb E)) by (apply Z.pow_pos_nonneg; lia).
    assert (0 < Zpos Mb * 2 ^ (Eb - Z.min Eb E))
      by (apply Z.mul_pos_pos; lia).
    lia.
  - destruct (e'' <=? emax - prec) eqn:Hfin; [ right | left; reflexivity ].
    exists m'', e''. repeat split.
    + unfold bounded. now rewrite Hcan, Hfin.
    + eapply dyadic_le_trans; [ exact Hmrge | ].
      apply (dyadic_le_at E); [ lia | lia | ].
      rewrite Z.sub_diag, Z.pow_0_r, Hval. lia.
Qed.
(** *** [binary_round] and the multiplication *)

Lemma Pos_iter_xO (m d : positive) :
  Zpos (Pos.iter xO m d) = Zpos m * 2 ^ Zpos d.
Proof.
  induction d as [|d IH] using Pos.peano_ind.
  - cbn [Pos.iter]. rewrite Pos2Z.inj_xO. change (2 ^ 1) with 2. lia.
  - rewrite Pos.iter_succ, Pos2Z.inj_xO, IH, Pos2Z.inj_succ.
    rewrite Z.pow_succ_r by lia. lia.
Qed.

Lemma Zdigits2_mul_pow2 (m k : Z) :
  0 < m -> 0 <= k -> Zdigits2 (m * 2 ^ k) = Zdigits2 m + k.
Proof.
  intros Hm Hk.
  pose proof (Zdigits2_bounds m Hm) as [H1 H2].
  pose proof (Zdigits2_pos m Hm) as Hd.
  assert (Hp : 0 < 2 ^ k) by (apply Z.pow_pos_nonneg; lia).
  apply Zdigits2_unique; [ | lia ].
  replace (Zdigits2 m + k - 1) with ((Zdigits2 m - 1) + k) by lia.
  rewrite !Z.pow_add_r by lia.
  split.
  - apply Z.mul_le_mono_nonneg_r; lia.
  - apply Z.mul_lt_mono_pos_r; lia.
Qed.

Lemma shl_align_fexp (m : positive) (e : Z) :
  exists (mz : positive) (ez : Z),
    shl_align m e (fexp prec emax (Zpos (digits2_pos m) + e)) = (mz, ez) /\
    ez <= e /\ Zpos mz = Zpos m * 2 ^ (e - ez) /\
    ez <= fexp prec emax (Zdigits2 (Zpos mz) + ez).
Proof.
  unfold shl_align.
  change (Zpos (digits2_pos m)) with (Zdigits2 (Zpos m)).
  set (E := fexp prec emax (Zdigits2 (Zpos m) + e)).
  destruct (E - e) as [|d|d] eqn:Hd.
  - exists m, e. rewrite Z.sub_diag, Z.pow_0_r. fold E. repeat split; lia.
  - exists m, e. rewrite Z.sub_diag, Z.pow_0_r. fold E. repeat split; lia.
  - exists (Pos.iter xO m d), E.
    assert (HeE : e - E = Zpos d) by lia.
    rewrite HeE, Pos_iter_xO.
    repeat split; try lia.
    rewrite Zdigits2_mul_pow2 by lia.
    replace (Zdigits2 (Zpos m) + Zpos d + E) with (Zdigits2 (Zpos m) + e) by lia.
    fold E. lia.
Qed.

Lemma binary_round_valid (s : bool) (m : positive) (e : Z) :
  valid_binary prec emax (binary_round prec emax s m e) = true.
Proof.
  unfold binary_round.
  destruct (shl_align_fexp m e) as (mz & ez & -> & _ & _ & Hz).
  apply binary_round_aux_valid; lia || assumption.
Qed.

Lemma binary_round_le (s : bool) (m : positive) (e : Z)
    (Mb : positive) (Eb : Z) :
  bounded prec emax Mb Eb = true ->
  dyadic_le (Zpos m) e (Zpos Mb) Eb ->
  binary_round prec emax s m e = S754_zero s \/
  exists (m'' : positive) (e'' : Z),
    binary_round prec emax s m e = S754_finite s m'' e'' /\
    bounded prec emax m'' e'' = true /\
    dyadic_le (Zpos m'') e'' (Zpos Mb) Eb.
Proof.
  intros Hb Hle. unfold binary_round.
  destruct (shl_align_fexp m e) as (mz & ez & -> & Hez & Hmz & Hz).
  apply binary_round_aux_le; try lia; try assumption.
  set (e0 := Z.min ez Eb).
  apply (dyadic_le_at e0) in Hle; [ | unfold e0; lia | unfold e0; lia ].
  apply (dyadic_le_at e0); [ unfold e0; lia | unfold e0; lia | ].
  rewrite Hmz, <- Z.mul_assoc, <- Z.pow_add_r by (unfold e0; lia).
  replace (e - ez + (ez - e0)) with (e - e0) by lia. exact Hle.
Qed.

Lemma SFmul_finite_le (s1 s2 : bool) (m1 m2 : positive) (e1 e2 : Z)
    (Mb : positive) (Eb : Z) :
  Zdigits2 (Zpos m2) = prec ->
  bounded prec emax Mb Eb = true ->
  dyadic_le (Zpos m1 * Zpos m2) (e1 + e2) (Zpos Mb) Eb ->
  SFmul prec emax (S754_finite s1 m1 e1) (S754_finite s2 m2 e2)
    = S754_zero (xorb s1 s2) \/
  exists (m'' : positive) (e'' : Z),
    SFmul prec emax (S754_finite s1 m1 e1) (S754_finite s2 m2 e2)
      = S754_finite (xorb s1 s2) m'' e'' /\
    bounded prec emax m'' e'' = true /\
    dyadic_le (Zpos m'') e'' (Zpos Mb) Eb.
Proof.
  intros Hd Hb Hle. cbn [SFmul].
  apply binary_round_aux_le; try assumption; [ lia | ].
  rewrite Pos2Z.inj_mul.
  assert (Hdd : prec <= Zdigits2 (Zpos m1 * Zpos m2)).
  { pose proof (Zdigits2_bounds (Zpos m2) ltac:(lia)) as [Hlo _].
    pose proof (Zdigits2_bounds (Zpos m1 * Zpos m2) ltac:(lia)) as [_ Hhi].
    rewrite Hd in Hlo.
    assert (Hlt : 2 ^ (prec - 1) < 2 ^ Zdigits2 (Zpos m1 * Zpos m2)) by nia.
    apply Z.pow_lt_mono_r_iff in Hlt; try lia.
    pose proof (Zdigits2_pos (Zpos m1 * Zpos m2) ltac:(lia)). lia. }
  unfold fexp, emin. lia.
Qed.

(** *** Exact and non-zero results *)

Lemma binary_round_aux_not_zero (s sz : bool) (m e : Z) :
  0 < m -> e <= fexp prec emax (Zdigits2 m + e) ->
  emin prec emax < Zdigits2 m + e ->
  binary_round_aux prec emax s m e loc_Exact <> S754_zero sz.
Proof.
  intros Hm He Hbig.
  destruct (binary_round_aux_exact s m e Hm He) as (mr & Hmr & Hres).
  set (E := fexp prec emax (Zdigits2 m + e)) in *.
  assert (Hp : 0 < 2 ^ (E - e)) by (apply Z.pow_pos_nonneg; lia).
  destruct Hres as [[Hz _] | (m'' & e'' & _ & _ & _ & ->)].
  - exfalso.
    assert (H0 : 0 <= m / 2 ^ (E - e)) by (apply Z.div_pos; lia).
    assert (Hq : m / 2 ^ (E - e) = 0) by (destruct Hmr as [H | [H _]]; lia).
    assert (Hlt : m < 2 ^ (E - e)).
    { destruct (Z.le_gt_cases (2 ^ (E - e)) m) as [Hc|]; [ | assumption ].
      assert (1 <= m / 2 ^ (E - e)); [ | lia ].
      apply Z.div_le_lower_bound; lia. }
    pose proof (Zdigits2_bounds m Hm) as [Hlo _].
    pose proof (Zdigits2_pos m Hm) as Hd.
    assert (Zdigits2 m - 1 < E - e).
    { apply (Z.pow_lt_mono_r_iff 2); lia. }
    assert (HE : E = emin prec emax) by (apply fexp_small; fold E; lia).
    lia.
  - destruct (e'' <=? emax - prec); discriminate.
Qed.

(** A number already in the format is left as it is. *)
Lemma binary_round_aux_canonical (s : bool) (m : positive) (e : Z) :
  bounded prec emax m e = true ->
  binary_round_aux prec emax s (Zpos m) e loc_Exact = S754_finite s m e.
Proof.
  intros Hb. pose proof Hb as Hb'.
  apply andb_true_iff in Hb'. destruct Hb' as [Hc Hle].
  pose proof (canonical_fexp _ _ Hc) as Hf.
  destruct (binary_round_aux_exact s (Zpos m) e ltac:(lia) ltac:(lia))
    as (mr & Hmr & Hres).
  rewrite Hf, Z.sub_diag, Z.pow_0_r, Z.div_1_r, Z.mod_1_r in Hmr.
  rewrite Hf in Hres.
  assert (mr = Zpos m) as -> by (destruct Hmr as [H | [_ H]]; easy).
  destruct Hres as [[Hz _] | (m'' & e'' & HEe & Hval & Hcan & ->)];
    [ lia | ].
  assert (He'' : e'' = e).
  { apply Z.le_antisymm; [ | exact HEe ].
    apply (canonical_exp_le m'' m); try assumption.
    apply (dyadic_le_at e); [ lia | lia | ].
    rewrite Hval, Z.sub_diag, Z.pow_0_r. lia. }
  subst e''. rewrite Z.sub_diag, Z.pow_0_r, Z.mul_1_r in Hval.
  injection Hval as ->. now rewrite Hle.
Qed.

Lemma shl_align_snd (m : positive) (e : Z) :
  snd (shl_align m e (fexp prec emax (Zpos (digits2_pos m) + e)))
    = Z.min e (fexp prec emax (Zpos (digits2_pos m) + e)).
Proof.
  unfold shl_align.
  destruct (fexp prec emax (Zpos (digits2_pos m) + e) - e) eqn:Hd;
    cbn [snd]; lia.
Qed.

Lemma binary_round_exact (s : bool) (m : positive) (e : Z) :
  fexp prec emax (Zdigits2 (Zpos m) + e) <= e ->
  e <= emax - prec ->
  exists (m' : positive) (e' : Z),
    binary_round prec emax s m e = S754_finite s m' e' /\
    e' <= e /\ Zpos m' = Zpos m * 2 ^ (e - e') /\
    bounded prec emax m' e' = true.
Proof.
  intros Hf Hle. unfold binary_round.
  pose proof (shl_align_snd m e) as Hsnd.
  destruct (shl_align_fexp m e) as (mz & ez & Heq & Hez & Hmz & Hz).
  rewrite Heq in Hsnd |- *. cbn [snd] in Hsnd.
  change (Zpos (digits2_pos m)) with (Zdigits2 (Zpos m)) in Hsnd.
  assert (Hd : Zdigits2 (Zpos mz) + ez = Zdigits2 (Zpos m) + e).
  { rewrite Hmz, Zdigits2_mul_pow2 by lia. lia. }
  assert (Hb : bounded prec emax mz ez = true).
  { unfold bounded, canonical_mantissa.
    change (Zpos (digits2_pos mz)) with (Zdigits2 (Zpos mz)).
    rewrite Hd.
    apply andb_true_iff. split; [ apply Z.eqb_eq | apply Z.leb_le ]; lia. }
  exists mz, ez. rewrite (binary_round_aux_canonical s mz ez Hb).
  repeat split; assumption.
Qed.

(** *** Lower bounds for conversions and quotients *)

Lemma binary_round_ge (s : bool) (m : positive) (e : Z)
    (Mb : positive) (Eb : Z) :
  bounded prec emax Mb Eb = true ->
  dyadic_le (Zpos Mb) Eb (Zpos m) e ->
  binary_round prec emax s m e = S754_infinity s \/
  exists (m'' : positive) (e'' : Z),
    binary_round prec emax s m e = S754_finite s m'' e'' /\
    bounded prec emax m'' e'' = true /\
    dyadic_le (Zpos Mb) Eb (Zpos m'') e''.
Proof.
  intros Hb Hle. unfold binary_round.
  destruct (shl_align_fexp m e) as (mz & ez & -> & Hez & Hmz & Hz).
  apply binary_round_aux_ge; try lia; try assumption.
  pose proof (dyadic_le_scaled (Z.min Eb ez) (Zpos Mb) Eb (Zpos m) e
                ltac:(lia) ltac:(lia) Hle) as H.
  apply (dyadic_le_of_scaled (Z.min Eb ez)); [ lia | lia | ].
  rewrite Hmz, <- Z.mul_assoc, <- Z.pow_add_r by lia.
  replace (e - ez + (ez - Z.min Eb ez)) with (e - Z.min Eb ez) by lia.
  exact H.
Qed.

(** The quotient of a number by a smaller one is at least one. *)
Lemma SFdiv_finite_ge (s1 s2 : bool) (m1 m2 : positive) (e1 e2 : Z)
    (Mb : positive) (Eb : Z) :
  emin prec emax < 0 ->
  bounded prec emax Mb Eb = true ->
  dyadic_le (Zpos Mb) Eb 1 0 ->
  dyadic_le (Zpos m2) e2 (Zpos m1) e1 ->
  SFdiv prec emax (S754_finite s1 m1 e1) (S754_finite s2 m2 e2)
    = S754_infinity (xorb s1 s2) \/
  exists (m : positive) (e : Z),
    SFdiv prec emax (S754_finite s1 m1 e1) (S754_finite s2 m2 e2)
      = S754_finite (xorb s1 s2) m e /\
    bounded prec emax m e = true /\
    dyadic_le (Zpos Mb) Eb (Zpos m) e.
Proof.
  intros Hemin Hb HB Hle. cbn [SFdiv]. unfold SFdiv_core_binary.
  set (D := Zdigits2 (Zpos m1) + e1 - (Zdigits2 (Zpos m2) + e2)).
  set (e' := Z.min (fexp prec emax D) (e1 - e2)).
  set (sh := e1 - e2 - e').
  set (m' := match sh with
             | 0 => Zpos m1
             | Zpos _ => Z.shiftl (Zpos m1) sh
             | Zneg _ => 0
             end).
  assert (Hsh : 0 <= sh) by (unfold sh, e'; lia).
  assert (Hm' : m' = Zpos m1 * 2 ^ sh).
  { unfold m'. destruct sh as [|p|p] eqn:Esh; try lia.
    apply Z.shiftl_mul_pow2. lia. }
  clearbody m'.
  assert (HD : 0 <= D).
  { pose proof (dyadic_le_digits (Zpos m2) e2 (Zpos m1) e1
                  ltac:(lia) ltac:(lia) Hle).
    unfold D. lia. }
  assert (He'D : e' <= D - 1).
  { unfold e'. revert Hemin. unfold fexp. lia. }
  pose proof (Zdigits2_bounds (Zpos m1) ltac:(lia)) as [H1lo _].
  pose proof (Zdigits2_bounds (Zpos m2) ltac:(lia)) as [_ H2hi].
  pose proof (Zdigits2_pos (Zpos m1) ltac:(lia)) as Hd1.
  pose proof (Zdigits2_pos (Zpos m2) ltac:(lia)) as Hd2.
  assert (Hp : 0 < 2 ^ sh) by (apply Z.pow_pos_nonneg; lia).
  assert (Hqeq : fst (Z.div_eucl m' (Zpos m2)) = m' / Zpos m2) by reflexivity.
  destruct (Z.div_eucl m' (Zpos m2)) as [q r]. cbn [fst] in Hqeq.
  (* the quotient has enough digits *)
  assert (Hk : 0 <= D - 1 - e') by lia.
  assert (Hqlo : 2 ^ (D - 1 - e') <= q).
  { rewrite Hqeq. apply Z.div_le_lower_bound; [ lia | ].
    rewrite Hm'.
    assert (Hpow : 2 ^ Zdigits2 (Zpos m2) * 2 ^ (D - 1 - e')
                   = 2 ^ (Zdigits2 (Zpos m1) - 1) * 2 ^ sh).
    { rewrite <- !Z.pow_add_r by lia. f_equal. unfold D, sh. lia. }
    assert (0 < 2 ^ (D - 1 - e')) by (apply Z.pow_pos_nonneg; lia).
    nia. }
  assert (Hq : 0 < q).
  { assert (0 < 2 ^ (D - 1 - e')) by (apply Z.pow_pos_nonneg; lia). lia. }
  assert (Hdq : D - e' <= Zdigits2 q).
  { pose proof (Zdigits2_bounds q Hq) as [_ Hhi].
    pose proof (Zdigits2_pos q Hq).
    assert (Hlt : 2 ^ (D - 1 - e') < 2 ^ Zdigits2 q) by lia.
    apply Z.pow_lt_mono_r_iff in Hlt; lia. }
  apply binary_round_aux_ge; try assumption.
  - assert (fexp prec emax D <= fexp prec emax (Zdigits2 q + e'))
      by (apply fexp_mono; lia).
    unfold e' in *. lia.
  - eapply dyadic_le_trans; [ exact HB | ].
    destruct (Z.le_gt_cases e' 0) as [Hneg | Hpos'].
    + apply (dyadic_le_of_scaled e'); [ lia | lia | ].
      rewrite Z.sub_diag, Z.pow_0_r, Z.mul_1_l, Z.mul_1_r.
      rewrite Hqeq. apply Z.div_le_lower_bound; [ lia | ].
      rewrite Hm'.
      pose proof (dyadic_le_scaled (e2 + e') (Zpos m2) e2 (Zpos m1) e1
                    ltac:(lia) ltac:(unfold sh in Hsh; lia) Hle) as H.
      replace (e2 - (e2 + e')) with (0 - e') in H by lia.
      replace (e1 - (e2 + e')) with sh in H by (unfold sh; lia).
      exact H.
    + apply (dyadic_le_of_scaled 0); [ lia | lia | ].
      rewrite Z.sub_diag, Z.pow_0_r, Z.mul_1_l, Z.sub_0_r.
      assert (0 < 2 ^ e') by (apply Z.pow_pos_nonneg; lia).
      nia.
Qed.

(** *** No operation invents a NaN *)

Lemma iter_shr_1_nonneg (k : nat) (mrs : shr_record) :
  0 <= shr_m mrs -> 0 <= shr_m (Nat.iter k shr_1 mrs).
Proof.
  intros H. induction k as [|k IH]; [ exact H | ].
  rewrite Nat.iter_succ.
  destruct (shr_1_m _ IH) as [-> _]. apply Z.div_pos; lia.
Qed.

Lemma shr_nonneg (mrs : shr_record) (e n : Z) :
  0 <= shr_m mrs -> 0 <= shr_m (fst (shr mrs e n)).
Proof.
  intros H. destruct n as [|p|p]; cbn [shr fst]; try assumption.
  rewrite iter_pos_nat. now apply iter_shr_1_nonneg.
Qed.

Lemma round_nearest_even_nonneg (m : Z) (l : location) :
  0 <= m -> 0 <= round_nearest_even m l.
Proof.
  intros H. destruct l as [|[ | | ]]; cbn; try lia.
  destruct (Z.even m); lia.
Qed.

Lemma binary_round_aux_not_nan (s : bool) (m e : Z) (l : location) :
  0 <= m -> binary_round_aux prec emax s m e l <> S754_nan.
Proof.
  intros Hm. unfold binary_round_aux, shr_fexp.
  pose proof (shr_nonneg (shr_record_of_loc m l) e
                (fexp prec emax (Zdigits2 m + e) - e)) as H1.
  rewrite shr_record_of_loc_m in H1. specialize (H1 Hm).
  destruct (shr (shr_record_of_loc m l) e _) as [mrs' e'].
  cbn [fst] in H1.
  set (mr := round_nearest_even (shr_m mrs') (loc_of_shr_record mrs')).
  assert (Hmr : 0 <= mr) by (now apply round_nearest_even_nonneg).
  pose proof (shr_nonneg (shr_record_of_loc mr loc_Exact) e'
                (fexp prec emax (Zdigits2 mr + e') - e')) as H2.
  rewrite shr_record_of_loc_m in H2. specialize (H2 Hmr).
  destruct (shr (shr_record_of_loc mr loc_Exact) e' _) as [mrs'' e''].
  cbn [fst] in H2.
  destruct (shr_m mrs'') as [|p|p]; try lia; try discriminate.
  destruct (e'' <=? emax - prec); discriminate.
Qed.

Lemma binary_round_not_nan (s : bool) (m : positive) (e : Z) :
  binary_round prec emax s m e <> S754_nan.
Proof.
  unfold binary_round. destruct (shl_align m e _) as [mz ez].
  apply binary_round_aux_not_nan. lia.
Qed.

Lemma binary_normalize_not_nan (m e : Z) (szero : bool) :
  binary_normalize prec emax m e szero <> S754_nan.
Proof.
  destruct m; cbn [binary_normalize];
    [ discriminate | apply binary_round_not_nan | apply binary_round_not_nan ].
Qed.

Lemma SFdiv_core_binary_nonneg (m1 m2 : positive) (e1 e2 : Z) :
  0 <= fst (fst (SFdiv_core_binary prec emax (Zpos m1) e1 (Zpos m2) e2)).
Proof.
  unfold SFdiv_core_binary.
  set (s := _ - _ - _).
  set (m' := match s with Z0 => _ | Zpos _ => _ | Zneg _ => _ end).
  assert (Hm' : 0 <= m').
  { unfold m'. destruct s; try lia. apply Z.shiftl_nonneg. lia. }
  pose proof (Z_div_mod m' (Zpos m2) ltac:(lia)) as H.
  destruct (Z.div_eucl m' (Zpos m2)) as [q r]. cbn [fst].
  destruct H as [H1 H2]. nia.
Qed.

Lemma SFdiv_not_nan (x y : spec_float) :
  x <> S754_nan ->
  (exists s m e, y = S754_finite s m e) ->
  SFdiv prec emax x y <> S754_nan.
Proof.
  intros Hx (sy & my & ey & ->).
  destruct x as [sx|sx| |sx mx ex]; cbn [SFdiv]; try discriminate;
    [ congruence | ].
  pose proof (SFdiv_core_binary_nonneg mx my ex ey) as H.
  destruct (SFdiv_core_binary prec emax (Zpos mx) ex (Zpos my) ey)
    as [[mz ez] lz].
  cbn [fst] in H. now apply binary_round_aux_not_nan.
Qed.

Lemma SFmul_not_nan (x : spec_float) (s : bool) (m : positive) (e : Z) :
  x <> S754_nan ->
  SFmul prec emax x (S754_finite s m e) <> S754_nan.
Proof.
  intros Hx.
  destruct x as [sx|sx| |sx mx ex]; cbn [SFmul]; try discriminate;
    [ congruence | ].
  apply binary_round_aux_not_nan. lia.
Qed.

Lemma SFadd_not_nan (x y : spec_float) :
  x <> S754_nan -> y <> S754_nan ->
  (forall s, y <> S754_infinity s) ->
  SFadd prec emax x y <> S754_nan.
Proof.
  intros Hx Hy Hinf.
  destruct x as [sx|sx| |sx mx ex], y as [sy|sy| |sy my ey];
    try congruence;
    try (exfalso; apply (Hinf sy); reflexivity);
    cbn [SFadd]; try discriminate.
  - destruct sx, sy; discriminate.
  - apply binary_normalize_not_nan.
Qed.
End Rounding.


(** ** Comparison of floating-point numbers *)

Lemma SFcompare_antisym (x y : spec_float) :
  SFcompare y x = option_map CompOpp (SFcompare x y).
Proof.
  destruct x as [sx|sx| |sx mx ex], y as [sy|sy| |sy my ey]; simpl;
    try destruct sx; try destruct sy; try reflexivity;
    rewrite (Z.compare_antisym ex ey); destruct (ex ?= ey); simpl;
    try reflexivity; f_equal.
  all: rewrite ?CompOpp_involutive;
    first [ exact (Pos.compare_cont_antisym my mx Eq)
          | symmetry; exact (Pos.compare_cont_antisym mx my Eq) ].
Qed.

Lemma SFltb_not_leb (x y : spec_float) :
  SFltb x y = true -> SFleb y x = false.
Proof.
  unfold SFltb, SFleb. rewrite (SFcompare_antisym x y).
  destruct (SFcompare x y) as [[ | | ]|]; simpl; congruence.
Qed.

Lemma SFleb_not_ltb (x y : spec_float) :
  SFleb x y = true -> SFltb y x = false.
Proof.
  unfold SFltb, SFleb. rewrite (SFcompare_antisym x y).
  destruct (SFcompare x y) as [[ | | ]|]; simpl; congruence.
Qed.

Lemma SFeqb_not_ltb (x y : spec_float) :
  SFeqb x y = true -> SFltb x y = false /\ SFltb y x = false.
Proof.
  unfold SFltb, SFeqb. rewrite (SFcompare_antisym x y).
  destruct (SFcompare x y) as [[ | | ]|]; simpl; intuition congruence.
Qed.

Lemma SFleb_trans_zero_one (x : spec_float) :
  SFleb f32_1 x = true -> SFleb x F32.zero = false.
Proof.
  destruct x as [s|s| |s m e]; try destruct s; simpl; try discriminate;
    reflexivity.
Qed.

Lemma SFcompare_pos (m1 m2 : positive) (e1 e2 : Z) :
  SFcompare (S754_finite false m1 e1) (S754_finite false m2 e2)
    = Some (mag_compare m1 e1 m2 e2).
Proof. reflexivity. Qed.

Lemma SFcompare_neg (m1 m2 : positive) (e1 e2 : Z) :
  SFcompare (S754_finite true m1 e1) (S754_finite true m2 e2)
    = Some (CompOpp (mag_compare m1 e1 m2 e2)).
Proof.
  cbn [SFcompare]. unfold mag_compare. now destruct (e1 ?= e2).
Qed.

Lemma mag_compare_antisym (m1 m2 : positive) (e1 e2 : Z) :
  mag_compare m2 e2 m1 e1 = CompOpp (mag_compare m1 e1 m2 e2).
Proof.
  pose proof (SFcompare_antisym (S754_finite false m1 e1)
                (S754_finite false m2 e2)) as H.
  rewrite !SFcompare_pos in H. cbn [option_map] in H. congruence.
Qed.

Lemma F32_prec_pos : 0 < F32.prec.
Proof. reflexivity. Qed.

Lemma F64_prec_pos : 0 < F64.prec.
Proof. reflexivity. Qed.

Lemma fabsf_signbit (x : F32.t) : signbit (fabsf x) = false.
Proof. now destruct x. Qed.

Lemma fabsf_nonneg (x : F32.t) :
  F32.is_nan x = false -> F32.leb F32.zero (fabsf x) = true.
Proof. destruct x; simpl; try reflexivity; discriminate. Qed.

(** ** The register write of the Driver *)

Lemma drv_write_frame (addr7 message : Z) :
  drv_write addr7 message =
  [ BeginTransaction 10000; ScsWrite HIGH; DelayMicroseconds 1;
    Transfer (addr7 mod 128);
    Transfer ((message mod 65536) / 256);
    Transfer (message mod 256);
    DelayMicroseconds 1; ScsWrite LOW; EndTransaction; DelayMicroseconds 5 ].
Proof.
  unfold drv_write, scs_begin, scs_end, uint8, uint16, wrap, HIGH, LOW.
  change (2 ^ 8) with 256. change (2 ^ 16) with 65536.
  rewrite Z.shiftl_0_l, Z.lor_0_l.
  change 127 with (Z.ones 7). change 255 with (Z.ones 8).
  rewrite !Z.land_ones by lia. rewrite Z.shiftr_div_pow2 by lia.
  change (2 ^ 7) with 128. change (2 ^ 8) with 256.
  assert (Ha : ((addr7 mod 256) mod 128) mod 256 = addr7 mod 128).
  { rewrite (Z.mod_mod_divide addr7 256 128) by (exists 2; reflexivity).
    apply Z.mod_small.
    pose proof (Z.mod_pos_bound addr7 128); lia. }
  assert (Hh : ((message mod 65536) / 256) mod 256 = (message mod 65536) / 256).
  { apply Z.mod_small.
    pose proof (Z.mod_pos_bound message 65536).
    split; [ apply Z.div_pos; lia | apply Z.div_lt_upper_bound; lia ]. }
  assert (Hl : ((message mod 65536) mod 256) mod 256 = message mod 256).
  { rewrite Z.mod_mod by lia.
    apply Z.mod_mod_divide. exists 256; reflexivity. }
  now rewrite Ha, Hh, Hl.
Qed.

(** C8: [drv_write(0x03, 0xFC2)] puts exactly the bytes 0x03, 0x0F, 0xC2 on
    the bus, all of them while chip select is asserted, after a 1 us setup
    delay, followed by a 1 us hold delay, the release of chip select and a
    5 us recovery delay; and for every address and value the header byte
    has its most-significant bit clear and the 7-bit address below it, and
    is followed by the high and then the low byte of the value. *)
Theorem drv_write_framing :
  drv_write 3 4034 =
    [ BeginTransaction 10000; ScsWrite HIGH; DelayMicroseconds 1;
      Transfer 3; Transfer 15; Transfer 194;
      DelayMicroseconds 1; ScsWrite LOW; EndTransaction;
      DelayMicroseconds 5 ] /\
  transferred_selected LOW (drv_write 3 4034) = [3; 15; 194] /\
  forall addr7 message : Z,
    exists header msb lsb : Z,
      transferred (drv_write addr7 message) = [header; msb; lsb] /\
      transferred_selected LOW (drv_write addr7 message) = [header; msb; lsb] /\
      Z.testbit header 7 = false /\
      header = Z.land addr7 127 /\
      0 <= msb < 256 /\ 0 <= lsb < 256 /\
      256 * msb + lsb = uint16 message.
Proof.
  split; [ reflexivity | split; [ reflexivity | ] ].
  intros addr7 message. rewrite drv_write_frame.
  exists (addr7 mod 128), ((message mod 65536) / 256), (message mod 256).
  cbn [transferred transferred_selected HIGH LOW].
  pose proof (Z.mod_pos_bound addr7 128 ltac:(lia)) as Ha.
  pose proof (Z.mod_pos_bound message 65536 ltac:(lia)) as Hm.
  pose proof (Z.mod_pos_bound message 256 ltac:(lia)) as Hl.
  repeat split; try lia.
  - apply Z.bits_above_log2; [ lia | ].
    destruct (Z.eq_dec (addr7 mod 128) 0) as [-> | Hz]; [ simpl; lia | ].
    apply Z.log2_lt_pow2; [ lia | ]. change (2 ^ 7) with 128. lia.
  - change 127 with (Z.ones 7). now rewrite Z.land_ones by lia.
  - apply Z.div_pos; lia.
  - apply Z.div_lt_upper_bound; lia.
  - unfold uint16, wrap. change (2 ^ 16) with 65536.
    rewrite (Z.div_mod (message mod 65536) 256) at 2 by lia.
    f_equal. symmetry.
    apply Z.mod_mod_divide. exists 256; reflexivity.
Qed.

(** ** The speed estimator *)

(** C1, as stated, fails: with the direction pin LOW and 6000 us between
    two edges the published speed is 2500 RPM, which is not between 166 and
    167 RPM (166.67 is the electrical frequency in Hz). *)
Lemma readActual_6000us_not_166_67 :
  let v := share_value (snd (task_readActual_iter 0 6000 LOW share0)) in
  v = f32_2500 /\
  F32.leb (F32.of_Z 166) v && F32.leb v (F32.of_Z 167) = false.
Proof. vm_compute. split; reflexivity. Qed.

(** C1, amended: with 6000 us between two edges the electrical frequency
    is 166.67 Hz (between 166.66 and 166.67) and the published speed is
    exactly +2500 RPM when the direction pin reads LOW and exactly
    -2500 RPM when it reads HIGH. *)
Theorem readActual_6000us_speed (last_time current_time : Z) (s : Share) :
  uint32_sub current_time last_time = 6000 ->
  let dt_us := uint32_sub current_time last_time in
  F32.leb (F32.of_ratio 16666 100) (readActual_frequency dt_us) = true /\
  F32.leb (readActual_frequency dt_us) (F32.of_ratio 16667 100) = true /\
  share_value (snd (task_readActual_iter last_time current_time LOW s))
    = f32_2500 /\
  share_value (snd (task_readActual_iter last_time current_time HIGH s))
    = F32.opp f32_2500.
Proof.
  intros H. unfold task_readActual_iter. rewrite H.
  repeat split; vm_compute; reflexivity.
Qed.

Lemma readActual_6000us_speed_witness :
  F32.leb (F32.of_ratio 16666 100) (readActual_frequency 6000) = true /\
  F32.leb (readActual_frequency 6000) (F32.of_ratio 16667 100) = true /\
  share_value (snd (task_readActual_iter 1000000 1006000 LOW share0))
    = f32_2500 /\
  share_value (snd (task_readActual_iter 1000000 1006000 HIGH share0))
    = F32.opp f32_2500.
Proof.
  apply (readActual_6000us_speed 1000000 1006000 share0). reflexivity.
Defined.

(** C5: when the interval between two edge timestamps is 0 the share is not
    written: it keeps its value and its number of writes, and the timestamp
    is remembered. *)
Theorem readActual_zero_interval (last_time current_time : Z)
    (direction : bool) (s : Share) :
  uint32_sub current_time last_time = 0 ->
  task_readActual_iter last_time current_time direction s = (current_time, s).
Proof.
  intros H. unfold task_readActual_iter. now rewrite H.
Qed.

Lemma readActual_zero_interval_witness :
  uint32_sub 123456 123456 = 0 /\
  task_readActual_iter 123456 123456 HIGH (Share_put f32_2500 share0)
    = (123456, Share_put f32_2500 share0).
Proof.
  split; [ reflexivity | ].
  apply (readActual_zero_interval 123456 123456 HIGH). reflexivity.
Defined.

(** ** The integration step of the Controller *)

Lemma forall_below_spec (k : nat) (P : Z -> bool) :
  forall_below k P = true ->
  forall n, 0 <= n < Z.of_nat k -> P n = true.
Proof.
  induction k as [|k IH]; intros H n Hn; [ lia | ].
  cbn [forall_below] in H. apply andb_true_iff in H. destruct H as [H1 H2].
  destruct (Z.eq_dec n (Z.of_nat k)) as [-> | Hne]; [ exact H1 | ].
  apply IH; [ exact H2 | lia ].
Qed.

(** A thousand milliseconds or more are at least one second. *)
Lemma elapsed_ge_1000 (n : Z) :
  1000 <= n -> F32.leb f32_1 (F32.div (F32.of_Z n) f32_1000) = true.
Proof.
  intros Hn. destruct n as [|p|p]; try lia.
  unfold F32.of_Z. cbn [binary_normalize].
  change f32_1000 with (S754_finite false 16384000 (-14)).
  change f32_1 with (S754_finite false 8388608 (-23)).
  destruct (binary_round_ge F32.prec F32.emax F32_prec_pos false p 0
              16384000 (-14) ltac:(reflexivity))
    as [-> | (m & e & -> & Hb & Hle)].
  { apply (dyadic_le_of_scaled (-14)); [ lia | lia | ].
    rewrite Z.sub_diag, Z.pow_0_r. change (2 ^ (0 - -14)) with 16384. lia. }
  - reflexivity.
  - unfold F32.div.
    destruct (SFdiv_finite_ge F32.prec F32.emax F32_prec_pos false false
                m 16384000 e (-14) 8388608 (-23)
                ltac:(reflexivity) ltac:(reflexivity))
      as [-> | (m' & e' & -> & Hb' & Hle')].
    { now apply dyadic_leb_spec. }
    { exact Hle. }
    + reflexivity.
    + apply andb_true_iff in Hb'. destruct Hb' as [Hc' _].
      apply (mag_compare_le F32.prec F32.emax F32_prec_pos) in Hle';
        [ | reflexivity | exact Hc' ].
      unfold F32.leb, SFleb. cbn [xorb]. rewrite SFcompare_pos.
      destruct (mag_compare 8388608 (-23) m' e'); congruence.
Qed.

(** Less than a thousand milliseconds are, as a [float], strictly between
    zero and one second. *)
Lemma elapsed_lt_1000 (n : Z) :
  0 < n < 1000 ->
  F32.leb (F32.div (F32.of_Z n) f32_1000) F32.zero = false /\
  F32.leb f32_1 (F32.div (F32.of_Z n) f32_1000) = false.
Proof.
  intros Hn.
  assert (H : forall_below 1000
                (fun k => (k =? 0)
                          || (negb (F32.leb (F32.div (F32.of_Z k) f32_1000)
                                      F32.zero)
                              && negb (F32.leb f32_1
                                         (F32.div (F32.of_Z k) f32_1000))))
              = true) by (vm_compute; reflexivity).
  assert (Hn' : 0 <= n < Z.of_nat 1000)
    by (change (Z.of_nat 1000) with 1000; lia).
  pose proof (forall_below_spec 1000 _ H n Hn') as Hk.
  cbv beta in Hk.
  apply orb_true_iff in Hk. destruct Hk as [Hk | Hk];
    [ apply Z.eqb_eq in Hk; lia | ].
  apply andb_true_iff in Hk. destruct Hk as [H1 H2].
  rewrite negb_true_iff in H1, H2. split; assumption.
Qed.

(** C2: the integration step of [calculate_omega] is the elapsed time
    [dt_s] clamped: 0.001 s when [dt_s <= 0], 1 s when [dt_s >= 1], and
    [dt_s] itself when [0 < dt_s < 1].  On the millisecond counter, whose
    difference is taken on 32-bit unsigned integers: 0.001 s when no
    millisecond has elapsed, 1 s when a thousand or more have, and the
    elapsed milliseconds divided by 1000 otherwise.  And this is the step
    the function integrates with: for every measured speed and every
    torque command, the object it leaves and the RPM it returns are those
    of the forward Euler step [torque / J * step] added to the measured
    speed, clamped and converted, with [step] 0.001 s, 1 s or [dt_s] in
    the three cases. *)
Theorem integration_step_clamped (c : Controller) (now_ms : Z) :
  let dt_s := elapsed_s now_ms (last_update_ms c) in
  let elapsed_ms := uint32_sub now_ms (last_update_ms c) in
  let integrated_over (step speed_actual torque_cmd_ : F32.t) :=
    let torque_add := F32.mul (F32.div torque_cmd_ (J c)) step in
    let omega :=
      clamp_omega
        (F32.of_double
           (F64.add (F64.of_float torque_add) (to_rad_s speed_actual))) in
    ({| J := J c; last_update_ms := now_ms; omega_rad_s := omega |},
     to_rpm omega) in
  (F32.leb dt_s F32.zero = true -> integration_step c now_ms = f32_0_001) /\
  (F32.leb f32_1 dt_s = true -> integration_step c now_ms = f32_1) /\
  (F32.ltb F32.zero dt_s = true -> F32.ltb dt_s f32_1 = true ->
   integration_step c now_ms = dt_s) /\
  (elapsed_ms = 0 -> integration_step c now_ms = f32_0_001) /\
  (1000 <= elapsed_ms -> integration_step c now_ms = f32_1) /\
  (0 < elapsed_ms < 1000 -> integration_step c now_ms = dt_s) /\
  (forall speed_actual torque_cmd_ : F32.t,
     let result := calculate_omega c now_ms speed_actual torque_cmd_ in
     (F32.leb dt_s F32.zero = true ->
      result = integrated_over f32_0_001 speed_actual torque_cmd_) /\
     (F32.leb f32_1 dt_s = true ->
      result = integrated_over f32_1 speed_actual torque_cmd_) /\
     (F32.ltb F32.zero dt_s = true -> F32.ltb dt_s f32_1 = true ->
      result = integrated_over dt_s speed_actual torque_cmd_) /\
     (elapsed_ms = 0 ->
      result = integrated_over f32_0_001 speed_actual torque_cmd_) /\
     (1000 <= elapsed_ms ->
      result = integrated_over f32_1 speed_actual torque_cmd_) /\
     (0 < elapsed_ms < 1000 ->
      result = integrated_over dt_s speed_actual torque_cmd_)).
Proof.
  intros dt_s elapsed_ms integrated_over.
  assert (Hsteps :
    (F32.leb dt_s F32.zero = true -> integration_step c now_ms = f32_0_001) /\
    (F32.leb f32_1 dt_s = true -> integration_step c now_ms = f32_1) /\
    (F32.ltb F32.zero dt_s = true -> F32.ltb dt_s f32_1 = true ->
     integration_step c now_ms = dt_s) /\
    (elapsed_ms = 0 -> integration_step c now_ms = f32_0_001) /\
    (1000 <= elapsed_ms -> integration_step c now_ms = f32_1) /\
    (0 < elapsed_ms < 1000 -> integration_step c now_ms = dt_s));
    [ | destruct Hsteps as (S1 & S2 & S3 & S4 & S5 & S6);
        repeat (split; [ assumption | ]);
        intros speed_actual torque_cmd_ result;
        assert (Hwith : forall step : F32.t,
                  integration_step c now_ms = step ->
                  result = integrated_over step speed_actual torque_cmd_)
          by (intros step Hstep; unfold result, calculate_omega,
                integrated_over; now rewrite Hstep);
        repeat split; intros; apply Hwith; auto ].
  unfold integration_step. fold dt_s.
  assert (Hle0 : F32.leb dt_s F32.zero = true -> clamp_dt dt_s = f32_0_001).
  { unfold clamp_dt. intros H. now rewrite H. }
  assert (Hge1 : F32.leb f32_1 dt_s = true -> clamp_dt dt_s = f32_1).
  { unfold clamp_dt, F32.leb. intros H.
    rewrite (SFleb_trans_zero_one _ H). now rewrite H. }
  assert (Hmid : F32.leb dt_s F32.zero = false ->
                 F32.leb f32_1 dt_s = false -> clamp_dt dt_s = dt_s).
  { unfold clamp_dt. intros H0 H1. now rewrite H0, H1. }
  split; [ exact Hle0 | ]. split; [ exact Hge1 | ].
  split; [ | split; [ | split ] ].
  - intros H0 H1. apply Hmid; apply SFltb_not_leb; assumption.
  - intros Hz. apply Hle0. unfold dt_s, elapsed_s. fold elapsed_ms.
    now rewrite Hz.
  - intros Hz. apply Hge1. unfold dt_s, elapsed_s. fold elapsed_ms.
    now apply elapsed_ge_1000.
  - intros Hz. unfold dt_s, elapsed_s. fold elapsed_ms.
    destruct (elapsed_lt_1000 elapsed_ms Hz) as [H0 H1].
    now apply Hmid.
Qed.

Lemma integration_step_clamped_witness :
  integration_step Controller_new 0 = f32_0_001 /\
  integration_step Controller_new 5000 = f32_1 /\
  integration_step Controller_new 250 = elapsed_s 250 0 /\
  integration_step {| J := J_flywheel; last_update_ms := 4294967290;
                      omega_rad_s := F32.zero |} 4 = elapsed_s 10 0 /\
  snd (calculate_omega Controller_new 0 F32.zero J_flywheel)
    = to_rpm f32_0_001 /\
  snd (calculate_omega Controller_new 5000 F32.zero J_flywheel)
    = to_rpm f32_1 /\
  snd (calculate_omega Controller_new 250 F32.zero J_flywheel)
    = to_rpm (elapsed_s 250 0).
Proof.
  destruct (integration_step_clamped Controller_new 0)
    as (H0 & _ & _ & _ & _ & _ & F0).
  destruct (integration_step_clamped Controller_new 5000)
    as (_ & _ & _ & _ & H1 & _ & F1).
  destruct (integration_step_clamped Controller_new 250)
    as (_ & _ & H2 & _ & _ & _ & F2).
  destruct (integration_step_clamped
              {| J := J_flywheel; last_update_ms := 4294967290;
                 omega_rad_s := F32.zero |} 4)
    as (_ & _ & _ & _ & _ & H3 & _).
  destruct (F0 F32.zero J_flywheel) as (_ & _ & _ & F0' & _ & _).
  destruct (F1 F32.zero J_flywheel) as (_ & _ & _ & _ & F1' & _).
  destruct (F2 F32.zero J_flywheel) as (_ & _ & F2' & _ & _ & _).
  split; [ apply H0; reflexivity | ].
  split; [ apply H1; vm_compute; discriminate | ].
  split; [ apply H2; reflexivity | ].
  split; [ apply H3; vm_compute; split; reflexivity | ].
  split; [ rewrite F0' by reflexivity; vm_compute; reflexivity | ].
  split; [ rewrite F1' by (vm_compute; discriminate); vm_compute;
           reflexivity | ].
  rewrite F2' by reflexivity. vm_compute. reflexivity.
Defined.

(** ** The torque integrator *)

Lemma elapsed_s_not_nan (now_ms last : Z) : elapsed_s now_ms last <> S754_nan.
Proof.
  unfold elapsed_s, F32.div. apply SFdiv_not_nan.
  - apply binary_normalize_not_nan.
  - exists false, 16384000%positive, (-14). reflexivity.
Qed.

(** The integration step is a positive finite number. *)
Lemma integration_step_finite (c : Controller) (now_ms : Z) :
  exists (m : positive) (e : Z),
    integration_step c now_ms = S754_finite false m e.
Proof.
  unfold integration_step, clamp_dt.
  pose proof (elapsed_s_not_nan now_ms (last_update_ms c)) as Hn.
  destruct (elapsed_s now_ms (last_update_ms c)) as [s|s| |s m e];
    try congruence.
  - destruct s; cbn; eexists; eexists; reflexivity.
  - destruct s; cbn; eexists; eexists; reflexivity.
  - destruct s.
    + cbn. eexists; eexists; reflexivity.
    + change (F32.leb (S754_finite false m e) F32.zero) with false. cbv iota.
      destruct (F32.leb f32_1 (S754_finite false m e));
        eexists; eexists; reflexivity.
Qed.

Lemma clamp_omega_within (x : F32.t) :
  x <> S754_nan -> F32.valid x = true ->
  f32_within 8578642 (-15) (clamp_omega x).
Proof.
  intros Hn Hv. unfold clamp_omega.
  change omega_max_rad_s with (S754_finite false 8578642 (-15)).
  assert (Hself : f32_within 8578642 (-15) (S754_finite false 8578642 (-15))).
  { right. exists false, 8578642%positive, (-15).
    repeat split. now apply dyadic_leb_spec. }
  assert (Hself' : f32_within 8578642 (-15) (S754_finite true 8578642 (-15))).
  { right. exists true, 8578642%positive, (-15).
    repeat split. now apply dyadic_leb_spec. }
  destruct x as [s|s| |s m e]; try congruence.
  - left. exists s. now destruct s.
  - destruct s; cbn; assumption.
  - cbn [F32.valid valid_binary] in Hv.
    pose proof Hv as Hb. apply andb_true_iff in Hb. destruct Hb as [Hc _].
    assert (Hc0 : canonical_mantissa F32.prec F32.emax 8578642 (-15) = true)
      by reflexivity.
    destruct s.
    + change (F32.ltb (S754_finite false 8578642 (-15))
                      (S754_finite true m e)) with false. cbv iota.
      destruct (F32.ltb (S754_finite true m e) _) eqn:Hlt;
        [ exact Hself' | ].
      unfold F32.ltb, SFltb, F32.opp in Hlt. cbn [SFopp negb] in Hlt.
      rewrite SFcompare_neg in Hlt.
      right. exists true, m, e. repeat split; try assumption.
      apply (mag_compare_le F32.prec F32.emax); try assumption;
        try reflexivity.
      destruct (mag_compare m e 8578642 (-15)); cbn in Hlt; congruence.
    + destruct (F32.ltb _ (S754_finite false m e)) eqn:Hlt.
      * exact Hself.
      * change (F32.ltb (S754_finite false m e)
                  (F32.opp (S754_finite false 8578642 (-15)))) with false.
        cbv iota.
        unfold F32.ltb, SFltb in Hlt.
        rewrite SFcompare_pos, mag_compare_antisym in Hlt.
        right. exists false, m, e. repeat split; try assumption.
        apply (mag_compare_le F32.prec F32.emax); try assumption;
          try reflexivity.
        destruct (mag_compare m e 8578642 (-15)); cbn in Hlt; congruence.
Qed.

(** The largest finite binary32 number bounds every valid one. *)
Lemma f32_bounded_le_max (m : positive) (e : Z) :
  bounded F32.prec F32.emax m e = true ->
  dyadic_le (Zpos m) e 16777215 104.
Proof.
  intros Hb. apply andb_true_iff in Hb. destruct Hb as [Hc He].
  apply Z.leb_le in He. change (F32.emax - F32.prec) with 104 in He.
  pose proof (canonical_digits_le F32.prec F32.emax m e Hc) as Hd.
  pose proof (Zdigits2_bounds (Zpos m) ltac:(lia)) as [_ Hm].
  assert (Hp : 2 ^ Zdigits2 (Zpos m) <= 2 ^ 24)
    by (apply Z.pow_le_mono_r; [ lia | exact Hd ]).
  change (2 ^ 24) with 16777216 in Hp.
  apply (dyadic_le_at e); [ lia | lia | ].
  rewrite Z.sub_diag, Z.pow_0_r.
  pose proof (Z.pow_pos_nonneg 2 (104 - e) ltac:(lia) ltac:(lia)).
  nia.
Qed.

Lemma to_rad_s_finite (speed : F32.t) :
  F32.is_finite speed = true -> F32.valid speed = true ->
  F32.is_finite (to_rad_s speed) = true.
Proof.
  intros Hf Hv. unfold to_rad_s.
  change rad_per_rpm with (S754_finite false 7545853602163669 (-56)).
  destruct speed as [s|s| |s m e]; try discriminate.
  - reflexivity.
  - cbn [F32.valid valid_binary] in Hv.
    pose proof (f32_bounded_le_max m e Hv) as Hle.
    cbn [F64.of_float].
    destruct (binary_round_le F64.prec F64.emax F64_prec_pos s m e 9007198717870080 75
                ltac:(reflexivity)) as [Hz | (m1 & e1 & Hr & Hb1 & Hle1)].
    { eapply dyadic_le_trans; [ exact Hle | ].
      now apply dyadic_leb_spec. }
    + rewrite Hz. reflexivity.
    + rewrite Hr.
      destruct (SFmul_finite_le F64.prec F64.emax F64_prec_pos s false m1 7545853602163669 e1 (-56)
                  9007198717870080 75 ltac:(reflexivity) ltac:(reflexivity))
        as [Hz | (m2 & e2 & Hr2 & _)].
      { eapply dyadic_le_trans.
        - apply (dyadic_le_mul 7545853602163669 (-56)); [ lia | exact Hle1 ].
        - now apply dyadic_leb_spec. }
      * unfold F64.mul. rewrite Hz. reflexivity.
      * unfold F64.mul. rewrite Hr2. reflexivity.
Qed.

(** Converting a clamped angular velocity back to RPM stays within
    2500 RPM. *)
Lemma to_rpm_within (y : F32.t) :
  f32_within 8578642 (-15) y -> f32_within 10240000 (-12) (to_rpm y).
Proof.
  unfold to_rpm.
  change rpm_per_rad with (S754_finite false 5375776068021243 (-49)).
  intros [[s ->] | (s & m & e & -> & Hb & Hle)].
  - left. exists s. now destruct s.
  - cbn [F64.of_float].
    destruct (binary_round_le F64.prec F64.emax F64_prec_pos s m e
                4605623354261504 (-44) ltac:(reflexivity))
      as [Hz | (m1 & e1 & Hr & Hb1 & Hle1)].
    { eapply dyadic_le_trans; [ exact Hle | ].
      now apply dyadic_leb_spec. }
    + rewrite Hz. left. exists s. now destruct s.
    + rewrite Hr. unfold F64.mul.
      destruct (SFmul_finite_le F64.prec F64.emax F64_prec_pos s false
                  m1 5375776068021243 e1 (-49)
                  5497558138880000 (-41) ltac:(reflexivity)
                  ltac:(reflexivity))
        as [Hz | (m2 & e2 & Hr2 & Hb2 & Hle2)].
      { eapply dyadic_le_trans.
        - apply (dyadic_le_mul 5375776068021243 (-49)); [ lia | exact Hle1 ].
        - now apply dyadic_leb_spec. }
      * rewrite Hz. left. exists (xorb s false). reflexivity.
      * rewrite Hr2. cbn [F32.of_double].
        destruct (binary_round_le F32.prec F32.emax F32_prec_pos
                    (xorb s false) m2 e2 10240000 (-12) ltac:(reflexivity))
          as [Hz | (m3 & e3 & Hr3 & Hb3 & Hle3)].
        { eapply dyadic_le_trans; [ exact Hle2 | ].
          now apply dyadic_leb_spec. }
        -- rewrite Hz. left. eexists. reflexivity.
        -- rewrite Hr3. right. exists (xorb s false), m3, e3.
           repeat split; assumption.
Qed.

Lemma f32_within_2500 (r : F32.t) :
  f32_within 10240000 (-12) r ->
  F32.leb (F32.opp f32_2500) r = true /\ F32.leb r f32_2500 = true.
Proof.
  change f32_2500 with (S754_finite false 10240000 (-12)).
  intros [[s ->] | (s & m & e & -> & Hb & Hle)].
  - split; reflexivity.
  - apply andb_true_iff in Hb. destruct Hb as [Hc _].
    apply (mag_compare_le F32.prec F32.emax F32_prec_pos) in Hle;
      [ | exact Hc | reflexivity ].
    unfold F32.leb, SFleb, F32.opp. cbn [SFopp negb].
    destruct s.
    + split; [ | reflexivity ].
      rewrite SFcompare_neg, mag_compare_antisym, CompOpp_involutive.
      destruct (mag_compare m e 10240000 (-12)); congruence.
    + split; [ reflexivity | ].
      rewrite SFcompare_pos.
      destruct (mag_compare m e 10240000 (-12)); congruence.
Qed.

Lemma of_float_not_nan (x : F32.t) : x <> S754_nan -> F64.of_float x <> S754_nan.
Proof.
  destruct x; cbn [F64.of_float]; try congruence. intros _.
  apply binary_round_not_nan.
Qed.

Lemma of_double_not_nan (x : F64.t) : x <> S754_nan -> F32.of_double x <> S754_nan.
Proof.
  destruct x; cbn [F32.of_double]; try congruence. intros _.
  apply binary_round_not_nan.
Qed.

Lemma of_double_valid (x : F64.t) : F32.valid (F32.of_double x) = true.
Proof.
  destruct x; cbn [F32.of_double]; try reflexivity.
  apply binary_round_valid. exact F32_prec_pos.
Qed.

(** The angular velocity before the clamp is a number whenever the torque
    is one and the measured speed is finite. *)
Lemma omega_not_nan (c : Controller) (now_ms : Z)
    (speed_actual torque_cmd_ : F32.t) :
  J c = J_flywheel ->
  F32.is_nan torque_cmd_ = false ->
  F32.is_finite speed_actual = true -> F32.valid speed_actual = true ->
  F32.of_double
    (F64.add
       (F64.of_float
          (F32.mul (F32.div torque_cmd_ (J c)) (integration_step c now_ms)))
       (to_rad_s speed_actual)) <> S754_nan.
Proof.
  intros HJ Ht Hf Hv.
  destruct (integration_step_finite c now_ms) as (md & ed & ->).
  pose proof (to_rad_s_finite speed_actual Hf Hv) as Hb.
  apply of_double_not_nan. unfold F64.add. apply SFadd_not_nan.
  - apply of_float_not_nan. unfold F32.mul. apply SFmul_not_nan.
    unfold F32.div. apply SFdiv_not_nan.
    + destruct torque_cmd_; try discriminate; congruence.
    + rewrite HJ. exists false, 14705968%positive, (-33). reflexivity.
  - destruct (to_rad_s speed_actual); try discriminate; congruence.
  - intros s. destruct (to_rad_s speed_actual); try discriminate; congruence.
Qed.

Lemma F32_ltb_nan_l (x : F32.t) : F32.ltb S754_nan x = false.
Proof. reflexivity. Qed.

Lemma F32_ltb_nan_r (x : F32.t) : F32.ltb x S754_nan = false.
Proof. now destruct x. Qed.

(** The returned value never exceeds the envelope, whatever the inputs. *)
Lemma to_rpm_clamp_never_exceeds (x : F32.t) :
  F32.valid x = true ->
  F32.ltb f32_2500 (to_rpm (clamp_omega x)) = false /\
  F32.ltb (to_rpm (clamp_omega x)) (F32.opp f32_2500) = false.
Proof.
  intros Hv.
  destruct (F32.is_nan x) eqn:Hn.
  - destruct x; try discriminate. split; reflexivity.
  - assert (Hx : x <> S754_nan) by (destruct x; try discriminate; congruence).
    destruct (f32_within_2500 _
                (to_rpm_within _ (clamp_omega_within x Hx Hv))) as [Hlo Hhi].
    split; apply SFleb_not_ltb; assumption.
Qed.

(** C3, as stated, fails: the torque command is a [float], and for a NaN
    torque command neither comparison of the clamp holds, so the NaN goes
    through: the value returned is a NaN, which lies in no interval. *)
Lemma calculate_omega_nan_torque_not_within :
  let omega_rpm :=
    snd (calculate_omega Controller_new 1000 F32.zero S754_nan) in
  omega_rpm = S754_nan /\
  F32.leb (F32.opp f32_2500) omega_rpm = false /\
  F32.leb omega_rpm f32_2500 = false.
Proof. vm_compute. repeat split; reflexivity. Qed.

(** C3, amended: whenever the torque command is a number (not a NaN; an
    infinity is allowed) and the Actual Speed register holds a finite
    number, the RPM value [calculate_omega] returns lies in the closed
    interval [-2500, +2500], for every elapsed time and every state of the
    integrator; and for every input whatsoever the value returned is never
    found above +2500 or below -2500 by a comparison (a NaN compares
    false). *)
Theorem calculate_omega_within_2500 (c : Controller) (now_ms : Z)
    (speed_actual torque_cmd_ : F32.t) :
  let omega_rpm := snd (calculate_omega c now_ms speed_actual torque_cmd_) in
  (F32.ltb f32_2500 omega_rpm = false /\
   F32.ltb omega_rpm (F32.opp f32_2500) = false) /\
  (J c = J_flywheel ->
   F32.is_nan torque_cmd_ = false ->
   F32.is_finite speed_actual = true -> F32.valid speed_actual = true ->
   F32.leb (F32.opp f32_2500) omega_rpm = true /\
   F32.leb omega_rpm f32_2500 = true).
Proof.
  unfold calculate_omega. cbn [snd]. split.
  - apply to_rpm_clamp_never_exceeds, of_double_valid.
  - intros HJ Ht Hf Hv.
    apply f32_within_2500, to_rpm_within, clamp_omega_within.
    + now apply omega_not_nan.
    + apply of_double_valid.
Qed.

(** *** A torque command of zero *)

(** Promotion of a valid [float] to [double] is exact. *)
Lemma of_float_exact (s : bool) (m : positive) (e : Z) :
  bounded F32.prec F32.emax m e = true ->
  exists (m' : positive) (e' : Z),
    F64.of_float (S754_finite s m e) = S754_finite s m' e' /\
    e' <= e /\ Zpos m' = Zpos m * 2 ^ (e - e') /\
    bounded F64.prec F64.emax m' e' = true.
Proof.
  intros Hb. apply andb_true_iff in Hb. destruct Hb as [Hc Hle].
  apply Z.leb_le in Hle.
  pose proof (canonical_digits_le _ _ _ _ Hc) as Hd.
  pose proof (canonical_fexp _ _ _ _ Hc) as Hf.
  cbn [F64.of_float]. apply binary_round_exact.
  - exact F64_prec_pos.
  - revert Hd Hf Hle. unfold fexp, emin, F32.prec, F32.emax, F64.prec,
      F64.emax. lia.
  - revert Hle. unfold F32.prec, F32.emax, F64.prec, F64.emax. lia.
Qed.

(** The measured speed in rad/s is a finite non-zero number when the
    speed is one. *)
Lemma to_rad_s_finite_nonzero (s : bool) (m : positive) (e : Z) :
  bounded F32.prec F32.emax m e = true ->
  exists (m' : positive) (e' : Z),
    to_rad_s (S754_finite s m e) = S754_finite s m' e'.
Proof.
  intros Hb.
  pose proof (to_rad_s_finite (S754_finite s m e) eq_refl Hb) as Hfin.
  unfold to_rad_s in *.
  change rad_per_rpm with (S754_finite false 7545853602163669 (-56)) in *.
  destruct (of_float_exact s m e Hb) as (m1 & e1 & Hr & He1 & Hm1 & Hb1).
  rewrite Hr in *.
  assert (Hnz : forall sz,
    F64.mul (S754_finite s m1 e1) (S754_finite false 7545853602163669 (-56))
      <> S754_zero sz).
  { intros sz. unfold F64.mul. cbn [SFmul].
    apply andb_true_iff in Hb. destruct Hb as [Hc _].
    pose proof (canonical_fexp _ _ _ _ Hc) as Hf.
    pose proof (Zdigits2_pos (Zpos m) ltac:(lia)) as Hdp.
    assert (Hd1 : Zdigits2 (Zpos m1) + e1 = Zdigits2 (Zpos m) + e).
    { rewrite Hm1, Zdigits2_mul_pow2 by lia. lia. }
    assert (Hdd : Zdigits2 (Zpos m1) + 52 <=
                  Zdigits2 (Zpos (m1 * 7545853602163669))).
    { rewrite Pos2Z.inj_mul.
      pose proof (Zdigits2_bounds (Zpos m1) ltac:(lia)) as [Hlo _].
      pose proof (Zdigits2_bounds (Zpos m1 * 7545853602163669) ltac:(lia))
        as [_ Hhi].
      pose proof (Zdigits2_pos (Zpos m1) ltac:(lia)) as Hd1p.
      pose proof (Zdigits2_pos (Zpos m1 * 7545853602163669) ltac:(lia)).
      assert (H52 : 2 ^ 52 <= 7545853602163669) by (vm_compute; discriminate).
      assert (Hlt : 2 ^ (Zdigits2 (Zpos m1) - 1 + 52)
                    < 2 ^ Zdigits2 (Zpos m1 * 7545853602163669)).
      { rewrite Z.pow_add_r by lia.
        assert (0 < 2 ^ (Zdigits2 (Zpos m1) - 1))
          by (apply Z.pow_pos_nonneg; lia).
        nia. }
      apply Z.pow_lt_mono_r_iff in Hlt; lia. }
    apply binary_round_aux_not_zero.
    - exact F64_prec_pos.
    - lia.
    - revert Hdd. unfold fexp, emin, F64.prec, F64.emax. lia.
    - revert Hdd Hd1 Hf Hdp.
      unfold fexp, emin, F32.prec, F32.emax, F64.prec, F64.emax. lia. }
  destruct (F64.mul (S754_finite s m1 e1) _) as [sz|sz| |s' m' e'] eqn:Hmul;
    try discriminate.
  - now destruct (Hnz sz).
  - assert (s' = s); [ | subst; eauto ].
    unfold F64.mul in Hmul. cbn [SFmul] in Hmul.
    unfold binary_round_aux in Hmul.
    destruct (shr_fexp _ _ _ _ _) as [mrs' e2] in Hmul.
    destruct (shr_fexp _ _ _ _ _) as [mrs'' e3] in Hmul.
    destruct (shr_m mrs''); try discriminate.
    destruct (e3 <=? _); try discriminate.
    injection Hmul as <- _ _. now destruct s.
Qed.

Lemma compare_cont_Eq_eq (p q : positive) :
  Pos.compare_cont Eq p q = Eq -> p = q.
Proof. exact (Pos.compare_eq p q). Qed.

Lemma mag_compare_lt_pred (m M : positive) (e E : Z) :
  canonical_mantissa F32.prec F32.emax m e = true ->
  2 ^ 23 < Zpos M ->
  mag_compare m e M E = Lt ->
  dyadic_le (Zpos m) e (Zpos M - 1) E.
Proof.
  intros Hc HM. unfold mag_compare.
  pose proof (canonical_digits_le _ _ _ _ Hc) as Hd.
  pose proof (Zdigits2_bounds (Zpos m) ltac:(lia)) as [_ Hm].
  assert (Hp : 2 ^ Zdigits2 (Zpos m) <= 2 ^ 24)
    by (apply Z.pow_le_mono_r; [ lia | exact Hd ]).
  change (2 ^ 24) with 16777216 in Hp. change (2 ^ 23) with 8388608 in HM.
  destruct (Z.compare_spec e E) as [-> | Hlt | Hgt]; intros H;
    try discriminate.
  - apply (dyadic_le_at E); [ lia | lia | ].
    rewrite Z.sub_diag, Z.pow_0_r.
    change (Pos.compare_cont Eq m M) with (Pos.compare m M) in H.
    assert (Hlt : (m < M)%positive) by exact H. lia.
  - apply (dyadic_le_at e); [ lia | lia | ].
    rewrite Z.sub_diag, Z.pow_0_r.
    assert (He : 2 ^ 1 <= 2 ^ (E - e)) by (apply Z.pow_le_mono_r; lia).
    change (2 ^ 1) with 2 in He.
    nia.
Qed.

(** Within the physical envelope the clamp does nothing. *)
Lemma clamp_omega_id (x : F32.t) :
  f32_within 8578642 (-15) x -> clamp_omega x = x.
Proof.
  unfold clamp_omega.
  change omega_max_rad_s with (S754_finite false 8578642 (-15)).
  intros [[s ->] | (s & m & e & -> & Hb & Hle)].
  - now destruct s.
  - apply andb_true_iff in Hb. destruct Hb as [Hc _].
    apply (mag_compare_le F32.prec F32.emax F32_prec_pos) in Hle;
      [ | exact Hc | reflexivity ].
    destruct s.
    + change (F32.ltb (S754_finite false 8578642 (-15))
                      (S754_finite true m e)) with false. cbv iota.
      unfold F32.ltb, SFltb, F32.opp. cbn [SFopp negb].
      rewrite SFcompare_neg.
      destruct (mag_compare m e 8578642 (-15)); cbn [CompOpp];
        congruence.
    + assert (H1 : F32.ltb (S754_finite false 8578642 (-15))
                           (S754_finite false m e) = false).
      { unfold F32.ltb, SFltb.
        rewrite SFcompare_pos, mag_compare_antisym.
        destruct (mag_compare m e 8578642 (-15)); cbn [CompOpp];
          congruence. }
      rewrite H1. reflexivity.
Qed.

(** A speed within 2500 RPM converts to an angular velocity within the
    envelope. *)
Lemma to_rad_s_within (speed : F32.t) :
  F32.is_finite speed = true -> F32.valid speed = true ->
  F32.leb (F32.opp f32_2500) speed = true ->
  F32.leb speed f32_2500 = true ->
  f32_within 8578642 (-15) (F32.of_double (to_rad_s speed)).
Proof.
  intros Hf Hv Hlo Hhi.
  destruct speed as [s|s| |s m e]; try discriminate.
  - left. exists s. now destruct s.
  - cbn [F32.valid valid_binary] in Hv.
    pose proof Hv as Hb. apply andb_true_iff in Hb. destruct Hb as [Hc _].
    assert (Hmag : mag_compare m e 10240000 (-12) <> Gt).
    { change f32_2500 with (S754_finite false 10240000 (-12)) in *.
      unfold F32.leb, SFleb, F32.opp in *. cbn [SFopp negb] in Hlo.
      destruct s.
      - rewrite SFcompare_neg, mag_compare_antisym, CompOpp_involutive in Hlo.
        destruct (mag_compare m e 10240000 (-12)); congruence.
      - rewrite SFcompare_pos in Hhi.
        destruct (mag_compare m e 10240000 (-12)); congruence. }
    destruct (mag_compare m e 10240000 (-12)) eqn:Hcmp; [ | | congruence ].
    + (* the speed is 2500 RPM or -2500 RPM *)
      unfold mag_compare in Hcmp.
      destruct (Z.compare_spec e (-12)) as [-> | |]; try discriminate.
      apply compare_cont_Eq_eq in Hcmp. subst m.
      right. destruct s.
      * exists true, 8578642%positive, (-15). vm_compute. intuition congruence.
      * exists false, 8578642%positive, (-15). vm_compute. intuition congruence.
    + pose proof (mag_compare_lt_pred m 10240000 e (-12) Hc
                    ltac:(reflexivity) Hcmp) as Hle.
      change (Zpos 10240000 - 1) with (Zpos 10239999) in Hle.
      unfold to_rad_s.
      change rad_per_rpm with (S754_finite false 7545853602163669 (-56)).
      cbn [F64.of_float].
      destruct (binary_round_le F64.prec F64.emax F64_prec_pos s m e
                  5497557602009088 (-41) ltac:(reflexivity))
        as [Hz | (m1 & e1 & Hr & Hb1 & Hle1)].
      { eapply dyadic_le_trans; [ exact Hle | ].
        now apply dyadic_leb_spec. }
      * rewrite Hz. left. exists (xorb s false). reflexivity.
      * rewrite Hr. unfold F64.mul.
        destruct (SFmul_finite_le F64.prec F64.emax F64_prec_pos s false
                    m1 7545853602163669 e1 (-56)
                    4605623354261504 (-44) ltac:(reflexivity)
                    ltac:(reflexivity))
          as [Hz | (m2 & e2 & Hr2 & Hb2 & Hle2)].
        { eapply dyadic_le_trans.
          - apply (dyadic_le_mul 7545853602163669 (-56));
              [ lia | exact Hle1 ].
          - now apply dyadic_leb_spec. }
        -- rewrite Hz. left. exists (xorb s false). reflexivity.
        -- rewrite Hr2. cbn [F32.of_double].
           destruct (binary_round_le F32.prec F32.emax F32_prec_pos
                       (xorb s false) m2 e2 8578642 (-15)
                       ltac:(reflexivity))
             as [Hz | (m3 & e3 & Hr3 & Hb3 & Hle3)].
           { eapply dyadic_le_trans; [ exact Hle2 | ].
             now apply dyadic_leb_spec. }
           ++ rewrite Hz. left. eexists. reflexivity.
           ++ rewrite Hr3. right. exists (xorb s false), m3, e3.
              repeat split; assumption.
Qed.

(** With a torque of zero the increment [alpha * dt_s] is zero whatever
    the elapsed time. *)
Lemma torque_add_zero (c : Controller) (now_ms : Z) (sz : bool) :
  J c = J_flywheel ->
  F32.mul (F32.div (S754_zero sz) (J c)) (integration_step c now_ms)
    = S754_zero sz.
Proof.
  intros ->. destruct (integration_step_finite c now_ms) as (m & e & ->).
  now destruct sz.
Qed.

(** *** Rational values and rounding errors *)

Lemma pow2_pos (e : Z) : (0 < 2 ^ e)%Q.
Proof. apply Qpower_0_lt. reflexivity. Qed.

Lemma pow2_add (a b : Z) : (2 ^ (a + b) == 2 ^ a * 2 ^ b)%Q.
Proof. apply Qpower_plus. discriminate. Qed.

Lemma pow2_inject (k : Z) : 0 <= k -> (inject_Z (2 ^ k) == 2 ^ k)%Q.
Proof. intros H. now rewrite Zpower_Qpower. Qed.

Lemma pow2_le (a b : Z) : a <= b -> (2 ^ a <= 2 ^ b)%Q.
Proof. intros H. apply Qpower_le_compat_l; [ exact H | discriminate ]. Qed.

Lemma dyadicQ_scale (m e k : Z) :
  0 <= k -> (dyadicQ (m * 2 ^ k) (e - k) == dyadicQ m e)%Q.
Proof.
  intros Hk. unfold dyadicQ.
  rewrite inject_Z_mult, pow2_inject by exact Hk.
  rewrite <- Qmult_assoc, <- pow2_add.
  replace (k + (e - k)) with e by lia. reflexivity.
Qed.

Lemma dyadicQ_le_mono (m1 m2 e : Z) :
  m1 <= m2 -> (dyadicQ m1 e <= dyadicQ m2 e)%Q.
Proof.
  intros H. unfold dyadicQ. apply Qmult_le_compat_r.
  - now rewrite <- Zle_Qle.
  - apply Qlt_le_weak, pow2_pos.
Qed.

Lemma dyadicQ_plus_1 (m e : Z) :
  (dyadicQ (m + 1) e == dyadicQ m e + 2 ^ e)%Q.
Proof. unfold dyadicQ. rewrite inject_Z_plus. ring. Qed.

Lemma dyadic_le_Q (m1 e1 m2 e2 : Z) :
  dyadic_le m1 e1 m2 e2 -> (dyadicQ m1 e1 <= dyadicQ m2 e2)%Q.
Proof.
  intros H. unfold dyadic_le in H.
  set (e0 := Z.min e1 e2) in *.
  rewrite <- (dyadicQ_scale m1 e1 (e1 - e0)) by (unfold e0; lia).
  rewrite <- (dyadicQ_scale m2 e2 (e2 - e0)) by (unfold e0; lia).
  replace (e1 - (e1 - e0)) with e0 by lia.
  replace (e2 - (e2 - e0)) with e0 by lia.
  now apply dyadicQ_le_mono.
Qed.

Lemma dyadicQ_mul (m1 e1 m2 e2 : Z) :
  (dyadicQ (m1 * m2) (e1 + e2) == dyadicQ m1 e1 * dyadicQ m2 e2)%Q.
Proof. unfold dyadicQ. rewrite inject_Z_mult, pow2_add. ring. Qed.

Lemma signedQ_mul (s1 s2 : bool) (m1 e1 m2 e2 : Z) :
  (signedQ (xorb s1 s2) (m1 * m2) (e1 + e2)
   == signedQ s1 m1 e1 * signedQ s2 m2 e2)%Q.
Proof.
  unfold signedQ. destruct s1, s2; cbn [xorb]; rewrite dyadicQ_mul; ring.
Qed.

Lemma signedQ_scale (s : bool) (m e k : Z) :
  0 <= k -> (signedQ s (m * 2 ^ k) (e - k) == signedQ s m e)%Q.
Proof.
  intros Hk. unfold signedQ. destruct s; now rewrite dyadicQ_scale.
Qed.

Section RoundingError.
Variables prec emax : Z.
Hypothesis Hprec : 0 < prec.

(** The result of [binary_round_aux], when it is not an infinity, is
    within one unit of the canonical exponent of the exact value. *)
Lemma binary_round_aux_error (s : bool) (m e : Z) (l : location) :
  0 < m -> e <= fexp prec emax (Zdigits2 m + e) ->
  (forall s', binary_round_aux prec emax s m e l <> S754_infinity s') ->
  (Qabs (F2Q (binary_round_aux prec emax s m e l) - signedQ s m e)
   <= 2 ^ fexp prec emax (Zdigits2 m + e))%Q.
Proof.
  intros Hm He Hfin.
  destruct (binary_round_aux_shape prec emax Hprec s m e l Hm He)
    as (mr & _ & Hmr & Hres).
  set (E := fexp prec emax (Zdigits2 m + e)) in *.
  assert (Hp : 0 < 2 ^ (E - e)) by (apply Z.pow_pos_nonneg; lia).
  pose proof (Z.div_mod m (2 ^ (E - e)) ltac:(lia)) as Hdm.
  pose proof (Z.mod_pos_bound m (2 ^ (E - e)) Hp) as Hmod.
  set (q := m / 2 ^ (E - e)) in *.
  (* the exact value lies between [q] and [q + 1] units *)
  assert (Hlo : (dyadicQ q E <= dyadicQ m e)%Q).
  { rewrite <- (dyadicQ_scale q E (E - e)) by lia.
    replace (E - (E - e)) with e by lia.
    apply dyadicQ_le_mono. lia. }
  assert (Hhi : (dyadicQ m e <= dyadicQ q E + 2 ^ E)%Q).
  { rewrite <- dyadicQ_plus_1.
    rewrite <- (dyadicQ_scale (q + 1) E (E - e)) by lia.
    replace (E - (E - e)) with e by lia.
    apply dyadicQ_le_mono. lia. }
  assert (Hval : (F2Q (binary_round_aux prec emax s m e l) == signedQ s mr E)%Q).
  { destruct Hres as [[Hz ->] | (m'' & e'' & HEe & Hv & _ & Hr)].
    - rewrite Hz. unfold F2Q, signedQ, dyadicQ. destruct s; ring.
    - rewrite Hr in Hfin |- *.
      destruct (e'' <=? emax - prec); [ | now destruct (Hfin s) ].
      cbn [F2Q]. rewrite <- Hv.
      rewrite <- (signedQ_scale s (Zpos m'') e'' (e'' - E)) by lia.
      replace (e'' - (e'' - E)) with E by lia. reflexivity. }
  rewrite Hval.
  pose proof (pow2_pos E) as HpE.
  assert (Hmrq : (dyadicQ mr E == dyadicQ q E)%Q \/
                 (dyadicQ mr E == dyadicQ q E + 2 ^ E)%Q).
  { destruct Hmr as [-> | ->]; [ left; reflexivity | right ].
    apply dyadicQ_plus_1. }
  apply Qabs_Qle_condition.
  unfold signedQ.
  destruct s, Hmrq as [Hq | Hq]; rewrite Hq; split; lra.
Qed.
End RoundingError.

Section RoundingErrorBound.
Variables prec emax : Z.
Hypothesis Hprec : 0 < prec.

(** Below a representable bound the rounding error is at most one unit
    in the last place of the bound. *)
Lemma binary_round_aux_le_error (s : bool) (m e : Z)
    (Mb : positive) (Eb : Z) :
  0 < m -> e <= fexp prec emax (Zdigits2 m + e) ->
  bounded prec emax Mb Eb = true ->
  dyadic_le m e (Zpos Mb) Eb ->
  (Qabs (F2Q (binary_round_aux prec emax s m e loc_Exact) - signedQ s m e)
   <= 2 ^ Eb)%Q.
Proof.
  intros Hm He Hb Hle.
  eapply Qle_trans.
  - apply (binary_round_aux_error prec emax Hprec); try assumption.
    intros s'.
    destruct (binary_round_aux_le prec emax Hprec s m e Mb Eb Hm He Hb Hle)
      as [-> | (m'' & e'' & -> & _)]; discriminate.
  - apply pow2_le.
    apply andb_true_iff in Hb. destruct Hb as [Hcb _].
    rewrite <- (canonical_fexp prec emax _ _ Hcb). apply fexp_mono.
    apply dyadic_le_digits; lia || assumption.
Qed.

Lemma binary_round_le_error (s : bool) (m : positive) (e : Z)
    (Mb : positive) (Eb : Z) :
  bounded prec emax Mb Eb = true ->
  dyadic_le (Zpos m) e (Zpos Mb) Eb ->
  (Qabs (F2Q (binary_round prec emax s m e) - signedQ s (Zpos m) e)
   <= 2 ^ Eb)%Q.
Proof.
  intros Hb Hle. unfold binary_round.
  destruct (shl_align_fexp prec emax m e) as (mz & ez & -> & Hez & Hmz & Hz).
  assert (Hq : (signedQ s (Zpos mz) ez == signedQ s (Zpos m) e)%Q).
  { rewrite Hmz. replace ez with (e - (e - ez)) at 2 by lia.
    apply signedQ_scale. lia. }
  rewrite <- Hq.
  apply (binary_round_aux_le_error s (Zpos mz) ez Mb Eb);
    try lia; try assumption.
  pose proof (dyadic_le_scaled (Z.min ez Eb) (Zpos m) e (Zpos Mb) Eb
                ltac:(lia) ltac:(lia) Hle) as H.
  apply (dyadic_le_of_scaled (Z.min ez Eb)); [ lia | lia | ].
  rewrite Hmz, <- Z.mul_assoc, <- Z.pow_add_r by lia.
  replace (e - ez + (ez - Z.min ez Eb)) with (e - Z.min ez Eb) by lia.
  exact H.
Qed.

Lemma SFmul_finite_le_error (s1 s2 : bool) (m1 m2 : positive) (e1 e2 : Z)
    (Mb : positive) (Eb : Z) :
  Zdigits2 (Zpos m2) = prec ->
  bounded prec emax Mb Eb = true ->
  dyadic_le (Zpos m1 * Zpos m2) (e1 + e2) (Zpos Mb) Eb ->
  (Qabs (F2Q (SFmul prec emax (S754_finite s1 m1 e1) (S754_finite s2 m2 e2))
         - F2Q (S754_finite s1 m1 e1) * F2Q (S754_finite s2 m2 e2))
   <= 2 ^ Eb)%Q.
Proof.
  intros Hd Hb Hle. cbn [SFmul F2Q].
  rewrite <- signedQ_mul, <- Pos2Z.inj_mul.
  apply (binary_round_aux_le_error (xorb s1 s2) (Zpos (m1 * m2)) (e1 + e2)
           Mb Eb); try assumption; [ lia | ].
  rewrite Pos2Z.inj_mul.
  assert (Hdd : prec <= Zdigits2 (Zpos m1 * Zpos m2)).
  { pose proof (Zdigits2_bounds (Zpos m2) ltac:(lia)) as [Hlo _].
    pose proof (Zdigits2_bounds (Zpos m1 * Zpos m2) ltac:(lia)) as [_ Hhi].
    rewrite Hd in Hlo.
    assert (Hlt : 2 ^ (prec - 1) < 2 ^ Zdigits2 (Zpos m1 * Zpos m2)) by nia.
    apply Z.pow_lt_mono_r_iff in Hlt; try lia.
    pose proof (Zdigits2_pos (Zpos m1 * Zpos m2) ltac:(lia)). lia. }
  unfold fexp, emin. lia.
Qed.
End RoundingErrorBound.

Lemma dyadicQ_nonneg (m e : Z) : 0 <= m -> (0 <= dyadicQ m e)%Q.
Proof.
  intros H. unfold dyadicQ. apply Qmult_le_0_compat.
  - now rewrite Zle_Qle in H.
  - apply Qlt_le_weak, pow2_pos.
Qed.

Lemma signedQ_bounds (s : bool) (m : positive) (e : Z) (M : positive) (E : Z) :
  dyadic_le (Zpos m) e (Zpos M) E ->
  (- dyadicQ (Zpos M) E <= signedQ s (Zpos m) e <= dyadicQ (Zpos M) E)%Q.
Proof.
  intros H. apply dyadic_le_Q in H.
  pose proof (dyadicQ_nonneg (Zpos m) e ltac:(lia)) as H0.
  unfold signedQ. destruct s; split; lra.
Qed.

Lemma Qabs_le_elim (b c : Q) :
  Qle_bool b c = true ->
  forall x y : Q, (Qabs (x - y) <= b -> y - c <= x <= y + c)%Q.
Proof.
  intros Hb x y H. apply Qle_bool_iff in Hb.
  apply Qabs_Qle_condition in H. split; lra.
Qed.

(** Promotion to [double] keeps the value. *)
Lemma of_float_value (s : bool) (m : positive) (e : Z)
    (Mb : positive) (Eb : Z) :
  bounded F32.prec F32.emax m e = true ->
  dyadic_le (Zpos m) e (Zpos Mb) Eb ->
  exists (m' : positive) (e' : Z),
    F64.of_float (S754_finite s m e) = S754_finite s m' e' /\
    dyadic_le (Zpos m') e' (Zpos Mb) Eb /\
    (signedQ s (Zpos m') e' == signedQ s (Zpos m) e)%Q.
Proof.
  intros Hb Hle.
  destruct (of_float_exact s m e Hb) as (m' & e' & Hr & He & Hm & _).
  exists m', e'. split; [ exact Hr | ]. split.
  - eapply dyadic_le_trans; [ | exact Hle ].
    apply (dyadic_le_of_scaled e'); [ lia | lia | ].
    rewrite Z.sub_diag, Z.pow_0_r. lia.
  - rewrite Hm.
    rewrite <- (signedQ_scale s (Zpos m) e (e - e')) by lia.
    replace (e - (e - e')) with e' by lia. reflexivity.
Qed.

Lemma to_rpm_zero (sz : bool) : to_rpm (S754_zero sz) = S754_zero sz.
Proof. now destruct sz. Qed.

Lemma f32_abs_le_2500 (s : bool) (m : positive) (e : Z) :
  F32.valid (S754_finite s m e) = true ->
  F32.leb (F32.opp f32_2500) (S754_finite s m e) = true ->
  F32.leb (S754_finite s m e) f32_2500 = true ->
  dyadic_le (Zpos m) e 10240000 (-12).
Proof.
  intros Hv Hlo Hhi.
  cbn [F32.valid valid_binary] in Hv.
  apply andb_true_iff in Hv. destruct Hv as [Hc _].
  apply (proj1 (mag_compare_le F32.prec F32.emax F32_prec_pos
                  m 10240000 e (-12) Hc eq_refl)).
  change f32_2500 with (S754_finite false 10240000 (-12)) in *.
  unfold F32.leb, SFleb, F32.opp in *. cbn [SFopp negb] in Hlo.
  destruct s.
  - rewrite SFcompare_neg, mag_compare_antisym, CompOpp_involutive in Hlo.
    destruct (mag_compare m e 10240000 (-12)); congruence.
  - rewrite SFcompare_pos in Hhi.
    destruct (mag_compare m e 10240000 (-12)); congruence.
Qed.

(** The conversion of a speed within 2500 RPM to rad/s and back moves it
    by less than a thousandth of an RPM. *)
Lemma round_trip_error (speed : F32.t) :
  F32.is_finite speed = true -> F32.valid speed = true ->
  F32.leb (F32.opp f32_2500) speed = true ->
  F32.leb speed f32_2500 = true ->
  (Qabs (F2Q (to_rpm (F32.of_double (to_rad_s speed))) - F2Q speed)
   <= 1 # 1000)%Q.
Proof.
  intros Hf Hv Hlo Hhi.
  destruct speed as [s|s| |s m e]; try discriminate Hf.
  - destruct s; vm_compute; discriminate.
  - pose proof (f32_abs_le_2500 s m e Hv Hlo Hhi) as Hle.
    pose proof (signedQ_bounds s m e _ _ Hle) as HS.
    assert (H2500 : (dyadicQ 10240000 (-12) == 2500)%Q)
      by (vm_compute; reflexivity).
    rewrite H2500 in HS.
    cbn [F32.valid valid_binary] in Hv.
    destruct (of_float_value s m e _ _ Hv Hle)
      as (m1 & e1 & Hr1 & Hle1 & Hq1).
    unfold to_rad_s. rewrite Hr1.
    change rad_per_rpm with (S754_finite false 7545853602163669 (-56)).
    unfold F64.mul.
    assert (Hle2 : dyadic_le (Zpos m1 * 7545853602163669) (e1 + -56)
                     4605623536476849 (-44)).
    { eapply dyadic_le_trans.
      - apply (dyadic_le_mul 7545853602163669 (-56)); [ lia | exact Hle1 ].
      - now apply dyadic_leb_spec. }
    pose proof (SFmul_finite_le_error F64.prec F64.emax F64_prec_pos s false
                  m1 7545853602163669 e1 (-56) 4605623536476849 (-44)
                  ltac:(reflexivity) ltac:(reflexivity) Hle2) as He2.
    cbn [F2Q] in He2.
    assert (HR : (signedQ false 7545853602163669 (-56)
                  == 7545853602163669 # 72057594037927936)%Q)
      by (vm_compute; reflexivity).
    rewrite HR in He2.
    apply (Qabs_le_elim (2 ^ (-44)) (1 # 17592186044416) eq_refl) in He2.
    destruct (SFmul_finite_le F64.prec F64.emax F64_prec_pos s false
                m1 7545853602163669 e1 (-56) 4605623536476849 (-44)
                ltac:(reflexivity) ltac:(reflexivity) Hle2)
      as [Hz | (m2 & e2 & Hr2 & Hb2 & Hle2')].
    { rewrite Hz in He2 |- *. cbn [F32.of_double]. rewrite to_rpm_zero.
      cbn [F2Q] in He2 |- *.
      apply Qabs_Qle_condition. split; lra. }
    rewrite Hr2 in He2 |- *. cbn [F2Q] in He2. cbn [F32.of_double].
    set (s' := xorb s false) in *.
    assert (Hle3 : dyadic_le (Zpos m2) e2 8578643 (-15)).
    { eapply dyadic_le_trans; [ exact Hle2' | ]. now apply dyadic_leb_spec. }
    pose proof (binary_round_le_error F32.prec F32.emax F32_prec_pos s'
                  m2 e2 8578643 (-15) ltac:(reflexivity) Hle3) as He3.
    apply (Qabs_le_elim (2 ^ (-15)) (1 # 32768) eq_refl) in He3.
    destruct (binary_round_le F32.prec F32.emax F32_prec_pos s'
                m2 e2 8578643 (-15) ltac:(reflexivity) Hle3)
      as [Hz | (m3 & e3 & Hr3 & Hb3 & Hle3')].
    { rewrite Hz in He3 |- *. rewrite to_rpm_zero.
      cbn [F2Q] in He3 |- *.
      apply Qabs_Qle_condition. split; lra. }
    rewrite Hr3 in He3 |- *. cbn [F2Q] in He3.
    unfold to_rpm.
    destruct (of_float_value s' m3 e3 _ _ Hb3 Hle3')
      as (m4 & e4 & Hr4 & Hle4 & Hq4).
    rewrite Hr4.
    change rpm_per_rad with (S754_finite false 5375776068021243 (-49)).
    unfold F64.mul.
    assert (Hle5 : dyadic_le (Zpos m4 * 5375776068021243) (e4 + -49)
                     5497558562218900 (-41)).
    { eapply dyadic_le_trans.
      - apply (dyadic_le_mul 5375776068021243 (-49)); [ lia | exact Hle4 ].
      - now apply dyadic_leb_spec. }
    pose proof (SFmul_finite_le_error F64.prec F64.emax F64_prec_pos s' false
                  m4 5375776068021243 e4 (-49) 5497558562218900 (-41)
                  ltac:(reflexivity) ltac:(reflexivity) Hle5) as He5.
    cbn [F2Q] in He5.
    assert (HR' : (signedQ false 5375776068021243 (-49)
                   == 5375776068021243 # 562949953421312)%Q)
      by (vm_compute; reflexivity).
    rewrite HR' in He5.
    apply (Qabs_le_elim (2 ^ (-41)) (1 # 2199023255552) eq_refl) in He5.
    destruct (SFmul_finite_le F64.prec F64.emax F64_prec_pos s' false
                m4 5375776068021243 e4 (-49) 5497558562218900 (-41)
                ltac:(reflexivity) ltac:(reflexivity) Hle5)
      as [Hz | (m5 & e5 & Hr5 & Hb5 & Hle5')].
    { rewrite Hz in He5 |- *. cbn [F32.of_double].
      cbn [F2Q] in He5 |- *.
      apply Qabs_Qle_condition. split; lra. }
    rewrite Hr5 in He5 |- *. cbn [F2Q] in He5. cbn [F32.of_double].
    set (s'' := xorb s' false) in *.
    assert (Hle6 : dyadic_le (Zpos m5) e5 10240001 (-12)).
    { eapply dyadic_le_trans; [ exact Hle5' | ]. now apply dyadic_leb_spec. }
    pose proof (binary_round_le_error F32.prec F32.emax F32_prec_pos s''
                  m5 e5 10240001 (-12) ltac:(reflexivity) Hle6) as He6.
    apply (Qabs_le_elim (2 ^ (-12)) (1 # 4096) eq_refl) in He6.
    cbn [F2Q].
    apply Qabs_Qle_condition. split; lra.
Qed.

(** C4, as stated, fails: with a torque of 0 and the register holding
    2495.42529296875 RPM, the speed the estimator publishes for a 6011 us
    interval, [calculate_omega] returns 2495.425048828125 RPM, one unit in
    the last place below. *)
Lemma calculate_omega_zero_torque_not_identity :
  let speed := readActual_rpm 6011 LOW in
  let omega_rpm := snd (calculate_omega Controller_new 1000 speed F32.zero) in
  speed = S754_finite false 10221262 (-12) /\
  F32.leb (F32.opp f32_2500) speed = true /\
  F32.leb speed f32_2500 = true /\
  omega_rpm = S754_finite false 10221261 (-12) /\
  F32.eqb omega_rpm speed = false.
Proof. vm_compute. repeat split; reflexivity. Qed.

(** C4, amended: for a torque command of zero and a register value that
    is a finite number within 2500 RPM (the one pair left out is a torque
    of +0.0 with a register of -0.0, whose sum is +0.0), [calculate_omega]
    returns the register value converted to rad/s and back to RPM, each
    conversion rounded to [float], whatever the elapsed time and the state
    of the integrator; the clamp does not act, and the returned speed is
    within 0.001 RPM of the register value. *)
Theorem calculate_omega_zero_torque (c : Controller) (now_ms : Z)
    (speed_actual : F32.t) (sz : bool) :
  J c = J_flywheel ->
  F32.is_finite speed_actual = true -> F32.valid speed_actual = true ->
  (sz = false -> speed_actual <> S754_zero true) ->
  F32.leb (F32.opp f32_2500) speed_actual = true ->
  F32.leb speed_actual f32_2500 = true ->
  let omega_rpm :=
    snd (calculate_omega c now_ms speed_actual (S754_zero sz)) in
  omega_rpm = to_rpm (F32.of_double (to_rad_s speed_actual)) /\
  (Qabs (F2Q omega_rpm - F2Q speed_actual) <= 1 # 1000)%Q.
Proof.
  intros HJ Hf Hv Hnz Hlo Hhi omega_rpm.
  assert (Heq : omega_rpm = to_rpm (F32.of_double (to_rad_s speed_actual))).
  { unfold omega_rpm, calculate_omega. cbn [snd].
    rewrite (torque_add_zero c now_ms sz HJ). cbn [F64.of_float].
    assert (Hadd : F64.add (S754_zero sz) (to_rad_s speed_actual)
                   = to_rad_s speed_actual).
    { destruct speed_actual as [s|s| |s m e]; try discriminate.
      - destruct s, sz; try reflexivity.
        now elim (Hnz eq_refl).
      - destruct (to_rad_s_finite_nonzero s m e Hv) as (m' & e' & ->).
        reflexivity. }
    rewrite Hadd.
    now rewrite (clamp_omega_id _ (to_rad_s_within _ Hf Hv Hlo Hhi)). }
  split; [ exact Heq | ].
  rewrite Heq. now apply round_trip_error.
Qed.

Lemma calculate_omega_zero_torque_witness :
  let omega_rpm :=
    snd (calculate_omega Controller_new 1000 (readActual_rpm 6011 LOW)
           (S754_zero false)) in
  omega_rpm = to_rpm (F32.of_double (to_rad_s (readActual_rpm 6011 LOW))) /\
  (Qabs (F2Q omega_rpm - F2Q (readActual_rpm 6011 LOW)) <= 1 # 1000)%Q.
Proof.
  apply (calculate_omega_zero_torque Controller_new 1000
           (readActual_rpm 6011 LOW) false).
  - reflexivity.
  - reflexivity.
  - reflexivity.
  - intros _. vm_compute. discriminate.
  - reflexivity.
  - reflexivity.
Defined.

Lemma calculate_omega_within_2500_witness :
  let omega_rpm :=
    snd (calculate_omega Controller_new 100 f32_2500 (F32.of_Z 1000)) in
  F32.leb (F32.opp f32_2500) omega_rpm = true /\
  F32.leb omega_rpm f32_2500 = true.
Proof.
  apply (calculate_omega_within_2500 Controller_new 100 f32_2500
           (F32.of_Z 1000)); reflexivity.
Defined.

(** ** The speed-control state machine *)

Lemma step_accelerating_far (c : Config) (x : F32.t) :
  speed_state (locals c) = Accelerating ->
  F32.ltb f32_20 (fabsf (F32.sub x (speed_command (locals c)))) = true ->
  step c x = Some (c, [VTaskDelay 10]).
Proof.
  destruct c as [[st cmd] d q]; cbn [locals speed_state speed_command].
  intros -> H.
  unfold step, task_speedControl_iter, accel_decide;
    cbn [locals speed_state speed_command drv queue].
  unfold F32.leb, F32.ltb in *. now rewrite (SFltb_not_leb _ _ H).
Qed.

Lemma step_accelerating_near (c : Config) (x : F32.t) :
  speed_state (locals c) = Accelerating ->
  F32.leb (fabsf (F32.sub x (speed_command (locals c)))) f32_20 = true ->
  step c x =
    Some ({| locals := {| speed_state := Idle;
                          speed_command := speed_command (locals c) |};
             drv := drv c; queue := queue c |}, []).
Proof.
  destruct c as [[st cmd] d q]; cbn [locals speed_state speed_command].
  intros -> H.
  unfold step, task_speedControl_iter, accel_decide;
    cbn [locals speed_state speed_command drv queue].
  now rewrite H.
Qed.

Lemma run_stuttering (c : Config) (xs : list F32.t) (es : list effect) :
  Forall (fun x => step c x = Some (c, es)) xs ->
  run c xs = (c, concat (repeat es (length xs))).
Proof.
  induction 1 as [|x xs Hx _ IH]; simpl; [ reflexivity | ].
  now rewrite Hx, IH.
Qed.

Lemma run_snoc_stuttering (c : Config) (xs : list F32.t) (r : F32.t)
    (es : list effect) :
  Forall (fun x => step c x = Some (c, es)) xs ->
  run c (xs ++ [r]) =
    match step c r with
    | None => (c, concat (repeat es (length xs)))
    | Some (c', es') => (c', concat (repeat es (length xs)) ++ es')
    end.
Proof.
  induction 1 as [|x xs Hx _ IH]; simpl.
  - destruct (step c r) as [[c' es']|]; [ | reflexivity ].
    now rewrite app_nil_r.
  - rewrite Hx, IH.
    destruct (step c r) as [[c' es']|]; [ | reflexivity ].
    now rewrite app_assoc.
Qed.

Lemma Forall_firstn {A} (P : A -> Prop) (k : nat) (l : list A) :
  Forall P l -> Forall P (firstn k l).
Proof.
  intros H. revert k. induction H; intros [|k]; simpl; constructor; auto.
Qed.

(** C9: from Accelerating, whatever the trajectory of the measured speed
    (in particular one that approaches the command in 1 RPM steps), the
    state stays Accelerating at every turn at which [|actual - cmd| > 20],
    no hardware command is issued meanwhile, and the first turn at which
    [|actual - cmd| <= 20] moves the state to Idle. *)
Theorem accelerating_deadband (c : Config) (pre : list F32.t) (r : F32.t) :
  speed_state (locals c) = Accelerating ->
  Forall (fun x => F32.ltb f32_20
                     (fabsf (F32.sub x (speed_command (locals c)))) = true)
         pre ->
  F32.leb (fabsf (F32.sub r (speed_command (locals c)))) f32_20 = true ->
  (forall k, (k <= length pre)%nat ->
     speed_state (locals (fst (run c (firstn k pre)))) = Accelerating) /\
  speed_state (locals (fst (run c (pre ++ [r])))) = Idle /\
  Forall (fun e => is_hw_command e = false) (snd (run c (pre ++ [r]))).
Proof.
  intros Hst Hpre Hr.
  assert (Hstep : Forall (fun x => step c x = Some (c, [VTaskDelay 10])) pre).
  { eapply Forall_impl; [ | exact Hpre ].
    intros x Hx. now apply step_accelerating_far. }
  split; [ | split ].
  - intros k _.
    rewrite (run_stuttering c (firstn k pre) [VTaskDelay 10]);
      [ exact Hst | now apply Forall_firstn ].
  - rewrite (run_snoc_stuttering c pre r _ Hstep).
    now rewrite (step_accelerating_near c r Hst Hr).
  - rewrite (run_snoc_stuttering c pre r _ Hstep).
    rewrite (step_accelerating_near c r Hst Hr). simpl.
    rewrite app_nil_r.
    induction (length pre); simpl; constructor; auto.
Qed.

Lemma accelerating_deadband_witness :
  let c := {| locals := {| speed_state := Accelerating;
                           speed_command := F32.of_Z 100 |};
              drv := {| PIN_DIR := LOW; PIN_BRAKE := LOW;
                        CLKIN_tone := F64.of_Z 0 |};
              queue := [] |} in
  let pre := map F32.of_Z [75; 76; 77; 78; 79] in
  (forall k, (k <= length pre)%nat ->
     speed_state (locals (fst (run c (firstn k pre)))) = Accelerating) /\
  speed_state (locals (fst (run c (pre ++ [F32.of_Z 80])))) = Idle /\
  Forall (fun e => is_hw_command e = false)
         (snd (run c (pre ++ [F32.of_Z 80]))).
Proof.
  intros c pre.
  apply (accelerating_deadband c pre (F32.of_Z 80)).
  - reflexivity.
  - repeat constructor.
  - reflexivity.
Defined.

Lemma step_decelerating_wait (c : Config) (x : F32.t) :
  speed_state (locals c) = Decelerating ->
  sign (speed_command (locals c)) <> sign x ->
  F32.ltb (fabsf x) f32_20 = false ->
  step c x = Some (c, [VTaskDelay 10]).
Proof.
  destruct c as [[st cmd] d q]; cbn [locals speed_state speed_command].
  intros -> Hs H.
  unfold step, task_speedControl_iter, decel_decide;
    cbn [locals speed_state speed_command drv queue].
  apply Z.eqb_neq in Hs. rewrite Hs, H.
  now destruct (Bool.eqb (get_dir d) HIGH).
Qed.

Lemma step_decelerating_cross_forward (c : Config) (x : F32.t) :
  speed_state (locals c) = Decelerating ->
  get_dir (drv c) = LOW ->
  sign (speed_command (locals c)) <> sign x ->
  F32.ltb (fabsf x) f32_20 = true ->
  step c x =
    Some ({| locals := {| speed_state := CrossingPosToNeg;
                          speed_command := speed_command (locals c) |};
             drv := drv c; queue := queue c |}, [VTaskDelay 10]).
Proof.
  destruct c as [[st cmd] d q];
    cbn [locals speed_state speed_command drv queue].
  intros -> Hd Hs H.
  unfold step, task_speedControl_iter, decel_decide;
    cbn [locals speed_state speed_command drv queue].
  apply Z.eqb_neq in Hs. now rewrite Hs, H, Hd.
Qed.

(** C7: from Decelerating with the direction pin LOW and a command whose
    sign is opposite to the measured speed's, the state stays Decelerating
    while [|actual| < 20] does not hold, the first turn at which
    [|actual| < 20] moves it to CrossingPosToNeg without touching the
    driver, and the turn after that, whatever the measured speed, sets the
    direction pin HIGH, releases the brake, commands [|cmd|] and moves to
    Accelerating. *)
Theorem zero_crossing_pos_to_neg (c : Config) (pre : list F32.t)
    (r r' : F32.t) :
  speed_state (locals c) = Decelerating ->
  get_dir (drv c) = LOW ->
  Forall (fun x => sign (speed_command (locals c)) <> sign x) (pre ++ [r]) ->
  Forall (fun x => F32.ltb (fabsf x) f32_20 = false) pre ->
  F32.ltb (fabsf r) f32_20 = true ->
  exists c1 c2 : Config,
    (forall k, (k <= length pre)%nat ->
       speed_state (locals (fst (run c (firstn k pre)))) = Decelerating) /\
    run c (pre ++ [r]) = (c1, repeat (VTaskDelay 10) (S (length pre))) /\
    speed_state (locals c1) = CrossingPosToNeg /\
    drv c1 = drv c /\
    step c1 r' =
      Some (c2, [Set_dir HIGH; Unbrake;
                 Cmd_speed_PWM (fabsf (speed_command (locals c)))]) /\
    speed_state (locals c2) = Accelerating /\
    speed_command (locals c2) = speed_command (locals c) /\
    PIN_DIR (drv c2) = HIGH /\
    PIN_BRAKE (drv c2) = LOW.
Proof.
  intros Hst Hdir Hsign Hpre Hr.
  apply Forall_app in Hsign. destruct Hsign as [Hsp Hsr].
  apply Forall_inv in Hsr.
  assert (Hstep : Forall (fun x => step c x = Some (c, [VTaskDelay 10])) pre).
  { clear Hr Hsr. induction Hpre as [|x pre Hx _ IH]; constructor.
    - apply step_decelerating_wait; auto. now apply Forall_inv in Hsp.
    - apply IH. now apply Forall_inv_tail in Hsp. }
  eexists. eexists.
  split; [ | split; [ | split; [ | split; [ | split ] ] ] ].
  - intros k _.
    rewrite (run_stuttering c (firstn k pre) [VTaskDelay 10]);
      [ exact Hst | now apply Forall_firstn ].
  - rewrite (run_snoc_stuttering c pre r _ Hstep).
    rewrite (step_decelerating_cross_forward c r Hst Hdir Hsr Hr).
    f_equal.
    clear. induction (length pre) as [|n IH]; [ reflexivity | ].
    simpl in *. now rewrite IH.
  - reflexivity.
  - reflexivity.
  - unfold step, task_speedControl_iter;
      cbn [locals speed_state speed_command drv queue]. reflexivity.
  - repeat split.
Qed.

Lemma zero_crossing_pos_to_neg_witness :
  let c := {| locals := {| speed_state := Decelerating;
                           speed_command := F32.of_Z (-500) |};
              drv := {| PIN_DIR := LOW; PIN_BRAKE := HIGH;
                        CLKIN_tone := F64.of_Z 0 |};
              queue := [] |} in
  let pre := map F32.of_Z [300; 150; 40; 20] in
  exists c1 c2 : Config,
    (forall k, (k <= length pre)%nat ->
       speed_state (locals (fst (run c (firstn k pre)))) = Decelerating) /\
    run c (pre ++ [F32.of_Z 19])
      = (c1, repeat (VTaskDelay 10) (S (length pre))) /\
    speed_state (locals c1) = CrossingPosToNeg /\
    drv c1 = drv c /\
    step c1 (F32.of_Z 19) =
      Some (c2, [Set_dir HIGH; Unbrake;
                 Cmd_speed_PWM (fabsf (speed_command (locals c)))]) /\
    speed_state (locals c2) = Accelerating /\
    speed_command (locals c2) = speed_command (locals c) /\
    PIN_DIR (drv c2) = HIGH /\
    PIN_BRAKE (drv c2) = LOW.
Proof.
  intros c pre.
  apply (zero_crossing_pos_to_neg c pre (F32.of_Z 19) (F32.of_Z 19)).
  - reflexivity.
  - reflexivity.
  - repeat constructor; vm_compute; discriminate.
  - repeat constructor.
  - reflexivity.
Defined.

(** C6: in Idle, when the command taken from the queue equals the measured
    speed, the turn calls nothing on the driver, leaves the pins and the tone
    as they are and stays in Idle; with no further command queued the next
    turn blocks. *)
Theorem idle_equal_command_no_action (c : Config) (speed_real cmd : F32.t)
    (rest : list F32.t) :
  speed_state (locals c) = Idle ->
  queue c = cmd :: rest ->
  F32.eqb cmd speed_real = true ->
  exists c' : Config,
    step c speed_real = Some (c', []) /\
    speed_state (locals c') = Idle /\
    drv c' = drv c /\
    queue c' = rest /\
    (rest = [] -> forall r, step c' r = None).
Proof.
  destruct c as [[st sc] d q]; cbn [locals speed_state speed_command queue].
  intros -> -> He.
  destruct (SFeqb_not_ltb _ _ He) as [H1 H2].
  eexists. split; [ | split; [ | split; [ | split ] ] ].
  - unfold step, task_speedControl_iter, idle_decide;
      cbn [locals speed_state speed_command drv queue].
    unfold F32.ltb. rewrite H1, H2. reflexivity.
  - reflexivity.
  - reflexivity.
  - reflexivity.
  - intros -> r. reflexivity.
Qed.

Lemma idle_equal_command_no_action_witness :
  let c := {| locals := {| speed_state := Idle; speed_command := F32.zero |};
              drv := {| PIN_DIR := LOW; PIN_BRAKE := LOW;
                        CLKIN_tone := F64.of_Z 0 |};
              queue := [f32_2500] |} in
  exists c' : Config,
    step c f32_2500 = Some (c', []) /\
    speed_state (locals c') = Idle /\
    drv c' = drv c /\
    queue c' = [] /\
    (@nil F32.t = [] -> forall r, step c' r = None).
Proof.
  intros c.
  apply (idle_equal_command_no_action c f32_2500 f32_2500 []);
    reflexivity.
Defined.

Ltac split_ifs :=
  repeat match goal with
         | |- context [if ?b then _ else _] => destruct b
         end.

Ltac solve_pwm_arg :=
  intros [= <- <- <-]; simpl; intuition (try discriminate);
  match goal with
  | H : Cmd_speed_PWM _ = Cmd_speed_PWM _ |- _ => injection H as <-
  end; auto.

(** Every speed the state machine hands to [cmd_speed_PWM]. *)
Lemma iter_cmd_speed_PWM_args (l l' : SpeedControl) (speed_real x : F32.t)
    (direction : bool) (q q' : list F32.t) (es : list effect) :
  task_speedControl_iter l speed_real direction q = Some (l', q', es) ->
  In (Cmd_speed_PWM x) es ->
  x = F32.of_Z 0 \/ x = fabsf (speed_command l').
Proof.
  unfold task_speedControl_iter.
  destruct (speed_state l).
  - destruct q as [|c rest]; [ discriminate | ].
    unfold idle_decide. split_ifs; solve_pwm_arg.
  - unfold accel_decide. split_ifs; solve_pwm_arg.
  - unfold decel_decide. split_ifs; solve_pwm_arg.
  - solve_pwm_arg.
  - solve_pwm_arg.
Qed.

Lemma binary_round_aux_signbit (prec emax : Z) (m e : Z) (l : location) :
  signbit (binary_round_aux prec emax false m e l) = false.
Proof.
  unfold binary_round_aux.
  destruct (shr_fexp prec emax m e l) as [mrs' e'].
  destruct (shr_fexp prec emax _ e' loc_Exact) as [mrs'' e''].
  destruct (shr_m mrs''); [ reflexivity | | reflexivity ].
  now destruct (e'' <=? emax - prec).
Qed.

Lemma binary_round_signbit (prec emax : Z) (m : positive) (e : Z) :
  signbit (binary_round prec emax false m e) = false.
Proof.
  unfold binary_round.
  destruct (shl_align m e _) as [mz ez].
  apply binary_round_aux_signbit.
Qed.

Lemma cmd_speed_PWM_freq_signbit (x : F32.t) :
  signbit x = false -> signbit (cmd_speed_PWM_freq x) = false.
Proof.
  unfold cmd_speed_PWM_freq.
  assert (H : forall y, signbit y = false -> signbit (F64.of_float y) = false).
  { intros [s|s| |s m e]; simpl; intros Hy; subst; try reflexivity.
    apply binary_round_signbit. }
  intros Hx. apply H.
  destruct x as [s|s| |s m e]; simpl in Hx; subst; try reflexivity.
  change (F32.of_Z 15) with (S754_finite false 15728640 (-20)).
  unfold F32.div, SFdiv.
  destruct (SFdiv_core_binary _ _ _ _ _ _) as [[mz ez] lz].
  apply binary_round_aux_signbit.
Qed.

(** C10: whatever the state, the measured speed, the direction pin and the
    queue, every speed a turn of the state machine hands to
    [cmd_speed_PWM] is either 0 or [fabsf(speed_command)]; its sign bit is
    clear, it is never below zero, it is at least zero unless the command
    is a NaN, and the frequency given to the tone generator has its sign
    bit clear as well. *)
Theorem cmd_speed_PWM_nonnegative (c c' : Config) (speed_real x : F32.t)
    (es : list effect) :
  step c speed_real = Some (c', es) ->
  In (Cmd_speed_PWM x) es ->
  (x = F32.of_Z 0 \/ x = fabsf (speed_command (locals c'))) /\
  signbit x = false /\
  F32.ltb x F32.zero = false /\
  (F32.is_nan x = false -> F32.leb F32.zero x = true) /\
  signbit (cmd_speed_PWM_freq x) = false.
Proof.
  unfold step.
  destruct (task_speedControl_iter _ _ _ _) as [[[l q] es']|] eqn:E;
    [ | discriminate ].
  intros [= <- <-] Hin. cbn [locals].
  pose proof (iter_cmd_speed_PWM_args _ _ _ _ _ _ _ _ E Hin) as Hx.
  assert (Hs : signbit x = false).
  { destruct Hx as [-> | ->]; [ reflexivity | apply fabsf_signbit ]. }
  split; [ exact Hx | ].
  split; [ exact Hs | ].
  split; [ | split ].
  - destruct x as [s|s| |s m e]; simpl in Hs; subst; reflexivity.
  - destruct x as [s|s| |s m e]; simpl in Hs; subst; simpl;
      try reflexivity; discriminate.
  - now apply cmd_speed_PWM_freq_signbit.
Qed.

Lemma cmd_speed_PWM_nonnegative_witness :
  let c := {| locals := {| speed_state := Idle; speed_command := F32.zero |};
              drv := {| PIN_DIR := HIGH; PIN_BRAKE := LOW;
                        CLKIN_tone := F64.of_Z 0 |};
              queue := [F32.of_Z (-1000)] |} in
  let c' := {| locals := {| speed_state := Accelerating;
                            speed_command := F32.of_Z (-1000) |};
               drv := cmd_speed_PWM (F32.of_Z 1000) (drv c);
               queue := [] |} in
  let x := F32.of_Z 1000 in
  (x = F32.of_Z 0 \/ x = fabsf (speed_command (locals c'))) /\
  signbit x = false /\
  F32.ltb x F32.zero = false /\
  (F32.is_nan x = false -> F32.leb F32.zero x = true) /\
  signbit (cmd_speed_PWM_freq x) = false.
Proof.
  intros c c' x.
  apply (cmd_speed_PWM_nonnegative c c' (F32.opp f32_20) x
           [Cmd_speed_PWM x]).
  - reflexivity.
  - left. reflexivity.
Defined.

(** * Further properties of the firmware *)

(** ** Bounds through an inexact rounding, a quotient and a product *)

Section RoundingBounds.
Variables prec emax : Z.
Hypothesis Hprec : 0 < prec.

(** When the value being rounded lies strictly between [m] and [m + 1]
    units and a representable bound is not below [m + 1] units, the result
    is not above the bound, whatever the position inside the unit. *)
Lemma binary_round_aux_le_next (s : bool) (m e : Z) (l : location)
    (Mb : positive) (Eb : Z) :
  0 < m -> e <= fexp prec emax (Zdigits2 m + e) ->
  bounded prec emax Mb Eb = true ->
  dyadic_le (m + 1) e (Zpos Mb) Eb ->
  binary_round_aux prec emax s m e l = S754_zero s \/
  exists (m'' : positive) (e'' : Z),
    binary_round_aux prec emax s m e l = S754_finite s m'' e'' /\
    bounded prec emax m'' e'' = true /\
    dyadic_le (Zpos m'') e'' (Zpos Mb) Eb.
Proof.
  intros Hm He Hb Hle.
  apply andb_true_iff in Hb. destruct Hb as [Hcb Hbb].
  apply Z.leb_le in Hbb.
  destruct (binary_round_aux_shape prec emax Hprec s m e l Hm He)
    as (mr & _ & Hmr & Hres).
  set (E := fexp prec emax (Zdigits2 m + e)) in *.
  destruct Hres as [[_ Hz] | (m'' & e'' & HEe & Hval & Hcan & Hres)];
    [ left; exact Hz | right ].
  assert (Hle0 : dyadic_le m e (Zpos Mb) Eb).
  { eapply dyadic_le_trans; [ | exact Hle ].
    apply (dyadic_le_of_scaled e); [ lia | lia | ].
    rewrite Z.sub_diag, Z.pow_0_r. lia. }
  assert (HEb : E <= Eb).
  { rewrite <- (canonical_fexp _ _ _ _ Hcb). apply fexp_mono.
    apply dyadic_le_digits; lia || assumption. }
  assert (Hmle : mr <= Zpos Mb * 2 ^ (Eb - E)).
  { assert (HeEb : e <= Eb) by lia.
    pose proof (dyadic_le_scaled e (m + 1) e (Zpos Mb) Eb
                  (Z.le_refl e) HeEb Hle) as Hs.
    rewrite Z.sub_diag, Z.pow_0_r, Z.mul_1_r in Hs.
    replace (Eb - e) with ((Eb - E) + (E - e)) in Hs by lia.
    rewrite Z.pow_add_r, Z.mul_assoc in Hs by lia.
    set (N := Zpos Mb * 2 ^ (Eb - E)) in *.
    assert (Hp : 0 < 2 ^ (E - e)) by (apply Z.pow_pos_nonneg; lia).
    assert (m / 2 ^ (E - e) < N); [ | lia ].
    apply Z.div_lt_upper_bound; lia. }
  assert (Hle'' : dyadic_le (Zpos m'') e'' (Zpos Mb) Eb).
  { apply (dyadic_le_of_scaled E); [ lia | lia | ]. now rewrite Hval. }
  pose proof (canonical_exp_le _ _ _ _ _ _ Hcan Hcb Hle'') as He''.
  exists m'', e''. rewrite Hres.
  assert (Hfin : (e'' <=? emax - prec) = true) by (apply Z.leb_le; lia).
  rewrite Hfin. repeat split; [ | exact Hle'' ].
  unfold bounded. now rewrite Hcan, Hfin.
Qed.

Lemma new_location_exact (nb_steps : Z) : new_location nb_steps 0 = loc_Exact.
Proof.
  unfold new_location, new_location_even, new_location_odd.
  now destruct (Z.even nb_steps).
Qed.

Lemma iter_shr_1_zero (k : nat) (mrs : shr_record) :
  shr_m mrs = 0 ->
  shr_m (Nat.iter (S k) shr_1 mrs) = 0 /\
  shr_r (Nat.iter (S k) shr_1 mrs) = false.
Proof.
  intros Hm. induction k as [|k IH].
  - destruct mrs as [m r s]. cbn in Hm. subst m. split; reflexivity.
  - rewrite Nat.iter_succ. destruct IH as [IHm IHr].
    destruct (Nat.iter (S k) shr_1 mrs) as [m r s]. cbn in IHm. subst m.
    split; reflexivity.
Qed.

(** Rounding a value below one unit of a tiny exponent gives a zero or the
    smallest positive number of the format. *)
Lemma binary_round_aux_tiny (s : bool) (e : Z) (l : location) :
  e <= emin prec emax -> emin prec emax <= emax - prec ->
  binary_round_aux prec emax s 0 e l = S754_zero s \/
  binary_round_aux prec emax s 0 e l = S754_finite s 1 (emin prec emax).
Proof.
  intros He Hemin.
  assert (Hf : fexp prec emax e = emin prec emax) by (unfold fexp; lia).
  remember (binary_round_aux prec emax s 0 e l) as X eqn:HX.
  unfold binary_round_aux, shr_fexp at 1 in HX.
  change (Zdigits2 0 + e) with e in HX. rewrite Hf in HX.
  destruct (emin prec emax - e) as [|p|p] eqn:Hn; [ | | lia ].
  - assert (e = emin prec emax) as -> by lia. cbn [shr] in HX.
    assert (Hzero :
      (let '(mrs'', e'') := shr_fexp prec emax 0 (emin prec emax) loc_Exact in
       match shr_m mrs'' with
       | 0 => S754_zero s
       | Zpos m => if e'' <=? emax - prec then S754_finite s m e''
                   else S754_infinity s
       | Zneg _ => S754_nan
       end) = S754_zero s).
    { pose proof (shr_fexp_zero prec emax (emin prec emax)) as Hz.
      destruct (shr_fexp prec emax 0 (emin prec emax) loc_Exact) as [mrs e''].
      cbn [fst] in Hz. now rewrite Hz. }
    assert (Hone :
      (let '(mrs'', e'') := shr_fexp prec emax 1 (emin prec emax) loc_Exact in
       match shr_m mrs'' with
       | 0 => S754_zero s
       | Zpos m => if e'' <=? emax - prec then S754_finite s m e''
                   else S754_infinity s
       | Zneg _ => S754_nan
       end) = S754_finite s 1 (emin prec emax)).
    { unfold shr_fexp. change (Zdigits2 1) with 1.
      rewrite (fexp_emin_1 prec emax Hprec), Z.sub_diag.
      cbn [shr shr_m shr_record_of_loc].
      apply Z.leb_le in Hemin. now rewrite Hemin. }
    destruct l as [|[ | | ]];
      cbn [shr_record_of_loc shr_m loc_of_shr_record
           round_nearest_even Z.even Z.add] in HX;
      rewrite ?Hzero, ?Hone in HX; subst X; auto.
  - cbn [shr] in HX. rewrite iter_pos_nat in HX.
    destruct (Pos2Nat.is_succ p) as [k Hk]. rewrite Hk in HX.
    destruct (iter_shr_1_zero k (shr_record_of_loc 0 l)
                (shr_record_of_loc_m 0 l)) as [Hm Hr].
    destruct (Nat.iter (S k) shr_1 (shr_record_of_loc 0 l)) as [m r s0].
    cbn in Hm, Hr. subst m r.
    assert (Hmr : round_nearest_even
                    (shr_m {| shr_m := 0; shr_r := false; shr_s := s0 |})
                    (loc_of_shr_record
                       {| shr_m := 0; shr_r := false; shr_s := s0 |}) = 0)
      by now destruct s0.
    rewrite Hmr in HX.
    pose proof (shr_fexp_zero prec emax (e + Zpos p)) as Hz.
    destruct (shr_fexp prec emax 0 (e + Zpos p) loc_Exact) as [mrs e''].
    cbn [fst] in Hz. rewrite Hz in HX. now left.
Qed.

(** The integer quotient [SFdiv_core_binary] hands to the rounding. *)
Lemma SFdiv_core_binary_spec (m1 m2 : positive) (e1 e2 : Z) :
  exists (q r e' : Z) (l : location),
    SFdiv_core_binary prec emax (Zpos m1) e1 (Zpos m2) e2 = (q, e', l) /\
    e' <= e1 - e2 /\
    e' <= fexp prec emax
            (Zdigits2 (Zpos m1) + e1 - (Zdigits2 (Zpos m2) + e2)) /\
    Zpos m1 * 2 ^ (e1 - e2 - e') = q * Zpos m2 + r /\
    0 <= r < Zpos m2 /\
    (r = 0 -> l = loc_Exact) /\
    0 <= q /\
    (0 <= Zdigits2 (Zpos m1) + e1 - (Zdigits2 (Zpos m2) + e2) - 1 - e' ->
     2 ^ (Zdigits2 (Zpos m1) + e1 - (Zdigits2 (Zpos m2) + e2) - 1 - e') <= q) /\
    (0 < q -> e' <= fexp prec emax (Zdigits2 q + e')) /\
    (q = 0 -> e' <= emin prec emax).
Proof.
  unfold SFdiv_core_binary.
  set (D := Zdigits2 (Zpos m1) + e1 - (Zdigits2 (Zpos m2) + e2)).
  set (e' := Z.min (fexp prec emax D) (e1 - e2)).
  set (sh := e1 - e2 - e').
  set (m' := match sh with
             | 0 => Zpos m1
             | Zpos _ => Z.shiftl (Zpos m1) sh
             | Zneg _ => 0
             end).
  assert (Hsh : 0 <= sh) by (unfold sh, e'; lia).
  assert (Hm' : m' = Zpos m1 * 2 ^ sh).
  { unfold m'. destruct sh as [|p|p] eqn:Esh; try lia.
    apply Z.shiftl_mul_pow2. lia. }
  clearbody m'.
  assert (Hp : 0 < 2 ^ sh) by (apply Z.pow_pos_nonneg; lia).
  pose proof (Z.div_eucl_eq m' (Zpos m2) ltac:(lia)) as Heq.
  pose proof (Z.mod_pos_bound m' (Zpos m2) ltac:(lia)) as Hr.
  assert (Hqd : fst (Z.div_eucl m' (Zpos m2)) = m' / Zpos m2) by reflexivity.
  unfold Z.modulo in Hr.
  destruct (Z.div_eucl m' (Zpos m2)) as [q r]. cbn [fst] in Hqd.
  pose proof (Zdigits2_bounds (Zpos m1) ltac:(lia)) as [H1lo H1hi].
  pose proof (Zdigits2_bounds (Zpos m2) ltac:(lia)) as [H2lo H2hi].
  pose proof (Zdigits2_pos (Zpos m1) ltac:(lia)) as Hd1.
  pose proof (Zdigits2_pos (Zpos m2) ltac:(lia)) as Hd2.
  assert (Hq0 : 0 <= q).
  { rewrite Hqd. apply Z.div_pos; lia. }
  assert (Hqlo : 0 <= D - 1 - e' -> 2 ^ (D - 1 - e') <= q).
  { intros Hk. rewrite Hqd. apply Z.div_le_lower_bound; [ lia | ].
    rewrite Hm'.
    assert (Hpow : 2 ^ Zdigits2 (Zpos m2) * 2 ^ (D - 1 - e')
                   = 2 ^ (Zdigits2 (Zpos m1) - 1) * 2 ^ sh).
    { rewrite <- !Z.pow_add_r by lia. f_equal. unfold D, sh. lia. }
    assert (0 < 2 ^ (D - 1 - e')) by (apply Z.pow_pos_nonneg; lia).
    nia. }
  assert (Hcase : fexp prec emax D = emin prec emax /\ e' <= emin prec emax
                  \/ prec - 1 <= D - 1 - e').
  { unfold e', fexp, emin. lia. }
  exists q, r, e', (new_location (Zpos m2) r).
  split; [ reflexivity | ].
  split; [ unfold e'; lia | ].
  split; [ unfold e'; lia | ].
  split; [ fold sh; rewrite <- Hm'; lia | ].
  split; [ lia | ].
  split; [ intros ->; apply new_location_exact | ].
  split; [ exact Hq0 | ].
  split; [ exact Hqlo | ].
  split.
  - intros Hq. destruct Hcase as [[Hc1 Hc2] | Hc].
    + etransitivity; [ exact Hc2 | ]. unfold fexp. lia.
    + specialize (Hqlo ltac:(lia)).
      pose proof (Zdigits2_bounds q Hq) as [_ Hqhi].
      pose proof (Zdigits2_pos q Hq).
      assert (Hlt : 2 ^ (D - 1 - e') < 2 ^ Zdigits2 q) by lia.
      apply Z.pow_lt_mono_r_iff in Hlt; [ | lia | lia ].
      transitivity (fexp prec emax D); [ unfold e'; lia | ].
      apply fexp_mono. lia.
  - intros Hq. destruct Hcase as [[Hc1 Hc2] | Hc]; [ exact Hc2 | ].
    specialize (Hqlo ltac:(lia)).
    assert (0 < 2 ^ (D - 1 - e')) by (apply Z.pow_pos_nonneg; lia). lia.
Qed.

(** A quotient is not above a representable number that is not below the
    exact quotient. *)
Lemma SFdiv_finite_le (s1 s2 : bool) (m1 m2 : positive) (e1 e2 : Z)
    (Mh : positive) (Eh : Z) :
  bounded prec emax Mh Eh = true ->
  dyadic_le (Zpos m1) e1 (Zpos Mh * Zpos m2) (Eh + e2) ->
  SFdiv prec emax (S754_finite s1 m1 e1) (S754_finite s2 m2 e2)
    = S754_zero (xorb s1 s2) \/
  exists (m : positive) (e : Z),
    SFdiv prec emax (S754_finite s1 m1 e1) (S754_finite s2 m2 e2)
      = S754_finite (xorb s1 s2) m e /\
    bounded prec emax m e = true /\
    dyadic_le (Zpos m) e (Zpos Mh) Eh.
Proof.
  intros Hbh Hhi. cbn [SFdiv].
  destruct (SFdiv_core_binary_spec m1 m2 e1 e2)
    as (q & r & e' & l & -> & He'1 & He'D & Hqr & Hr & Hl & Hq0 & _ & Hfq & Hq00).
  set (D := Zdigits2 (Zpos m1) + e1 - (Zdigits2 (Zpos m2) + e2)) in *.
  set (sh := e1 - e2 - e') in *.
  assert (Hsh : 0 <= sh) by (unfold sh; lia).
  pose proof Hbh as Hbh'. apply andb_true_iff in Hbh'.
  destruct Hbh' as [Hch Heh]. apply Z.leb_le in Heh.
  pose proof (canonical_fexp _ _ _ _ Hch) as Hfh.
  pose proof (Zdigits2_bounds (Zpos m2) ltac:(lia)) as [H2lo H2hi].
  pose proof (Zdigits2_pos (Zpos m2) ltac:(lia)) as Hd2.
  pose proof (Zdigits2_bounds (Zpos Mh) ltac:(lia)) as [Hhlo Hhhi].
  pose proof (Zdigits2_pos (Zpos Mh) ltac:(lia)) as Hdh.
  assert (Hemin : emin prec emax <= Eh) by (rewrite <- Hfh; unfold fexp; lia).
  destruct (Z.eq_dec q 0) as [Hqz | Hqnz].
  - subst q.
    destruct (binary_round_aux_tiny (xorb s1 s2) e' l (Hq00 eq_refl)
                ltac:(lia)) as [-> | ->]; [ now left | right ].
    exists 1%positive, (emin prec emax). split; [ reflexivity | ].
    assert (Hb1 : bounded prec emax 1 (emin prec emax) = true).
    { unfold bounded, canonical_mantissa.
      change (Zpos (digits2_pos 1)) with 1.
      rewrite (fexp_emin_1 prec emax Hprec), Z.eqb_refl.
      apply Z.leb_le. lia. }
    split; [ exact Hb1 | ].
    apply (dyadic_le_of_scaled (emin prec emax)); [ lia | lia | ].
    rewrite Z.sub_diag, Z.pow_0_r.
    assert (0 < 2 ^ (Eh - emin prec emax)) by (apply Z.pow_pos_nonneg; lia).
    nia.
  - assert (Hq : 0 < q) by lia.
    assert (HDh : D <= Zdigits2 (Zpos Mh) + Eh).
    { pose proof (dyadic_le_digits (Zpos m1) e1 (Zpos Mh * Zpos m2) (Eh + e2)
                    ltac:(lia) ltac:(lia) Hhi) as Hd.
      assert (Zdigits2 (Zpos Mh * Zpos m2)
              <= Zdigits2 (Zpos Mh) + Zdigits2 (Zpos m2)).
      { pose proof (Zdigits2_bounds (Zpos Mh * Zpos m2) ltac:(lia)) as [Ha _].
        pose proof (Zdigits2_pos (Zpos Mh * Zpos m2) ltac:(lia)).
        assert (Hlt : 2 ^ (Zdigits2 (Zpos Mh * Zpos m2) - 1)
                      < 2 ^ (Zdigits2 (Zpos Mh) + Zdigits2 (Zpos m2))).
        { rewrite Z.pow_add_r by lia. nia. }
        apply Z.pow_lt_mono_r_iff in Hlt; lia. }
      unfold D. lia. }
    assert (He'h : e' <= Eh).
    { rewrite <- Hfh. etransitivity; [ exact He'D | ]. now apply fexp_mono. }
    assert (Ha1 : e' + e2 <= e1) by (unfold sh in Hsh; lia).
    assert (Ha2 : e' + e2 <= Eh + e2) by lia.
    pose proof (dyadic_le_scaled (e' + e2) _ _ _ _ Ha1 Ha2 Hhi) as Hs.
    replace (Eh + e2 - (e' + e2)) with (Eh - e') in Hs by lia.
    replace (e1 - (e' + e2)) with sh in Hs by (unfold sh; lia).
    fold sh in Hqr. rewrite Hqr in Hs.
    assert (0 < 2 ^ (Eh - e')) by (apply Z.pow_pos_nonneg; lia).
    destruct (Z.eq_dec r 0) as [Hr0 | Hr0].
    + rewrite (Hl Hr0). apply (binary_round_aux_le prec emax Hprec);
        try assumption; [ now apply Hfq | ].
      apply (dyadic_le_of_scaled e'); [ lia | lia | ].
      rewrite Z.sub_diag, Z.pow_0_r, Z.mul_1_r.
      subst r. rewrite Z.add_0_r in Hs.
      replace (Zpos Mh * Zpos m2 * 2 ^ (Eh - e'))
        with (Zpos Mh * 2 ^ (Eh - e') * Zpos m2) in Hs by ring.
      apply Z.mul_le_mono_pos_r in Hs; lia.
    + apply binary_round_aux_le_next; try assumption; [ now apply Hfq | ].
      apply (dyadic_le_of_scaled e'); [ lia | lia | ].
      rewrite Z.sub_diag, Z.pow_0_r, Z.mul_1_r.
      destruct (Z.le_gt_cases (q + 1) (Zpos Mh * 2 ^ (Eh - e'))) as [Hc | Hc];
        [ exact Hc | exfalso ].
      assert (Zpos Mh * 2 ^ (Eh - e') <= q) by lia.
      assert (Zpos Mh * 2 ^ (Eh - e') * Zpos m2 <= q * Zpos m2)
        by (apply Z.mul_le_mono_nonneg_r; lia).
      lia.
Qed.

(** A quotient is not below a representable number that is not above the
    exact quotient. *)
Lemma SFdiv_finite_ge_bound (s1 s2 : bool) (m1 m2 : positive) (e1 e2 : Z)
    (Ml : positive) (El : Z) :
  bounded prec emax Ml El = true ->
  dyadic_le (Zpos Ml * Zpos m2) (El + e2) (Zpos m1) e1 ->
  SFdiv prec emax (S754_finite s1 m1 e1) (S754_finite s2 m2 e2)
    = S754_infinity (xorb s1 s2) \/
  exists (m : positive) (e : Z),
    SFdiv prec emax (S754_finite s1 m1 e1) (S754_finite s2 m2 e2)
      = S754_finite (xorb s1 s2) m e /\
    bounded prec emax m e = true /\
    dyadic_le (Zpos Ml) El (Zpos m) e.
Proof.
  intros Hbl Hlo. cbn [SFdiv].
  destruct (SFdiv_core_binary_spec m1 m2 e1 e2)
    as (q & r & e' & l & -> & He'1 & He'D & Hqr & Hr & Hl & Hq0 & Hqlo & Hfq & _).
  set (D := Zdigits2 (Zpos m1) + e1 - (Zdigits2 (Zpos m2) + e2)) in *.
  set (sh := e1 - e2 - e') in *.
  assert (Hsh : 0 <= sh) by (unfold sh; lia).
  pose proof Hbl as Hbl'. apply andb_true_iff in Hbl'.
  destruct Hbl' as [Hcl Hel]. apply Z.leb_le in Hel.
  pose proof (canonical_fexp _ _ _ _ Hcl) as Hfl.
  pose proof (Zdigits2_bounds (Zpos Ml) ltac:(lia)) as [Hllo Hlhi].
  pose proof (Zdigits2_pos (Zpos Ml) ltac:(lia)) as Hdl.
  assert (Hlq : dyadic_le (Zpos Ml) El q e' /\ 0 < q).
  { destruct (Z.le_gt_cases e' El) as [Hc | Hc].
    - assert (Ha1 : e' + e2 <= El + e2) by lia.
      assert (Ha2 : e' + e2 <= e1) by (unfold sh in Hsh; lia).
      pose proof (dyadic_le_scaled (e' + e2) _ _ _ _ Ha1 Ha2 Hlo) as Hs.
      replace (El + e2 - (e' + e2)) with (El - e') in Hs by lia.
      replace (e1 - (e' + e2)) with sh in Hs by (unfold sh; lia).
      fold sh in Hqr. rewrite Hqr in Hs.
      assert (0 < 2 ^ (El - e')) by (apply Z.pow_pos_nonneg; lia).
      assert (Hq : Zpos Ml * 2 ^ (El - e') <= q).
      { destruct (Z.le_gt_cases (Zpos Ml * 2 ^ (El - e')) q) as [Hq | Hq];
          [ exact Hq | exfalso ].
        assert (q + 1 <= Zpos Ml * 2 ^ (El - e')) by lia.
        assert ((q + 1) * Zpos m2 <= Zpos Ml * 2 ^ (El - e') * Zpos m2)
          by (apply Z.mul_le_mono_nonneg_r; lia).
        lia. }
      split.
      + apply (dyadic_le_of_scaled e'); [ lia | lia | ].
        rewrite Z.sub_diag, Z.pow_0_r. lia.
      + assert (0 < Zpos Ml * 2 ^ (El - e')) by (apply Z.mul_pos_pos; lia).
        lia.
    - assert (HlD : Zdigits2 (Zpos Ml) + El < D).
      { destruct (Z.le_gt_cases D (Zdigits2 (Zpos Ml) + El)) as [Hc' | Hc'];
          [ | lia ].
        apply (fexp_mono prec emax) in Hc'. lia. }
      assert (Hk : 0 <= D - 1 - e').
      { revert Hfl He'D Hc HlD. unfold fexp, emin. lia. }
      specialize (Hqlo Hk).
      assert (0 < 2 ^ (D - 1 - e')) by (apply Z.pow_pos_nonneg; lia).
      split; [ | lia ].
      apply (dyadic_le_of_scaled El); [ lia | lia | ].
      rewrite Z.sub_diag, Z.pow_0_r, Z.mul_1_r.
      assert (Hpw : 2 ^ Zdigits2 (Zpos Ml) <= 2 ^ (D - 1 - e') * 2 ^ (e' - El)).
      { rewrite <- Z.pow_add_r by lia. apply Z.pow_le_mono_r; lia. }
      assert (0 < 2 ^ (e' - El)) by (apply Z.pow_pos_nonneg; lia).
      nia. }
  destruct Hlq as [Hlq Hq].
  apply (binary_round_aux_ge prec emax Hprec); try assumption.
  now apply Hfq.
Qed.

(** A quotient lies between two representable numbers that bracket the
    exact quotient. *)
Lemma SFdiv_finite_between (s1 s2 : bool) (m1 m2 : positive) (e1 e2 : Z)
    (Ml Mh : positive) (El Eh : Z) :
  bounded prec emax Ml El = true ->
  bounded prec emax Mh Eh = true ->
  dyadic_le (Zpos Ml * Zpos m2) (El + e2) (Zpos m1) e1 ->
  dyadic_le (Zpos m1) e1 (Zpos Mh * Zpos m2) (Eh + e2) ->
  exists (m : positive) (e : Z),
    SFdiv prec emax (S754_finite s1 m1 e1) (S754_finite s2 m2 e2)
      = S754_finite (xorb s1 s2) m e /\
    bounded prec emax m e = true /\
    dyadic_le (Zpos Ml) El (Zpos m) e /\
    dyadic_le (Zpos m) e (Zpos Mh) Eh.
Proof.
  intros Hbl Hbh Hlo Hhi.
  destruct (SFdiv_finite_ge_bound s1 s2 m1 m2 e1 e2 Ml El Hbl Hlo)
    as [Hinf | (m & e & Hr & Hb & Hle)];
  destruct (SFdiv_finite_le s1 s2 m1 m2 e1 e2 Mh Eh Hbh Hhi)
    as [Hz | (m' & e' & Hr' & Hb' & Hle')].
  - rewrite Hinf in Hz. discriminate.
  - rewrite Hinf in Hr'. discriminate.
  - rewrite Hr in Hz. discriminate.
  - exists m, e. rewrite Hr in Hr' |- *. injection Hr' as <- <-.
    repeat split; assumption.
Qed.

(** A product is not below a representable number that is not above the
    exact product. *)
Lemma SFmul_finite_ge (s1 s2 : bool) (m1 m2 : positive) (e1 e2 : Z)
    (Mb : positive) (Eb : Z) :
  Zdigits2 (Zpos m2) = prec ->
  bounded prec emax Mb Eb = true ->
  dyadic_le (Zpos Mb) Eb (Zpos m1 * Zpos m2) (e1 + e2) ->
  SFmul prec emax (S754_finite s1 m1 e1) (S754_finite s2 m2 e2)
    = S754_infinity (xorb s1 s2) \/
  exists (m'' : positive) (e'' : Z),
    SFmul prec emax (S754_finite s1 m1 e1) (S754_finite s2 m2 e2)
      = S754_finite (xorb s1 s2) m'' e'' /\
    bounded prec emax m'' e'' = true /\
    dyadic_le (Zpos Mb) Eb (Zpos m'') e''.
Proof.
  intros Hd Hb Hle. cbn [SFmul].
  apply (binary_round_aux_ge prec emax Hprec); try assumption; [ lia | ].
  rewrite Pos2Z.inj_mul.
  assert (Hdd : prec <= Zdigits2 (Zpos m1 * Zpos m2)).
  { pose proof (Zdigits2_bounds (Zpos m2) ltac:(lia)) as [Hlo _].
    pose proof (Zdigits2_bounds (Zpos m1 * Zpos m2) ltac:(lia)) as [_ Hhi].
    rewrite Hd in Hlo.
    assert (Hlt : 2 ^ (prec - 1) < 2 ^ Zdigits2 (Zpos m1 * Zpos m2)) by nia.
    apply Z.pow_lt_mono_r_iff in Hlt; try lia.
    pose proof (Zdigits2_pos (Zpos m1 * Zpos m2) ltac:(lia)). lia. }
  unfold fexp, emin. lia.
Qed.

(** A product lies between two representable numbers that bracket the
    exact product. *)
Lemma SFmul_finite_between (s1 s2 : bool) (m1 m2 : positive) (e1 e2 : Z)
    (Ml Mh : positive) (El Eh : Z) :
  Zdigits2 (Zpos m2) = prec ->
  bounded prec emax Ml El = true ->
  bounded prec emax Mh Eh = true ->
  dyadic_le (Zpos Ml) El (Zpos m1 * Zpos m2) (e1 + e2) ->
  dyadic_le (Zpos m1 * Zpos m2) (e1 + e2) (Zpos Mh) Eh ->
  exists (m : positive) (e : Z),
    SFmul prec emax (S754_finite s1 m1 e1) (S754_finite s2 m2 e2)
      = S754_finite (xorb s1 s2) m e /\
    bounded prec emax m e = true /\
    dyadic_le (Zpos Ml) El (Zpos m) e /\
    dyadic_le (Zpos m) e (Zpos Mh) Eh.
Proof.
  intros Hd Hbl Hbh Hlo Hhi.
  destruct (SFmul_finite_ge s1 s2 m1 m2 e1 e2 Ml El Hd Hbl Hlo)
    as [Hinf | (m & e & Hr & Hb & Hle)];
  destruct (SFmul_finite_le prec emax Hprec s1 s2 m1 m2 e1 e2 Mh Eh Hd Hbh Hhi)
    as [Hz | (m' & e' & Hr' & Hb' & Hle')].
  - rewrite Hinf in Hz. discriminate.
  - rewrite Hinf in Hr'. discriminate.
  - rewrite Hr in Hz. discriminate.
  - exists m, e. rewrite Hr in Hr' |- *. injection Hr' as <- <-.
    repeat split; assumption.
Qed.

(** The conversion of a positive integer lies between two representable
    numbers that bracket it. *)
Lemma binary_round_between (s : bool) (m : positive) (e : Z)
    (Ml Mh : positive) (El Eh : Z) :
  bounded prec emax Ml El = true ->
  bounded prec emax Mh Eh = true ->
  dyadic_le (Zpos Ml) El (Zpos m) e ->
  dyadic_le (Zpos m) e (Zpos Mh) Eh ->
  exists (m' : positive) (e' : Z),
    binary_round prec emax s m e = S754_finite s m' e' /\
    bounded prec emax m' e' = true /\
    dyadic_le (Zpos Ml) El (Zpos m') e' /\
    dyadic_le (Zpos m') e' (Zpos Mh) Eh.
Proof.
  intros Hbl Hbh Hlo Hhi.
  destruct (binary_round_ge prec emax Hprec s m e Ml El Hbl Hlo)
    as [Hinf | (m1 & e1 & Hr & Hb & Hle)];
  destruct (binary_round_le prec emax Hprec s m e Mh Eh Hbh Hhi)
    as [Hz | (m' & e' & Hr' & Hb' & Hle')].
  - rewrite Hinf in Hz. discriminate.
  - rewrite Hinf in Hr'. discriminate.
  - rewrite Hr in Hz. discriminate.
  - exists m1, e1. rewrite Hr in Hr' |- *. injection Hr' as <- <-.
    repeat split; assumption.
Qed.
End RoundingBounds.

(** ** Comparison with a bound *)

Lemma SFleb_finite_pos (prec emax : Z) (m1 m2 : positive) (e1 e2 : Z) :
  0 < prec ->
  canonical_mantissa prec emax m1 e1 = true ->
  canonical_mantissa prec emax m2 e2 = true ->
  (SFleb (S754_finite false m1 e1) (S754_finite false m2 e2) = true <->
   dyadic_le (Zpos m1) e1 (Zpos m2) e2).
Proof.
  intros Hprec H1 H2.
  rewrite <- (mag_compare_le prec emax Hprec m1 m2 e1 e2 H1 H2).
  unfold SFleb. rewrite SFcompare_pos.
  destruct (mag_compare m1 e1 m2 e2); split; congruence.
Qed.

Lemma bounded_canonical (prec emax : Z) (m : positive) (e : Z) :
  bounded prec emax m e = true -> canonical_mantissa prec emax m e = true.
Proof. intros H. apply andb_true_iff in H. tauto. Qed.

(** ** The range of the speed estimate *)

Section EstimatorBounds.
Variables Xl Xh Yl Yh Fl Fh Rl Rh : positive * Z.
Hypothesis HbXl : bounded F32.prec F32.emax (fst Xl) (snd Xl) = true.
Hypothesis HbXh : bounded F32.prec F32.emax (fst Xh) (snd Xh) = true.
Hypothesis HbYl : bounded F32.prec F32.emax (fst Yl) (snd Yl) = true.
Hypothesis HbYh : bounded F32.prec F32.emax (fst Yh) (snd Yh) = true.
Hypothesis HbFl : bounded F32.prec F32.emax (fst Fl) (snd Fl) = true.
Hypothesis HbFh : bounded F32.prec F32.emax (fst Fh) (snd Fh) = true.
Hypothesis HbRl : bounded F32.prec F32.emax (fst Rl) (snd Rl) = true.
Hypothesis HbRh : bounded F32.prec F32.emax (fst Rh) (snd Rh) = true.
Hypothesis HYl :
  dyadic_leb (Zpos (fst Yl) * 16000000) (snd Yl + -4)
             (Zpos (fst Xl)) (snd Xl) = true.
Hypothesis HYh :
  dyadic_leb (Zpos (fst Xh)) (snd Xh)
             (Zpos (fst Yh) * 16000000) (snd Yh + -4) = true.
Hypothesis HFl :
  dyadic_leb (Zpos (fst Yh) * Zpos (fst Fl)) (snd Yh + snd Fl)
             8388608 (-23) = true.
Hypothesis HFh :
  dyadic_leb 8388608 (-23)
             (Zpos (fst Yl) * Zpos (fst Fh)) (snd Yl + snd Fh) = true.
Hypothesis HRl :
  dyadic_leb (Zpos (fst Rl)) (snd Rl)
             (Zpos (fst Fl) * 15728640) (snd Fl + -20) = true.
Hypothesis HRh :
  dyadic_leb (Zpos (fst Fh) * 15728640) (snd Fh + -20)
             (Zpos (fst Rh)) (snd Rh) = true.

(** Interval arithmetic along [1 / (dt / 1000000) * 15]: when the interval
    converted to [float] lies in [[Xl, Xh]], the speed lies in [[Rl, Rh]]
    and has the sign the direction pin gives it. *)
Lemma readActual_rpm_between (dt : positive) (direction : bool) :
  dyadic_le (Zpos (fst Xl)) (snd Xl) (Zpos dt) 0 ->
  dyadic_le (Zpos dt) 0 (Zpos (fst Xh)) (snd Xh) ->
  exists (m : positive) (e : Z),
    readActual_rpm (Zpos dt) direction = S754_finite direction m e /\
    bounded F32.prec F32.emax m e = true /\
    dyadic_le (Zpos (fst Rl)) (snd Rl) (Zpos m) e /\
    dyadic_le (Zpos m) e (Zpos (fst Rh)) (snd Rh).
Proof.
  intros Hlo Hhi.
  apply dyadic_leb_spec in HYl, HYh, HFl, HFh, HRl, HRh.
  unfold readActual_rpm, readActual_frequency.
  change (F32.of_Z 1) with (S754_finite false 8388608 (-23)).
  change (F32.of_Z 1000000) with (S754_finite false 16000000 (-4)).
  change (F32.of_Z 15) with (S754_finite false 15728640 (-20)).
  unfold F32.of_Z. cbn [binary_normalize].
  destruct (binary_round_between F32.prec F32.emax F32_prec_pos false dt 0
              (fst Xl) (fst Xh) (snd Xl) (snd Xh) HbXl HbXh Hlo Hhi)
    as (mx & ex & -> & Hbx & Hxl & Hxh).
  unfold F32.div.
  destruct (SFdiv_finite_between F32.prec F32.emax F32_prec_pos false false
              mx 16000000 ex (-4) (fst Yl) (fst Yh) (snd Yl) (snd Yh)
              HbYl HbYh
              (dyadic_le_trans _ _ _ _ _ _ HYl Hxl)
              (dyadic_le_trans _ _ _ _ _ _ Hxh HYh))
    as (my & ey & -> & Hby & Hyl & Hyh).
  cbn [xorb].
  assert (Hf1 : dyadic_le (Zpos (fst Fl) * Zpos my) (snd Fl + ey)
                  8388608 (-23)).
  { rewrite (Z.mul_comm (Zpos (fst Fl))), (Z.add_comm (snd Fl)).
    eapply dyadic_le_trans; [ | exact HFl ].
    apply dyadic_le_mul; [ lia | exact Hyh ]. }
  assert (Hf2 : dyadic_le 8388608 (-23)
                  (Zpos (fst Fh) * Zpos my) (snd Fh + ey)).
  { rewrite (Z.mul_comm (Zpos (fst Fh))), (Z.add_comm (snd Fh)).
    eapply dyadic_le_trans; [ exact HFh | ].
    apply dyadic_le_mul; [ lia | exact Hyl ]. }
  destruct (SFdiv_finite_between F32.prec F32.emax F32_prec_pos false false
              8388608 my (-23) ey (fst Fl) (fst Fh) (snd Fl) (snd Fh)
              HbFl HbFh Hf1 Hf2)
    as (mf & ef & -> & Hbf & Hfl & Hfh).
  cbn [xorb].
  assert (Hr1 : dyadic_le (Zpos (fst Rl)) (snd Rl)
                  (Zpos mf * 15728640) (ef + -20)).
  { eapply dyadic_le_trans; [ exact HRl | ].
    apply dyadic_le_mul; [ lia | exact Hfl ]. }
  assert (Hr2 : dyadic_le (Zpos mf * 15728640) (ef + -20)
                  (Zpos (fst Rh)) (snd Rh)).
  { eapply dyadic_le_trans; [ | exact HRh ].
    apply dyadic_le_mul; [ lia | exact Hfh ]. }
  unfold F32.mul, F32.opp. cbn [SFopp negb].
  destruct direction; cbn [Bool.eqb LOW].
  - destruct (SFmul_finite_between F32.prec F32.emax F32_prec_pos false true
                mf 15728640 ef (-20) (fst Rl) (fst Rh) (snd Rl) (snd Rh)
                ltac:(reflexivity) HbRl HbRh Hr1 Hr2)
      as (m & e & -> & Hb & Hl & Hh).
    exists m, e. repeat split; assumption.
  - destruct (SFmul_finite_between F32.prec F32.emax F32_prec_pos false false
                mf 15728640 ef (-20) (fst Rl) (fst Rh) (snd Rl) (snd Rh)
                ltac:(reflexivity) HbRl HbRh Hr1 Hr2)
      as (m & e & -> & Hb & Hl & Hh).
    exists m, e. repeat split; assumption.
Qed.
End EstimatorBounds.

(** ** The speed estimator, for every interval *)

Lemma uint32_sub_range (a b : Z) : 0 <= uint32_sub a b < 4294967296.
Proof. unfold uint32_sub, uint32, wrap. apply Z.mod_pos_bound. reflexivity. Qed.

(** Every interval from 2 us up gives a speed between 0.00349 and
    7500000.5 RPM. *)
Lemma readActual_rpm_from_2 (dt : positive) (direction : bool) :
  2 <= Zpos dt < 4294967296 ->
  exists (m : positive) (e : Z),
    readActual_rpm (Zpos dt) direction = S754_finite direction m e /\
    bounded F32.prec F32.emax m e = true /\
    dyadic_le 14999998 (-32) (Zpos m) e /\
    dyadic_le (Zpos m) e 15000001 (-1).
Proof.
  intros Hdt.
  apply (readActual_rpm_between
           (8388608%positive, -22) (8388608%positive, 9)
           (8796093%positive, -42) (8796094%positive, -11)
           (15999998%positive, -36) (16000001%positive, -5)
           (14999998%positive, -32) (15000001%positive, -1));
    try reflexivity; unfold dyadic_le; simpl; lia.
Qed.

(** From 6001 us up the speed is below 2500 RPM. *)
Lemma readActual_rpm_from_6001 (dt : positive) (direction : bool) :
  6001 <= Zpos dt < 4294967296 ->
  exists (m : positive) (e : Z),
    readActual_rpm (Zpos dt) direction = S754_finite direction m e /\
    bounded F32.prec F32.emax m e = true /\
    dyadic_le 14999998 (-32) (Zpos m) e /\
    dyadic_le (Zpos m) e 10238295 (-12).
Proof.
  intros Hdt.
  apply (readActual_rpm_between
           (12290048%positive, -11) (8388608%positive, 9)
           (12887049%positive, -31) (8796094%positive, -11)
           (15999998%positive, -36) (10920847%positive, -16)
           (14999998%positive, -32) (10238295%positive, -12));
    try reflexivity; unfold dyadic_le; simpl; lia.
Qed.

(** Up to 5999 us the speed is above 2500 RPM. *)
Lemma readActual_rpm_upto_5999 (dt : positive) (direction : bool) :
  Zpos dt <= 5999 ->
  exists (m : positive) (e : Z),
    readActual_rpm (Zpos dt) direction = S754_finite direction m e /\
    bounded F32.prec F32.emax m e = true /\
    dyadic_le 10241705 (-12) (Zpos m) e /\
    dyadic_le (Zpos m) e 15000001 0.
Proof.
  intros Hdt.
  apply (readActual_rpm_between
           (8388608%positive, -23) (12285952%positive, -11)
           (8796093%positive, -43) (12882755%positive, -31)
           (10924486%positive, -16) (16000001%positive, -4)
           (10241705%positive, -12) (15000001%positive, 0));
    try reflexivity; unfold dyadic_le; simpl; lia.
Qed.

(** X1: every speed the estimator publishes is a finite non-zero number
    with the sign of the direction pin (positive for LOW, negative for
    HIGH), between 0.003 RPM and 15,000,000 RPM in magnitude. *)
Theorem readActual_speed_range (last_time current_time : Z)
    (direction : bool) (s : Share) :
  uint32_sub current_time last_time <> 0 ->
  let rpm :=
    share_value
      (snd (task_readActual_iter last_time current_time direction s)) in
  F32.is_finite rpm = true /\ signbit rpm = direction /\
  F32.leb (F32.of_ratio 3 1000) (fabsf rpm) = true /\
  F32.leb (fabsf rpm) (F32.of_Z 15000000) = true.
Proof.
  intros Hnz. unfold task_readActual_iter.
  pose proof (uint32_sub_range current_time last_time) as Hr.
  destruct (Z.eqb_spec (uint32_sub current_time last_time) 0) as [H0 | _];
    [ contradiction | ].
  cbn [snd Share_put share_value].
  destruct (uint32_sub current_time last_time) as [|dt|dt]; try lia.
  destruct (Pos.eq_dec dt 1) as [-> | Hne].
  - destruct direction; vm_compute; repeat split; reflexivity.
  - destruct (readActual_rpm_from_2 dt direction ltac:(lia))
      as (m & e & -> & Hb & Hlo & Hhi).
    cbn [F32.is_finite signbit fabsf SFabs].
    change (F32.of_ratio 3 1000) with (S754_finite false 12884902 (-32)).
    change (F32.of_Z 15000000) with (S754_finite false 15000000 0).
    pose proof (bounded_canonical _ _ _ _ Hb) as Hc.
    repeat split.
    + apply (SFleb_finite_pos F32.prec F32.emax _ _ _ _ F32_prec_pos);
        [ reflexivity | exact Hc | ].
      eapply dyadic_le_trans; [ | exact Hlo ]. now apply dyadic_leb_spec.
    + apply (SFleb_finite_pos F32.prec F32.emax _ _ _ _ F32_prec_pos);
        [ exact Hc | reflexivity | ].
      eapply dyadic_le_trans; [ exact Hhi | ]. now apply dyadic_leb_spec.
Qed.

Lemma readActual_speed_range_witness :
  let rpm :=
    share_value (snd (task_readActual_iter 4294967000 704 HIGH share0)) in
  F32.is_finite rpm = true /\ signbit rpm = HIGH /\
  F32.leb (F32.of_ratio 3 1000) (fabsf rpm) = true /\
  F32.leb (fabsf rpm) (F32.of_Z 15000000) = true.
Proof.
  apply (readActual_speed_range 4294967000 704 HIGH share0).
  vm_compute. discriminate.
Defined.

(** X2: the published speed is within the 2500 RPM envelope exactly when
    the interval between the two edges is at least 6000 us. *)
Theorem readActual_within_envelope (last_time current_time : Z)
    (direction : bool) (s : Share) :
  uint32_sub current_time last_time <> 0 ->
  let rpm :=
    share_value
      (snd (task_readActual_iter last_time current_time direction s)) in
  F32.leb (fabsf rpm) f32_2500 = true <->
  6000 <= uint32_sub current_time last_time.
Proof.
  intros Hnz. unfold task_readActual_iter.
  pose proof (uint32_sub_range current_time last_time) as Hr.
  destruct (Z.eqb_spec (uint32_sub current_time last_time) 0) as [H0 | _];
    [ contradiction | ].
  cbn [snd Share_put share_value].
  destruct (uint32_sub current_time last_time) as [|dt|dt]; try lia.
  change f32_2500 with (S754_finite false 10240000 (-12)).
  destruct (Z.le_gt_cases (Zpos dt) 5999) as [Hs | Hs].
  - destruct (readActual_rpm_upto_5999 dt direction Hs)
      as (m & e & -> & Hb & Hlo & Hhi).
    cbn [fabsf SFabs]. pose proof (bounded_canonical _ _ _ _ Hb) as Hc.
    split; [ intros Hle; exfalso | lia ].
    apply (SFleb_finite_pos F32.prec F32.emax _ _ _ _ F32_prec_pos) in Hle;
      [ | exact Hc | reflexivity ].
    pose proof (dyadic_le_trans _ _ _ _ _ _ Hlo Hle) as Habs.
    apply dyadic_leb_spec in Habs. discriminate.
  - split; [ lia | intros _ ].
    destruct (Pos.eq_dec dt 6000) as [-> | Hne].
    + destruct direction; reflexivity.
    + destruct (readActual_rpm_from_6001 dt direction ltac:(lia))
        as (m & e & -> & Hb & Hlo & Hhi).
      cbn [fabsf SFabs]. pose proof (bounded_canonical _ _ _ _ Hb) as Hc.
      apply (SFleb_finite_pos F32.prec F32.emax _ _ _ _ F32_prec_pos);
        [ exact Hc | reflexivity | ].
      eapply dyadic_le_trans; [ exact Hhi | ]. now apply dyadic_leb_spec.
Qed.

Lemma readActual_within_envelope_witness :
  let rpm :=
    share_value (snd (task_readActual_iter 1000 6999 LOW share0)) in
  F32.leb (fabsf rpm) f32_2500 = true <-> 6000 <= uint32_sub 6999 1000.
Proof.
  apply (readActual_within_envelope 1000 6999 LOW share0).
  vm_compute. discriminate.
Defined.

(** X3: the interval is right across a wrap of the 32-bit microsecond
    counter: for two edges [d] microseconds apart, [0 < d < 2^32], the
    speed published is the one computed from [d], wherever the counter
    stood at the first edge; edges exactly [2^32] us apart are taken for
    a zero interval and the sample is dropped. *)
Theorem readActual_timer_wraparound (t0 d : Z) (direction : bool)
    (s : Share) :
  0 < d < 4294967296 ->
  task_readActual_iter (uint32 t0) (uint32 (t0 + d)) direction s
    = (uint32 (t0 + d), Share_put (readActual_rpm d direction) s) /\
  task_readActual_iter (uint32 t0) (uint32 (t0 + 4294967296)) direction s
    = (uint32 t0, s).
Proof.
  intros Hd. unfold task_readActual_iter, uint32_sub, uint32, wrap.
  change (2 ^ 32) with 4294967296.
  rewrite <- !Zminus_mod.
  replace (t0 + d - t0) with d by lia.
  replace (t0 + 4294967296 - t0) with (1 * 4294967296) by lia.
  rewrite Z.mod_mul by lia. rewrite (Z.mod_small d) by lia.
  destruct (Z.eqb_spec d 0) as [H0 | _]; [ lia | ].
  split; [ reflexivity | ].
  cbn [Z.eqb]. f_equal.
  replace (t0 + 4294967296) with (t0 + 1 * 4294967296) by lia.
  now rewrite Z.mod_add by lia.
Qed.

Lemma readActual_timer_wraparound_witness :
  task_readActual_iter (uint32 4294967000) (uint32 (4294967000 + 7000))
      LOW share0
    = (uint32 (4294967000 + 7000),
       Share_put (readActual_rpm 7000 LOW) share0) /\
  task_readActual_iter (uint32 4294967000)
      (uint32 (4294967000 + 4294967296)) LOW share0
    = (uint32 4294967000, share0).
Proof.
  apply (readActual_timer_wraparound 4294967000 7000 LOW share0). lia.
Defined.

Lemma binary_round_aux_opp (prec emax : Z) (s : bool) (m e : Z)
    (l : location) :
  binary_round_aux prec emax (negb s) m e l
    = SFopp (binary_round_aux prec emax s m e l).
Proof.
  unfold binary_round_aux.
  destruct (shr_fexp prec emax m e l) as [mrs' e'].
  destruct (shr_fexp prec emax _ e' loc_Exact) as [mrs'' e''].
  destruct (shr_m mrs''); [ reflexivity | | reflexivity ].
  now destruct (e'' <=? emax - prec).
Qed.

Lemma SFmul_opp_r (prec emax : Z) (x : spec_float) (s : bool)
    (m : positive) (e : Z) :
  SFmul prec emax x (S754_finite (negb s) m e)
    = SFopp (SFmul prec emax x (S754_finite s m e)).
Proof.
  destruct x as [sx|sx| |sx mx ex]; try destruct sx; destruct s;
    cbn [SFmul xorb negb];
    first [ reflexivity
          | exact (binary_round_aux_opp prec emax false _ _ _)
          | exact (binary_round_aux_opp prec emax true _ _ _) ].
Qed.

(** X4: the direction pin only sets the sign: for the same interval the
    speed published with the pin HIGH is the opposite of the one published
    with the pin LOW. *)
Theorem readActual_direction_antisymmetry (dt_us : Z) :
  readActual_rpm dt_us HIGH = F32.opp (readActual_rpm dt_us LOW).
Proof.
  unfold readActual_rpm. cbn [Bool.eqb HIGH LOW].
  change (F32.of_Z 15) with (S754_finite false 15728640 (-20)).
  unfold F32.mul, F32.opp. cbn [SFopp].
  apply (SFmul_opp_r F32.prec F32.emax _ false).
Qed.

(** ** The tone frequency *)

Lemma tone_of_command (x : F32.t) :
  command_in_envelope x -> tone_in_range (cmd_speed_PWM_freq (fabsf x)).
Proof.
  intros (Hv & Hlo & Hhi). unfold tone_in_range, cmd_speed_PWM_freq.
  change (F32.of_Z 15) with (S754_finite false 15728640 (-20)).
  change (F64.of_ratio 16667 100)
    with (S754_finite false 5864179296045629 (-45)).
  destruct x as [s|s| |s m e];
    [ | destruct s; discriminate | discriminate | ].
  - split; reflexivity.
  - pose proof (f32_abs_le_2500 s m e Hv Hlo Hhi) as Hle.
    cbn [fabsf SFabs]. unfold F32.div.
    destruct (SFdiv_finite_le F32.prec F32.emax F32_prec_pos false false
                m 15728640 e (-20) 10922667 (-16) ltac:(reflexivity))
      as [-> | (m1 & e1 & -> & Hb1 & Hle1)].
    { eapply dyadic_le_trans; [ exact Hle | ]. now apply dyadic_leb_spec. }
    + split; reflexivity.
    + cbn [xorb].
      destruct (of_float_exact false m1 e1 Hb1)
        as (m2 & e2 & -> & He2 & Hm2 & Hb2).
      split; [ reflexivity | ].
      apply (SFleb_finite_pos F64.prec F64.emax _ _ _ _ F64_prec_pos);
        [ now apply bounded_canonical | reflexivity | ].
      eapply dyadic_le_trans; [ | eapply dyadic_le_trans; [ exact Hle1 | ] ].
      * apply (dyadic_le_of_scaled e2); [ lia | lia | ].
        rewrite Z.sub_diag, Z.pow_0_r. lia.
      * now apply dyadic_leb_spec.
Qed.

Lemma tone_of_zero : tone_in_range (cmd_speed_PWM_freq (F32.of_Z 0)).
Proof. split; reflexivity. Qed.

Lemma step_commands_in_envelope (c c' : Config) (r : F32.t)
    (es : list effect) :
  Forall command_in_envelope (speed_command (locals c) :: queue c) ->
  step c r = Some (c', es) ->
  Forall command_in_envelope (speed_command (locals c') :: queue c') /\
  (forall x, In (Cmd_speed_PWM x) es ->
     tone_in_range (cmd_speed_PWM_freq x)).
Proof.
  intros Hinv Hstep.
  assert (Hinv' : Forall command_in_envelope
                    (speed_command (locals c') :: queue c')).
  { revert Hstep. destruct c as [[st cmd] d q]. unfold step.
    cbn [locals speed_state drv speed_command queue] in *.
    unfold task_speedControl_iter; cbn [speed_state speed_command].
    destruct st.
    - destruct q as [|x rest]; [ discriminate | ].
      destruct (idle_decide x r (get_dir d)) as [s es0].
      intros [= <- <-]. cbn [locals speed_command queue].
      now apply Forall_inv_tail in Hinv.
    - destruct (accel_decide cmd r) as [s es0].
      intros [= <- <-]. exact Hinv.
    - destruct (decel_decide cmd r (get_dir d)) as [s es0].
      intros [= <- <-]. exact Hinv.
    - intros [= <- <-]. exact Hinv.
    - intros [= <- <-]. exact Hinv. }
  split; [ exact Hinv' | ].
  intros x Hin. unfold step in Hstep.
  destruct (task_speedControl_iter _ _ _ _) as [[[l q] es']|] eqn:E;
    [ | discriminate ].
  injection Hstep as <- <-. cbn [locals] in Hinv'.
  destruct (iter_cmd_speed_PWM_args _ _ _ _ _ _ _ _ E Hin) as [-> | ->].
  - apply tone_of_zero.
  - apply tone_of_command. now apply Forall_inv in Hinv'.
Qed.

Lemma run_commands_in_envelope (c : Config) (readings : list F32.t) :
  Forall command_in_envelope (speed_command (locals c) :: queue c) ->
  forall x, In (Cmd_speed_PWM x) (snd (run c readings)) ->
    tone_in_range (cmd_speed_PWM_freq x).
Proof.
  revert c. induction readings as [|r rs IH]; intros c Hinv x Hin.
  - destruct Hin.
  - cbn [run] in Hin. destruct (step c r) as [[c' es]|] eqn:Hs;
      [ | destruct Hin ].
    destruct (step_commands_in_envelope c c' r es Hinv Hs) as [Hinv' Hes].
    specialize (IH c' Hinv' x).
    destruct (run c' rs) as [c'' es']. cbn [snd] in *.
    apply in_app_or in Hin. destruct Hin as [Hin | Hin]; auto.
Qed.

(** X5: as long as the stored command and the queued commands are within
    2500 RPM of zero, every frequency the state machine asks the tone
    generator for, along every run, lies between 0 Hz and 166.67 Hz. *)
Theorem tone_frequency_bounded (c : Config) (readings : list F32.t)
    (x : F32.t) :
  Forall command_in_envelope (speed_command (locals c) :: queue c) ->
  In (Cmd_speed_PWM x) (snd (run c readings)) ->
  tone_in_range (cmd_speed_PWM_freq x).
Proof.
  intros Hinv. now apply run_commands_in_envelope.
Qed.

Lemma tone_frequency_bounded_witness :
  let c := {| locals := {| speed_state := Idle; speed_command := F32.zero |};
              drv := {| PIN_DIR := LOW; PIN_BRAKE := LOW;
                        CLKIN_tone := F64.of_Z 0 |};
              queue := [F32.opp f32_2500] |} in
  tone_in_range (cmd_speed_PWM_freq f32_2500).
Proof.
  intros c.
  apply (tone_frequency_bounded c (map F32.of_Z [0; 0; 0]) f32_2500).
  - repeat constructor.
  - vm_compute. auto 10.
Defined.

(** ** Non-finite torque commands, and what a call leaves behind *)

Lemma clamp_omega_never_exceeds (x : F32.t) :
  F32.ltb omega_max_rad_s (clamp_omega x) = false /\
  F32.ltb (clamp_omega x) (F32.opp omega_max_rad_s) = false.
Proof.
  unfold clamp_omega.
  destruct (F32.ltb omega_max_rad_s x) eqn:H1.
  - split; reflexivity.
  - destruct (F32.ltb x (F32.opp omega_max_rad_s)) eqn:H2.
    + split; reflexivity.
    + split; assumption.
Qed.

(** X6: a NaN torque command comes back as a NaN speed command (the
    clamp does not catch it), while an infinite torque command saturates:
    it comes back as exactly +2500 RPM or -2500 RPM, with its sign. *)
Theorem calculate_omega_nonfinite_torque (c : Controller) (now_ms : Z)
    (speed_actual : F32.t) :
  J c = J_flywheel ->
  F32.is_finite speed_actual = true -> F32.valid speed_actual = true ->
  snd (calculate_omega c now_ms speed_actual S754_nan) = S754_nan /\
  snd (calculate_omega c now_ms speed_actual (S754_infinity false))
    = f32_2500 /\
  snd (calculate_omega c now_ms speed_actual (S754_infinity true))
    = F32.opp f32_2500.
Proof.
  intros HJ Hf Hv. unfold calculate_omega. cbn [snd]. rewrite HJ.
  destruct (integration_step_finite c now_ms) as (m & e & ->).
  pose proof (to_rad_s_finite speed_actual Hf Hv) as Hr.
  split; [ reflexivity | ].
  split.
  - change (F32.mul (F32.div (S754_infinity false) J_flywheel)
              (S754_finite false m e)) with (S754_infinity false).
    cbn [F64.of_float].
    destruct (to_rad_s speed_actual) as [s|s| |s m' e']; try discriminate;
      reflexivity.
  - change (F32.mul (F32.div (S754_infinity true) J_flywheel)
              (S754_finite false m e)) with (S754_infinity true).
    cbn [F64.of_float].
    destruct (to_rad_s speed_actual) as [s|s| |s m' e']; try discriminate;
      reflexivity.
Qed.

Lemma calculate_omega_nonfinite_torque_witness :
  snd (calculate_omega Controller_new 250 (F32.of_Z (-1200)) S754_nan)
    = S754_nan /\
  snd (calculate_omega Controller_new 250 (F32.of_Z (-1200))
         (S754_infinity false)) = f32_2500 /\
  snd (calculate_omega Controller_new 250 (F32.of_Z (-1200))
         (S754_infinity true)) = F32.opp f32_2500.
Proof.
  apply (calculate_omega_nonfinite_torque Controller_new 250
           (F32.of_Z (-1200))); reflexivity.
Defined.

(** X7: what a call leaves in the object.  The inertia is untouched, the
    time of the call is recorded, the stored angular velocity is the one the
    returned RPM was converted from and is never beyond the two limits;
    nothing else of the object is read, so the result does not depend on
    the angular velocity stored by earlier calls; and a second call in the
    same millisecond integrates over 1 ms. *)
Theorem calculate_omega_leaves (c : Controller) (now_ms : Z)
    (speed_actual torque_cmd_ : F32.t) :
  let c' := fst (calculate_omega c now_ms speed_actual torque_cmd_) in
  J c' = J c /\
  last_update_ms c' = now_ms /\
  snd (calculate_omega c now_ms speed_actual torque_cmd_)
    = to_rpm (omega_rad_s c') /\
  F32.ltb omega_max_rad_s (omega_rad_s c') = false /\
  F32.ltb (omega_rad_s c') (F32.opp omega_max_rad_s) = false /\
  (forall stored : F32.t,
     calculate_omega
       {| J := J c; last_update_ms := last_update_ms c;
          omega_rad_s := stored |} now_ms speed_actual torque_cmd_
     = calculate_omega c now_ms speed_actual torque_cmd_) /\
  integration_step c' now_ms = f32_0_001.
Proof.
  unfold calculate_omega. cbn [fst snd J last_update_ms omega_rad_s].
  split; [ reflexivity | ]. split; [ reflexivity | ].
  split; [ reflexivity | ].
  split; [ apply clamp_omega_never_exceeds | ].
  split; [ apply clamp_omega_never_exceeds | ].
  split; [ reflexivity | ].
  unfold integration_step, elapsed_s, uint32_sub.
  cbn [last_update_ms]. rewrite Z.sub_diag. reflexivity.
Qed.

(** ** From the estimator to the controller *)

Lemma readActual_rpm_from_6000 (dt : positive) (direction : bool) :
  6000 <= Zpos dt < 4294967296 ->
  exists (m : positive) (e : Z),
    readActual_rpm (Zpos dt) direction = S754_finite direction m e /\
    bounded F32.prec F32.emax m e = true /\
    dyadic_le (Zpos m) e 10240000 (-12).
Proof.
  intros Hdt. destruct (Pos.eq_dec dt 6000) as [-> | Hne].
  - exists 10240000%positive, (-12).
    destruct direction; repeat split; now apply dyadic_leb_spec.
  - destruct (readActual_rpm_between
                (12290048%positive, -11) (8388608%positive, 9)
                (12887049%positive, -31) (8796094%positive, -11)
                (15999998%positive, -36) (10920847%positive, -16)
                (14999998%positive, -32) (10238295%positive, -12)
                ltac:(reflexivity) ltac:(reflexivity) ltac:(reflexivity)
                ltac:(reflexivity) ltac:(reflexivity) ltac:(reflexivity)
                ltac:(reflexivity) ltac:(reflexivity) ltac:(reflexivity)
                ltac:(reflexivity) ltac:(reflexivity) ltac:(reflexivity)
                ltac:(reflexivity) ltac:(reflexivity) dt direction)
      as (m & e & Hr & Hb & _ & Hhi).
    + unfold dyadic_le; simpl; lia.
    + unfold dyadic_le; simpl; lia.
    + exists m, e. repeat split; try assumption.
      eapply dyadic_le_trans; [ exact Hhi | ]. now apply dyadic_leb_spec.
Qed.

Lemma within_2500_of_dyadic (s : bool) (m : positive) (e : Z) :
  bounded F32.prec F32.emax m e = true ->
  dyadic_le (Zpos m) e 10240000 (-12) ->
  F32.leb (F32.opp f32_2500) (S754_finite s m e) = true /\
  F32.leb (S754_finite s m e) f32_2500 = true.
Proof.
  intros Hb Hle. apply f32_within_2500. right. exists s, m, e.
  repeat split; assumption.
Qed.

(** X8: the estimator and the integrator together.  When the interval
    between two edges is at least 6000 us, a torque command of zero gives
    back the speed the estimator has just published to within 0.001 RPM,
    whatever the state of the integrator and the time of the call. *)
Theorem estimate_then_zero_torque (last_time current_time : Z)
    (direction : bool) (s : Share) (c : Controller) (now_ms : Z)
    (sz : bool) :
  J c = J_flywheel ->
  6000 <= uint32_sub current_time last_time ->
  let speed :=
    Share_get (snd (task_readActual_iter last_time current_time
                      direction s)) in
  let omega_rpm := snd (calculate_omega c now_ms speed (S754_zero sz)) in
  omega_rpm = to_rpm (F32.of_double (to_rad_s speed)) /\
  F32.leb (F32.opp f32_2500) omega_rpm = true /\
  F32.leb omega_rpm f32_2500 = true /\
  (Qabs (F2Q omega_rpm - F2Q speed) <= 1 # 1000)%Q.
Proof.
  intros HJ Hdt. unfold task_readActual_iter, Share_get.
  pose proof (uint32_sub_range current_time last_time) as Hr.
  destruct (Z.eqb_spec (uint32_sub current_time last_time) 0) as [H0 | _];
    [ lia | ].
  cbn [snd Share_put share_value].
  destruct (uint32_sub current_time last_time) as [|dt|dt]; try lia.
  destruct (readActual_rpm_from_6000 dt direction ltac:(lia))
    as (m & e & -> & Hb & Hle).
  destruct (within_2500_of_dyadic direction m e Hb Hle) as [Hlo Hhi].
  pose proof (to_rad_s_within (S754_finite direction m e) eq_refl Hb Hlo Hhi)
    as Hrw.
  assert (Heq : snd (calculate_omega c now_ms (S754_finite direction m e)
                       (S754_zero sz))
                = to_rpm (F32.of_double
                            (to_rad_s (S754_finite direction m e)))).
  { unfold calculate_omega. cbn [snd].
    rewrite (torque_add_zero c now_ms sz HJ). cbn [F64.of_float].
    destruct (to_rad_s_finite_nonzero direction m e Hb) as (m' & e' & Hrad).
    rewrite Hrad in Hrw |- *.
    change (F64.add (S754_zero sz) (S754_finite direction m' e'))
      with (S754_finite direction m' e').
    now rewrite (clamp_omega_id _ Hrw). }
  split; [ exact Heq | ].
  rewrite Heq.
  destruct (f32_within_2500 _ (to_rpm_within _ Hrw)) as [Hwl Hwh].
  split; [ exact Hwl | ]. split; [ exact Hwh | ].
  exact (round_trip_error (S754_finite direction m e) eq_refl Hb Hlo Hhi).
Qed.

Lemma estimate_then_zero_torque_witness :
  let speed :=
    Share_get (snd (task_readActual_iter 1000 8011 HIGH share0)) in
  let omega_rpm :=
    snd (calculate_omega Controller_new 40 speed (S754_zero false)) in
  omega_rpm = to_rpm (F32.of_double (to_rad_s speed)) /\
  F32.leb (F32.opp f32_2500) omega_rpm = true /\
  F32.leb omega_rpm f32_2500 = true /\
  (Qabs (F2Q omega_rpm - F2Q speed) <= 1 # 1000)%Q.
Proof.
  apply (estimate_then_zero_torque 1000 8011 HIGH share0 Controller_new 40
           false).
  - reflexivity.
  - vm_compute. discriminate.
Defined.

(** X9: from a torque command to the tone.  The value
    [task_calcSetpoint] hands to the speed queue for a torque command that
    is a number, computed from a finite measured speed, is a command within
    2500 RPM; once it is queued behind commands that are, every frequency
    the state machine asks for stays between 0 Hz and 166.67 Hz. *)
Theorem setpoint_reaches_tone_in_range (ctrl : Controller) (now_ms : Z)
    (speed_actual : Share) (torque : F32.t) (rest : list F32.t)
    (cfg : Config) (readings : list F32.t) (x : F32.t) :
  J ctrl = J_flywheel ->
  F32.is_nan torque = false ->
  F32.is_finite (Share_get speed_actual) = true ->
  F32.valid (Share_get speed_actual) = true ->
  Forall command_in_envelope (speed_command (locals cfg) :: queue cfg) ->
  exists (ctrl' : Controller) (omega : F32.t),
    task_calcSetpoint_iter ctrl now_ms speed_actual (torque :: rest)
      = Some (ctrl', rest, omega) /\
    last_update_ms ctrl' = now_ms /\
    command_in_envelope omega /\
    (In (Cmd_speed_PWM x)
        (snd (run {| locals := locals cfg; drv := drv cfg;
                     queue := queue cfg ++ [omega] |} readings)) ->
     tone_in_range (cmd_speed_PWM_freq x)).
Proof.
  intros HJ Ht Hf Hv Hinv.
  unfold task_calcSetpoint_iter, calculate_omega.
  eexists. eexists. split; [ reflexivity | ].
  split; [ reflexivity | ].
  assert (Henv : command_in_envelope
            (to_rpm (clamp_omega
               (F32.of_double
                  (F64.add
                     (F64.of_float
                        (F32.mul (F32.div torque (J ctrl))
                           (integration_step ctrl now_ms)))
                     (to_rad_s (Share_get speed_actual))))))).
  { split; [ apply of_double_valid | ].
    apply f32_within_2500, to_rpm_within, clamp_omega_within.
    - now apply omega_not_nan.
    - apply of_double_valid. }
  split; [ exact Henv | ].
  apply run_commands_in_envelope. cbn [locals queue speed_command].
  rewrite app_comm_cons. apply Forall_app. split; [ exact Hinv | ].
  constructor; [ exact Henv | constructor ].
Qed.

Lemma setpoint_reaches_tone_in_range_witness :
  let cfg := {| locals := {| speed_state := Idle;
                             speed_command := F32.zero |};
                drv := {| PIN_DIR := LOW; PIN_BRAKE := LOW;
                          CLKIN_tone := F64.of_Z 0 |};
                queue := [] |} in
  exists (ctrl' : Controller) (omega : F32.t),
    task_calcSetpoint_iter Controller_new 500 share0 [F32.of_Z 3]
      = Some (ctrl', [], omega) /\
    last_update_ms ctrl' = 500 /\
    command_in_envelope omega /\
    (In (Cmd_speed_PWM f32_2500)
        (snd (run {| locals := locals cfg; drv := drv cfg;
                     queue := queue cfg ++ [omega] |} [F32.zero])) ->
     tone_in_range (cmd_speed_PWM_freq f32_2500)).
Proof.
  intros cfg.
  apply (setpoint_reaches_tone_in_range Controller_new 500 share0
           (F32.of_Z 3) [] cfg [F32.zero] f32_2500).
  - reflexivity.
  - reflexivity.
  - reflexivity.
  - reflexivity.
  - repeat constructor.
Defined.

(** ** More on the state machine *)

Lemma step_brake_consistent (c c' : Config) (r : F32.t) (es : list effect) :
  brake_consistent c -> step c r = Some (c', es) -> brake_consistent c'.
Proof.
  destruct c as [[st cmd] d q]. unfold brake_consistent, step.
  cbn [locals speed_state drv speed_command queue].
  unfold task_speedControl_iter; cbn [speed_state speed_command].
  destruct st.
  - destruct q as [|x rest]; [ discriminate | ].
    unfold idle_decide. intros Hb. split_ifs; intros [= <- <-];
      cbn; auto.
  - unfold accel_decide. intros Hb. split_ifs; intros [= <- <-]; cbn; auto.
  - unfold decel_decide. intros Hb. split_ifs; intros [= <- <-]; cbn;
      tauto.
  - intros Hb [= <- <-]. reflexivity.
  - intros Hb [= <- <-]. reflexivity.
Qed.

(** X10: along every run the brake pin follows the state. *)
Theorem brake_follows_state (c : Config) (readings : list F32.t) :
  brake_consistent c -> brake_consistent (fst (run c readings)).
Proof.
  revert c. induction readings as [|r rs IH]; intros c Hc; [ exact Hc | ].
  cbn [run]. destruct (step c r) as [[c' es]|] eqn:Hs; [ | exact Hc ].
  specialize (IH c' (step_brake_consistent c c' r es Hc Hs)).
  destruct (run c' rs) as [c'' es']. exact IH.
Qed.

Lemma brake_follows_state_witness :
  brake_consistent
    (fst (run {| locals := locals (Config_init
                                     {| PIN_DIR := HIGH; PIN_BRAKE := LOW;
                                        CLKIN_tone := F64.of_Z 0 |});
                 drv := drv (Config_init
                               {| PIN_DIR := HIGH; PIN_BRAKE := LOW;
                                  CLKIN_tone := F64.of_Z 0 |});
                 queue := [F32.of_Z (-300); F32.of_Z 50] |}
              (map F32.of_Z [0; 0; 0; -100; -290; -299; -250; -60; -10]))).
Proof.
  apply brake_follows_state. reflexivity.
Defined.

(** X11: a turn blocks only in Idle on an empty queue; a command is
    taken from the queue only in Idle, the oldest first, and in every other
    state both the queue and the stored command are left as they are. *)
Theorem commands_wait_for_idle (c : Config) (r : F32.t) :
  (step c r = None <-> speed_state (locals c) = Idle /\ queue c = []) /\
  (forall (c' : Config) (es : list effect),
     step c r = Some (c', es) ->
     match speed_state (locals c) with
     | Idle => queue c = speed_command (locals c') :: queue c'
     | _ => queue c' = queue c /\
            speed_command (locals c') = speed_command (locals c)
     end).
Proof.
  destruct c as [[st cmd] d q]. unfold step.
  cbn [locals speed_state drv speed_command queue].
  unfold task_speedControl_iter; cbn [speed_state speed_command].
  destruct st.
  - destruct q as [|x rest].
    + split; [ tauto | discriminate ].
    + destruct (idle_decide x r (get_dir d)) as [s es0].
      split; [ split; [ discriminate | intros [_ [=]] ] | ].
      intros c' es [= <- <-]. reflexivity.
  - destruct (accel_decide cmd r) as [s es0].
    split; [ split; [ discriminate | intros [[=] _] ] | ].
    intros c' es [= <- <-]. split; reflexivity.
  - destruct (decel_decide cmd r (get_dir d)) as [s es0].
    split; [ split; [ discriminate | intros [[=] _] ] | ].
    intros c' es [= <- <-]. split; reflexivity.
  - split; [ split; [ discriminate | intros [[=] _] ] | ].
    intros c' es [= <- <-]. split; reflexivity.
  - split; [ split; [ discriminate | intros [[=] _] ] | ].
    intros c' es [= <- <-]. split; reflexivity.
Qed.

(** X12: the direction pin is written only in the two crossing states:
    LOW when crossing from negative to positive, HIGH when crossing from
    positive to negative; every other turn leaves it as it was. *)
Theorem direction_changes_only_when_crossing (c c' : Config) (r : F32.t)
    (es : list effect) :
  step c r = Some (c', es) ->
  PIN_DIR (drv c') =
    match speed_state (locals c) with
    | CrossingNegToPos => LOW
    | CrossingPosToNeg => HIGH
    | _ => PIN_DIR (drv c)
    end /\
  (In (Set_dir LOW) es <-> speed_state (locals c) = CrossingNegToPos) /\
  (In (Set_dir HIGH) es <-> speed_state (locals c) = CrossingPosToNeg).
Proof.
  destruct c as [[st cmd] d q]. unfold step.
  cbn [locals speed_state drv speed_command queue].
  unfold task_speedControl_iter; cbn [speed_state speed_command].
  destruct st.
  - destruct q as [|x rest]; [ discriminate | ].
    unfold idle_decide. split_ifs; intros [= <- <-]; cbn;
      intuition discriminate.
  - unfold accel_decide. split_ifs; intros [= <- <-]; cbn;
      intuition discriminate.
  - unfold decel_decide. split_ifs; intros [= <- <-]; cbn;
      intuition discriminate.
  - intros [= <- <-]. cbn. intuition discriminate.
  - intros [= <- <-]. cbn. intuition discriminate.
Qed.

Lemma direction_changes_only_when_crossing_witness :
  let c := {| locals := {| speed_state := CrossingNegToPos;
                           speed_command := F32.of_Z 400 |};
              drv := {| PIN_DIR := HIGH; PIN_BRAKE := HIGH;
                        CLKIN_tone := F64.of_Z 0 |};
              queue := [] |} in
  let es := [Set_dir LOW; Unbrake; Cmd_speed_PWM (fabsf (F32.of_Z 400))] in
  let c' := {| locals := {| speed_state := Accelerating;
                            speed_command := F32.of_Z 400 |};
               drv := exec_effects (drv c) es;
               queue := [] |} in
  PIN_DIR (drv c') = LOW /\
  (In (Set_dir LOW) es <-> CrossingNegToPos = CrossingNegToPos) /\
  (In (Set_dir HIGH) es <-> CrossingNegToPos = CrossingPosToNeg).
Proof.
  intros c es c'.
  apply (direction_changes_only_when_crossing c c' (F32.of_Z (-5)) es).
  reflexivity.
Defined.

Lemma SFltb_antisym (x y : spec_float) : SFltb x y = true -> SFltb y x = false.
Proof.
  unfold SFltb. rewrite (SFcompare_antisym x y).
  destruct (SFcompare x y) as [[ | | ]|]; simpl; congruence.
Qed.

(** X13: [sign] returns +1 or -1, and -1 exactly for a NaN and for the
    numbers below zero; both zeros have sign +1. *)
Theorem sign_negative_iff (x : F32.t) :
  (sign x = 1 \/ sign x = -1) /\
  (sign x = -1 <-> F32.is_nan x = true \/ F32.ltb x F32.zero = true) /\
  (F32.eqb x F32.zero = true -> sign x = 1).
Proof.
  unfold sign.
  destruct x as [[|]|[|]| |[|] m e]; cbn;
    repeat split; auto; intros; try discriminate;
    intuition discriminate.
Qed.

Lemma step_idle_opposite (c : Config) (cmd r0 : F32.t) (rest : list F32.t) :
  speed_state (locals c) = Idle ->
  queue c = cmd :: rest ->
  F32.ltb cmd r0 = true \/ F32.ltb r0 cmd = true ->
  sign cmd <> sign r0 ->
  step c r0 =
    Some ({| locals := {| speed_state := Decelerating;
                          speed_command := cmd |};
             drv := brake (cmd_speed_PWM (F32.of_Z 0) (drv c));
             queue := rest |},
          [Cmd_speed_PWM (F32.of_Z 0); Brake]).
Proof.
  destruct c as [[st sc] d q];
    cbn [locals speed_state speed_command drv queue].
  intros -> -> Hlt Hs.
  unfold step, task_speedControl_iter, idle_decide;
    cbn [locals speed_state speed_command drv queue].
  apply Z.eqb_neq in Hs. rewrite Hs.
  destruct Hlt as [H | H].
  - unfold F32.ltb in *. rewrite (SFltb_antisym _ _ H), H. reflexivity.
  - rewrite H. reflexivity.
Qed.

Lemma step_idle_brake (c : Config) (cmd r0 : F32.t) (rest : list F32.t) :
  speed_state (locals c) = Idle ->
  queue c = cmd :: rest ->
  sign cmd = sign r0 ->
  get_dir (drv c) = LOW /\ F32.ltb cmd r0 = true \/
  get_dir (drv c) = HIGH /\ F32.ltb r0 cmd = true ->
  step c r0 =
    Some ({| locals := {| speed_state := Decelerating;
                          speed_command := cmd |};
             drv := brake (cmd_speed_PWM (F32.of_Z 0) (drv c));
             queue := rest |},
          [Cmd_speed_PWM (F32.of_Z 0); Brake]).
Proof.
  destruct c as [[st sc] d q];
    cbn [locals speed_state speed_command drv queue].
  intros -> -> Hs Hlt.
  unfold step, task_speedControl_iter, idle_decide;
    cbn [locals speed_state speed_command drv queue].
  apply Z.eqb_eq in Hs. rewrite Hs.
  destruct Hlt as [[Hd H] | [Hd H]]; rewrite Hd.
  - unfold F32.ltb in *. rewrite (SFltb_antisym _ _ H), H. reflexivity.
  - rewrite H. reflexivity.
Qed.

Lemma step_decelerating_same_far (c : Config) (x : F32.t) :
  speed_state (locals c) = Decelerating ->
  sign (speed_command (locals c)) = sign x ->
  F32.leb (fabsf (F32.sub x (speed_command (locals c)))) f32_20 = false ->
  step c x = Some (c, [VTaskDelay 10]).
Proof.
  destruct c as [[st cmd] d q]; cbn [locals speed_state speed_command].
  intros -> Hs H.
  unfold step, task_speedControl_iter, decel_decide;
    cbn [locals speed_state speed_command drv queue].
  apply Z.eqb_eq in Hs. now rewrite Hs, H.
Qed.

Lemma step_decelerating_same_near (c : Config) (x : F32.t) :
  speed_state (locals c) = Decelerating ->
  sign (speed_command (locals c)) = sign x ->
  F32.leb (fabsf (F32.sub x (speed_command (locals c)))) f32_20 = true ->
  step c x =
    Some ({| locals := {| speed_state := Idle;
                          speed_command := speed_command (locals c) |};
             drv := cmd_speed_PWM (fabsf (speed_command (locals c)))
                      (unbrake (drv c));
             queue := queue c |},
          [Unbrake; Cmd_speed_PWM (fabsf (speed_command (locals c)));
           VTaskDelay 10]).
Proof.
  destruct c as [[st cmd] d q]; cbn [locals speed_state speed_command].
  intros -> Hs H.
  unfold step, task_speedControl_iter, decel_decide;
    cbn [locals speed_state speed_command drv queue].
  apply Z.eqb_eq in Hs. now rewrite Hs, H.
Qed.

Lemma step_decelerating_cross (c : Config) (x : F32.t) :
  speed_state (locals c) = Decelerating ->
  sign (speed_command (locals c)) <> sign x ->
  F32.ltb (fabsf x) f32_20 = true ->
  step c x =
    Some ({| locals := {| speed_state :=
                            if get_dir (drv c) then CrossingNegToPos
                            else CrossingPosToNeg;
                          speed_command := speed_command (locals c) |};
             drv := drv c; queue := queue c |}, [VTaskDelay 10]).
Proof.
  destruct c as [[st cmd] d q];
    cbn [locals speed_state speed_command drv queue].
  intros -> Hs H.
  unfold step, task_speedControl_iter, decel_decide;
    cbn [locals speed_state speed_command drv queue].
  apply Z.eqb_neq in Hs. rewrite Hs, H.
  now destruct (get_dir d).
Qed.

Lemma run_cons (c c' : Config) (r : F32.t) (rs : list F32.t)
    (es : list effect) :
  step c r = Some (c', es) ->
  run c (r :: rs) = (fst (run c' rs), es ++ snd (run c' rs)).
Proof.
  intros H. cbn [run]. rewrite H. now destruct (run c' rs).
Qed.

Lemma concat_repeat_single {A} (x : A) (n : nat) :
  concat (repeat [x] n) = repeat x n.
Proof. induction n as [|n IH]; [ reflexivity | simpl; now rewrite IH ]. Qed.

(** X14: slowing down without a change of direction.  In Idle the
    direction pin, not the sign of the reading, selects the comparison
    that means slowing down: for a command of the same sign as the
    measured speed, a command below the measured speed when the pin reads
    LOW, a command above it when the pin reads HIGH.  Such a command
    brakes the motor with a tone of 0 Hz; the machine waits in
    Decelerating, the brake HIGH, while the readings keep the sign of the
    command and are more than 20 RPM from it, and at the first reading
    within 20 RPM releases the brake first and commands [|cmd|] second,
    back in Idle, the direction pin as it was. *)
Theorem braking_to_lower_speed (c : Config) (cmd r0 r : F32.t)
    (rest pre : list F32.t) :
  speed_state (locals c) = Idle ->
  queue c = cmd :: rest ->
  sign cmd = sign r0 ->
  get_dir (drv c) = LOW /\ F32.ltb cmd r0 = true \/
  get_dir (drv c) = HIGH /\ F32.ltb r0 cmd = true ->
  Forall (fun x => sign cmd = sign x) (pre ++ [r]) ->
  Forall (fun x => F32.leb (fabsf (F32.sub x cmd)) f32_20 = false) pre ->
  F32.leb (fabsf (F32.sub r cmd)) f32_20 = true ->
  exists c1 : Config,
    run c (r0 :: pre ++ [r]) =
      (c1, [Cmd_speed_PWM (F32.of_Z 0); Brake]
           ++ repeat (VTaskDelay 10) (length pre)
           ++ [Unbrake; Cmd_speed_PWM (fabsf cmd); VTaskDelay 10]) /\
    (forall k, (k <= length pre)%nat ->
       speed_state (locals (fst (run c (r0 :: firstn k pre))))
         = Decelerating /\
       PIN_BRAKE (drv (fst (run c (r0 :: firstn k pre)))) = HIGH) /\
    speed_state (locals c1) = Idle /\
    speed_command (locals c1) = cmd /\
    queue c1 = rest /\
    PIN_BRAKE (drv c1) = LOW /\
    PIN_DIR (drv c1) = PIN_DIR (drv c) /\
    CLKIN_tone (drv c1) = cmd_speed_PWM_freq (fabsf cmd).
Proof.
  intros Hst Hq Hs0 Hlt Hsign Hpre Hr.
  pose proof (step_idle_brake c cmd r0 rest Hst Hq Hs0 Hlt) as H0.
  set (cD := {| locals := {| speed_state := Decelerating;
                             speed_command := cmd |};
                drv := brake (cmd_speed_PWM (F32.of_Z 0) (drv c));
                queue := rest |}) in *.
  apply Forall_app in Hsign. destruct Hsign as [Hsp Hsr].
  apply Forall_inv in Hsr.
  assert (Hstep : Forall (fun x => step cD x = Some (cD, [VTaskDelay 10])) pre).
  { clear Hr Hsr. induction Hpre as [|x pre Hx _ IH]; constructor.
    - apply step_decelerating_same_far; auto.
      now apply Forall_inv in Hsp.
    - apply IH. now apply Forall_inv_tail in Hsp. }
  eexists. split; [ | split ].
  - rewrite (run_cons c cD r0 _ _ H0).
    rewrite (run_snoc_stuttering cD pre r _ Hstep).
    rewrite (step_decelerating_same_near cD r eq_refl Hsr Hr).
    cbn [fst snd]. rewrite concat_repeat_single. reflexivity.
  - intros k _. rewrite (run_cons c cD r0 _ _ H0).
    rewrite (run_stuttering cD (firstn k pre) [VTaskDelay 10])
      by now apply Forall_firstn.
    split; reflexivity.
  - repeat split.
Qed.

Lemma braking_to_lower_speed_witness :
  let c := {| locals := {| speed_state := Idle; speed_command := F32.zero |};
              drv := {| PIN_DIR := LOW; PIN_BRAKE := LOW;
                        CLKIN_tone := F64.of_Z 60 |};
              queue := [F32.of_Z 300; F32.of_Z 700] |} in
  let pre := map F32.of_Z [800; 500; 321] in
  exists c1 : Config,
    run c (F32.of_Z 900 :: pre ++ [F32.of_Z 320]) =
      (c1, [Cmd_speed_PWM (F32.of_Z 0); Brake]
           ++ repeat (VTaskDelay 10) (length pre)
           ++ [Unbrake; Cmd_speed_PWM (fabsf (F32.of_Z 300));
               VTaskDelay 10]) /\
    (forall k, (k <= length pre)%nat ->
       speed_state (locals (fst (run c (F32.of_Z 900 :: firstn k pre))))
         = Decelerating /\
       PIN_BRAKE (drv (fst (run c (F32.of_Z 900 :: firstn k pre)))) = HIGH) /\
    speed_state (locals c1) = Idle /\
    speed_command (locals c1) = F32.of_Z 300 /\
    queue c1 = [F32.of_Z 700] /\
    PIN_BRAKE (drv c1) = LOW /\
    PIN_DIR (drv c1) = PIN_DIR (drv c) /\
    CLKIN_tone (drv c1) = cmd_speed_PWM_freq (fabsf (F32.of_Z 300)).
Proof.
  intros c pre.
  apply (braking_to_lower_speed c (F32.of_Z 300) (F32.of_Z 900)
           (F32.of_Z 320) [F32.of_Z 700] pre).
  - reflexivity.
  - reflexivity.
  - reflexivity.
  - left. split; reflexivity.
  - repeat constructor.
  - repeat constructor.
  - reflexivity.
Defined.

Lemma step_blocks_whatever_the_reading (c : Config) (r r' : F32.t) :
  step c r = None -> step c r' = None.
Proof.
  destruct c as [[st sc] d q]. unfold step, task_speedControl_iter.
  cbn [locals speed_state speed_command drv queue].
  destruct st; try discriminate.
  - destruct q as [|x rest]; [ reflexivity | ].
    destruct (idle_decide x r (get_dir d)). discriminate.
  - destruct (accel_decide sc r). discriminate.
  - destruct (decel_decide sc r (get_dir d)). discriminate.
Qed.

Lemma run_app (c : Config) (xs ys : list F32.t) :
  run c (xs ++ ys) =
    (fst (run (fst (run c xs)) ys),
     snd (run c xs) ++ snd (run (fst (run c xs)) ys)).
Proof.
  revert c. induction xs as [|x xs IH]; intros c.
  - cbn [app run fst snd]. now destruct (run c ys).
  - cbn [app run]. destruct (step c x) as [[c' es]|] eqn:Hs.
    + rewrite IH. destruct (run c' xs) as [c1 es1]. cbn [fst snd].
      now rewrite app_assoc.
    + cbn [fst snd]. destruct ys as [|y ys]; [ reflexivity | ].
      cbn [run]. now rewrite (step_blocks_whatever_the_reading c x y Hs).
Qed.

(** X15: a change of direction.  From Idle, a command whose sign is
    opposite to the measured speed's brakes the motor with a tone of
    0 Hz, waits until the measured speed is below 20 RPM in magnitude,
    then inverts the direction pin, releases the brake and commands
    [|cmd|], in that order, and ends in Accelerating. *)
Theorem reversal_from_idle (c : Config) (cmd r0 r r' : F32.t)
    (rest pre : list F32.t) :
  speed_state (locals c) = Idle ->
  queue c = cmd :: rest ->
  F32.ltb cmd r0 = true \/ F32.ltb r0 cmd = true ->
  Forall (fun x => sign cmd <> sign x) (r0 :: pre ++ [r]) ->
  Forall (fun x => F32.ltb (fabsf x) f32_20 = false) pre ->
  F32.ltb (fabsf r) f32_20 = true ->
  exists c2 : Config,
    run c (r0 :: pre ++ [r; r']) =
      (c2, [Cmd_speed_PWM (F32.of_Z 0); Brake]
           ++ repeat (VTaskDelay 10) (S (length pre))
           ++ [Set_dir (negb (get_dir (drv c))); Unbrake;
               Cmd_speed_PWM (fabsf cmd)]) /\
    speed_state (locals c2) = Accelerating /\
    speed_command (locals c2) = cmd /\
    queue c2 = rest /\
    PIN_DIR (drv c2) = negb (PIN_DIR (drv c)) /\
    PIN_BRAKE (drv c2) = LOW /\
    CLKIN_tone (drv c2) = cmd_speed_PWM_freq (fabsf cmd).
Proof.
  intros Hst Hq Hlt Hsign Hpre Hr.
  pose proof (Forall_inv Hsign) as Hs0.
  apply Forall_inv_tail, Forall_app in Hsign. destruct Hsign as [Hsp Hsr].
  apply Forall_inv in Hsr.
  pose proof (step_idle_opposite c cmd r0 rest Hst Hq Hlt Hs0) as H0.
  set (cD := {| locals := {| speed_state := Decelerating;
                             speed_command := cmd |};
                drv := brake (cmd_speed_PWM (F32.of_Z 0) (drv c));
                queue := rest |}) in *.
  assert (Hstep : Forall (fun x => step cD x = Some (cD, [VTaskDelay 10])) pre).
  { clear Hr Hsr. induction Hpre as [|x pre Hx _ IH]; constructor.
    - apply step_decelerating_wait; auto. now apply Forall_inv in Hsp.
    - apply IH. now apply Forall_inv_tail in Hsp. }
  exists {| locals := {| speed_state := Accelerating;
                         speed_command := cmd |};
            drv := cmd_speed_PWM (fabsf cmd)
                     (unbrake (set_dir (negb (get_dir (drv c))) (drv cD)));
            queue := rest |}.
  split.
  - rewrite (run_cons c cD r0 _ _ H0).
    replace (pre ++ [r; r']) with ((pre ++ [r]) ++ [r'])
      by now rewrite <- app_assoc.
    assert (Hrun1 : run cD (pre ++ [r]) =
              ({| locals := {| speed_state :=
                                 if get_dir (drv cD) then CrossingNegToPos
                                 else CrossingPosToNeg;
                               speed_command := cmd |};
                  drv := drv cD; queue := rest |},
               repeat (VTaskDelay 10) (S (length pre)))).
    { rewrite (run_snoc_stuttering cD pre r _ Hstep).
      rewrite (step_decelerating_cross cD r eq_refl Hsr Hr).
      cbn [locals speed_command queue]. f_equal.
      rewrite concat_repeat_single.
      clear. induction (length pre) as [|n IH]; [ reflexivity | ].
      simpl in *. now rewrite IH. }
    rewrite (run_app cD (pre ++ [r]) [r']), Hrun1. cbn [fst snd].
    unfold get_dir, cD; cbn [drv brake cmd_speed_PWM PIN_DIR].
    destruct (PIN_DIR (drv c)); reflexivity.
  - repeat split.
Qed.

Lemma reversal_from_idle_witness :
  let c := {| locals := {| speed_state := Idle; speed_command := F32.zero |};
              drv := {| PIN_DIR := HIGH; PIN_BRAKE := LOW;
                        CLKIN_tone := F64.of_Z 20 |};
              queue := [F32.of_Z 600] |} in
  let pre := map F32.of_Z [-250; -90; -20] in
  exists c2 : Config,
    run c (F32.of_Z (-300) :: pre ++ [F32.of_Z (-19); F32.of_Z (-19)]) =
      (c2, [Cmd_speed_PWM (F32.of_Z 0); Brake]
           ++ repeat (VTaskDelay 10) (S (length pre))
           ++ [Set_dir (negb (get_dir (drv c))); Unbrake;
               Cmd_speed_PWM (fabsf (F32.of_Z 600))]) /\
    speed_state (locals c2) = Accelerating /\
    speed_command (locals c2) = F32.of_Z 600 /\
    queue c2 = [] /\
    PIN_DIR (drv c2) = negb (PIN_DIR (drv c)) /\
    PIN_BRAKE (drv c2) = LOW /\
    CLKIN_tone (drv c2) = cmd_speed_PWM_freq (fabsf (F32.of_Z 600)).
Proof.
  intros c pre.
  apply (reversal_from_idle c (F32.of_Z 600) (F32.of_Z (-300))
           (F32.of_Z (-19)) (F32.of_Z (-19)) [] pre).
  - reflexivity.
  - reflexivity.
  - right. reflexivity.
  - repeat constructor; vm_compute; discriminate.
  - repeat constructor.
  - reflexivity.
Defined.

(** X16: a NaN command is taken from the queue and dropped: the turn calls
    nothing on the driver and the machine stays in Idle (the same happens
    when the measured speed is a NaN). *)
Theorem idle_nan_command_dropped (c : Config) (speed_real cmd : F32.t)
    (rest : list F32.t) :
  speed_state (locals c) = Idle ->
  queue c = cmd :: rest ->
  F32.is_nan cmd = true \/ F32.is_nan speed_real = true ->
  step c speed_real =
    Some ({| locals := {| speed_state := Idle; speed_command := cmd |};
             drv := drv c; queue := rest |}, []).
Proof.
  destruct c as [[st sc] d q]; cbn [locals speed_state speed_command queue].
  intros -> -> Hn.
  unfold step, task_speedControl_iter, idle_decide;
    cbn [locals speed_state speed_command drv queue].
  assert (H1 : F32.ltb speed_real cmd = false).
  { destruct Hn as [Hn | Hn]; [ destruct cmd | destruct speed_real ];
      try discriminate; [ apply F32_ltb_nan_r | apply F32_ltb_nan_l ]. }
  assert (H2 : F32.ltb cmd speed_real = false).
  { destruct Hn as [Hn | Hn]; [ destruct cmd | destruct speed_real ];
      try discriminate; [ apply F32_ltb_nan_l | apply F32_ltb_nan_r ]. }
  rewrite H1, H2. reflexivity.
Qed.

Lemma idle_nan_command_dropped_witness :
  let c := {| locals := {| speed_state := Idle; speed_command := F32.zero |};
              drv := {| PIN_DIR := LOW; PIN_BRAKE := LOW;
                        CLKIN_tone := F64.of_Z 0 |};
              queue := [S754_nan; f32_2500] |} in
  step c f32_20 =
    Some ({| locals := {| speed_state := Idle; speed_command := S754_nan |};
             drv := drv c; queue := [f32_2500] |}, []).
Proof.
  intros c.
  apply (idle_nan_command_dropped c f32_20 S754_nan [f32_2500]).
  - reflexivity.
  - reflexivity.
  - left. reflexivity.
Defined.

Lemma step_idle_accelerate (c : Config) (cmd r0 : F32.t) (rest : list F32.t) :
  speed_state (locals c) = Idle ->
  queue c = cmd :: rest ->
  sign cmd = sign r0 ->
  get_dir (drv c) = LOW /\ F32.ltb r0 cmd = true \/
  get_dir (drv c) = HIGH /\ F32.ltb cmd r0 = true ->
  step c r0 =
    Some ({| locals := {| speed_state := Accelerating;
                          speed_command := cmd |};
             drv := cmd_speed_PWM (fabsf cmd) (drv c);
             queue := rest |},
          [Cmd_speed_PWM (fabsf cmd)]).
Proof.
  destruct c as [[st sc] d q];
    cbn [locals speed_state speed_command drv queue].
  intros -> -> Hs Hlt.
  unfold step, task_speedControl_iter, idle_decide;
    cbn [locals speed_state speed_command drv queue].
  apply Z.eqb_eq in Hs. rewrite Hs.
  destruct Hlt as [[Hd H] | [Hd H]]; rewrite Hd.
  - rewrite H. reflexivity.
  - unfold F32.ltb in *. rewrite (SFltb_antisym _ _ H), H. reflexivity.
Qed.

Lemma step_accelerating_not_near (c : Config) (x : F32.t) :
  speed_state (locals c) = Accelerating ->
  F32.leb (fabsf (F32.sub x (speed_command (locals c)))) f32_20 = false ->
  step c x = Some (c, [VTaskDelay 10]).
Proof.
  destruct c as [[st cmd] d q]; cbn [locals speed_state speed_command].
  intros -> H.
  unfold step, task_speedControl_iter, accel_decide;
    cbn [locals speed_state speed_command drv queue].
  now rewrite H.
Qed.

(** X17: speeding up without a change of direction.  In Idle the
    direction pin, not the sign of the reading, selects the comparison
    that means speeding up: for a command of the same sign as the measured
    speed, a command above the measured speed when the pin reads LOW, a
    command below it when the pin reads HIGH.  Such a command is passed to
    the tone generator at once, as [|cmd|], with no other call on the
    driver; the machine then only waits in Accelerating, 10 ticks at a
    time, and returns to Idle at the first reading within 20 RPM of the
    command. *)
Theorem speeding_up_from_idle (c : Config) (cmd r0 r : F32.t)
    (rest pre : list F32.t) :
  speed_state (locals c) = Idle ->
  queue c = cmd :: rest ->
  sign cmd = sign r0 ->
  get_dir (drv c) = LOW /\ F32.ltb r0 cmd = true \/
  get_dir (drv c) = HIGH /\ F32.ltb cmd r0 = true ->
  Forall (fun x => F32.leb (fabsf (F32.sub x cmd)) f32_20 = false) pre ->
  F32.leb (fabsf (F32.sub r cmd)) f32_20 = true ->
  exists c1 : Config,
    run c (r0 :: pre ++ [r]) =
      (c1, Cmd_speed_PWM (fabsf cmd) :: repeat (VTaskDelay 10) (length pre)) /\
    (forall k, (k <= length pre)%nat ->
       speed_state (locals (fst (run c (r0 :: firstn k pre))))
         = Accelerating) /\
    speed_state (locals c1) = Idle /\
    speed_command (locals c1) = cmd /\
    queue c1 = rest /\
    drv c1 = cmd_speed_PWM (fabsf cmd) (drv c).
Proof.
  intros Hst Hq Hs0 Hlt Hpre Hr.
  pose proof (step_idle_accelerate c cmd r0 rest Hst Hq Hs0 Hlt) as H0.
  set (cA := {| locals := {| speed_state := Accelerating;
                             speed_command := cmd |};
                drv := cmd_speed_PWM (fabsf cmd) (drv c);
                queue := rest |}) in *.
  assert (Hstep : Forall (fun x => step cA x = Some (cA, [VTaskDelay 10])) pre).
  { eapply Forall_impl; [ | exact Hpre ].
    intros x Hx. now apply step_accelerating_not_near. }
  eexists. split; [ | split ].
  - rewrite (run_cons c cA r0 _ _ H0).
    rewrite (run_snoc_stuttering cA pre r _ Hstep).
    rewrite (step_accelerating_near cA r eq_refl Hr).
    cbn [fst snd app]. rewrite concat_repeat_single, app_nil_r.
    reflexivity.
  - intros k _. rewrite (run_cons c cA r0 _ _ H0).
    rewrite (run_stuttering cA (firstn k pre) [VTaskDelay 10])
      by now apply Forall_firstn.
    reflexivity.
  - repeat split.
Qed.

Lemma speeding_up_from_idle_witness :
  let c := {| locals := {| speed_state := Idle; speed_command := F32.zero |};
              drv := {| PIN_DIR := HIGH; PIN_BRAKE := LOW;
                        CLKIN_tone := F64.of_Z 20 |};
              queue := [F32.of_Z (-900)] |} in
  let pre := map F32.of_Z [-400; -700; -879] in
  exists c1 : Config,
    run c (F32.of_Z (-300) :: pre ++ [F32.of_Z (-880)]) =
      (c1, Cmd_speed_PWM (fabsf (F32.of_Z (-900)))
           :: repeat (VTaskDelay 10) (length pre)) /\
    (forall k, (k <= length pre)%nat ->
       speed_state (locals (fst (run c (F32.of_Z (-300) :: firstn k pre))))
         = Accelerating) /\
    speed_state (locals c1) = Idle /\
    speed_command (locals c1) = F32.of_Z (-900) /\
    queue c1 = [] /\
    drv c1 = cmd_speed_PWM (fabsf (F32.of_Z (-900))) (drv c).
Proof.
  intros c pre.
  apply (speeding_up_from_idle c (F32.of_Z (-900)) (F32.of_Z (-300))
           (F32.of_Z (-880)) [] pre).
  - reflexivity.
  - reflexivity.
  - reflexivity.
  - right. split; reflexivity.
  - repeat constructor.
  - reflexivity.
Defined.

(** ** The SPI functions and the initialisation of the Driver *)

Lemma drv_read_frame (addr7 : Z) (rx : Z * Z) :
  drv_read addr7 rx =
  ([ BeginTransaction 10000; ScsWrite HIGH; DelayMicroseconds 1;
     Transfer (128 + addr7 mod 128); Transfer 0; Transfer 0;
     DelayMicroseconds 1; ScsWrite LOW; EndTransaction;
     DelayMicroseconds 5 ],
   256 * (fst rx mod 256) + snd rx mod 256).
Proof.
  unfold drv_read, scs_begin, scs_end, uint8, uint16, wrap, HIGH, LOW.
  change (2 ^ 8) with 256. change (2 ^ 16) with 65536.
  change (0 mod 256) with 0.
  pose proof (Z.mod_pos_bound addr7 128 ltac:(lia)) as Ha.
  pose proof (Z.mod_pos_bound (fst rx) 256 ltac:(lia)) as Hm.
  pose proof (Z.mod_pos_bound (snd rx) 256 ltac:(lia)) as Hl.
  assert (Hh : (Z.lor (Z.shiftl 1 7) (Z.land (addr7 mod 256) 127)) mod 256
               = 128 + addr7 mod 128).
  { change 127 with (Z.ones 7). rewrite Z.land_ones by lia.
    change (2 ^ 7) with 128. change (Z.shiftl 1 7) with 128.
    rewrite (Z.mod_mod_divide addr7 256 128) by (exists 2; reflexivity).
    rewrite Z.lor_comm.
    assert (Hno : Z.land (addr7 mod 128) 128 = 0).
    { apply Z.bits_inj_0. intros n. rewrite Z.land_spec.
      destruct (Z.eq_dec n 7) as [-> | Hn].
      - replace (Z.testbit (addr7 mod 128) 7) with false; [ reflexivity | ].
        symmetry. change 128 with (2 ^ 7) in *.
        apply Z.mod_pow2_bits_high. lia.
      - change 128 with (2 ^ 7). rewrite (Z.pow2_bits_false 7 n) by lia.
        apply andb_false_r. }
    rewrite <- Z.lxor_lor by exact Hno.
    rewrite <- Z.add_nocarry_lxor by exact Hno.
    rewrite Z.mod_small; lia. }
  assert (Hv : (Z.lor (Z.shiftl (fst rx mod 256) 8) (snd rx mod 256))
                 mod 65536
               = 256 * (fst rx mod 256) + snd rx mod 256).
  { rewrite Z.shiftl_mul_pow2 by lia. change (2 ^ 8) with 256.
    assert (Hno : Z.land (fst rx mod 256 * 256) (snd rx mod 256) = 0).
    { apply Z.bits_inj_0. intros n. rewrite Z.land_spec.
      destruct (Z.lt_ge_cases n 8) as [Hn | Hn].
      - destruct (Z.lt_ge_cases n 0) as [Hneg | Hpos].
        + now rewrite !Z.testbit_neg_r by lia.
        + change 256 with (2 ^ 8) at 2.
          rewrite Z.mul_pow2_bits_low by lia. reflexivity.
      - change 256 with (2 ^ 8) at 3.
        rewrite (Z.mod_pow2_bits_high (snd rx) 8 n) by lia.
        apply andb_false_r. }
    rewrite <- Z.lxor_lor by exact Hno.
    rewrite <- Z.add_nocarry_lxor by exact Hno.
    rewrite Z.mod_small by lia. lia. }
  now rewrite Hh, Hv.
Qed.

Lemma testbit_7_high (a : Z) : Z.testbit (128 + a mod 128) 7 = true.
Proof.
  pose proof (Z.mod_pos_bound a 128 ltac:(lia)) as Ha.
  replace (128 + a mod 128) with (a mod 128 + 1 * 2 ^ 7)
    by (change (2 ^ 7) with 128; lia).
  rewrite Z.testbit_eqb by lia. 
  rewrite Z.div_add by (change (2 ^ 7) with 128; lia).
  change (2 ^ 7) with 128. rewrite (Z.div_small (a mod 128) 128) by lia.
  reflexivity.
Qed.

Lemma testbit_7_low (a : Z) : Z.testbit (a mod 128) 7 = false.
Proof.
  change 128 with (2 ^ 7). apply Z.mod_pow2_bits_high. lia.
Qed.

Lemma land_127 (a : Z) : Z.land a 127 = a mod 128.
Proof. change 127 with (Z.ones 7). now rewrite Z.land_ones by lia. Qed.

(** X18: every register read shifts out a header with bit 7 set and the
    7-bit address below it, followed by two zero bytes, all inside the
    chip-select window; the value returned is made of the low eight bits of
    the two bytes received, high byte first, and a chip decoding the
    traffic sees no register write in it. *)
Theorem drv_read_framing (addr7 : Z) (rx : Z * Z) :
  exists header : Z,
    transferred (fst (drv_read addr7 rx)) = [header; 0; 0] /\
    transferred_selected LOW (fst (drv_read addr7 rx)) = [header; 0; 0] /\
    Z.testbit header 7 = true /\
    Z.land header 127 = Z.land addr7 127 /\
    snd (drv_read addr7 rx) = 256 * (fst rx mod 256) + snd rx mod 256 /\
    0 <= snd (drv_read addr7 rx) < 65536 /\
    registers_written (fst (drv_read addr7 rx)) = [].
Proof.
  rewrite drv_read_frame. cbn [fst snd].
  exists (128 + addr7 mod 128).
  pose proof (Z.mod_pos_bound addr7 128 ltac:(lia)) as Ha.
  pose proof (Z.mod_pos_bound (fst rx) 256 ltac:(lia)) as Hm.
  pose proof (Z.mod_pos_bound (snd rx) 256 ltac:(lia)) as Hl.
  repeat split; try lia.
  - apply testbit_7_high.
  - rewrite !land_127.
    replace (128 + addr7 mod 128) with (addr7 mod 128 + 1 * 128) by lia.
    rewrite Z.mod_add by lia. apply Z.mod_mod. lia.
  - cbn [registers_written]. now rewrite testbit_7_high.
Qed.

(** X19: what [drv_write] puts on the bus, [drv_read] takes off it: the
    two data bytes of a write, handed to [drv_read] as the chip's answer,
    give back the value written (reduced to 16 bits); a chip decoding the
    traffic of a write sees that one register write; and the header of the
    read of a register is the header of its write with bit 7 set. *)
Theorem drv_write_read_round_trip (addr7 message addr7' : Z) :
  exists header msb lsb : Z,
    transferred (drv_write addr7 message) = [header; msb; lsb] /\
    snd (drv_read addr7' (msb, lsb)) = uint16 message /\
    registers_written (drv_write addr7 message)
      = [(Z.land addr7 127, uint16 message)] /\
    transferred (fst (drv_read addr7 (msb, lsb))) = [header + 128; 0; 0].
Proof.
  exists (addr7 mod 128), ((message mod 65536) / 256), (message mod 256).
  rewrite drv_write_frame, !drv_read_frame.
  cbn [transferred fst snd registers_written].
  pose proof (Z.mod_pos_bound message 65536 ltac:(lia)) as Hm.
  assert (Hhi : 0 <= (message mod 65536) / 256 < 256).
  { split; [ apply Z.div_pos; lia | apply Z.div_lt_upper_bound; lia ]. }
  assert (Hval : 256 * ((message mod 65536) / 256) + message mod 256
                 = uint16 message).
  { unfold uint16, wrap. change (2 ^ 16) with 65536.
    rewrite (Z.div_mod (message mod 65536) 256) at 2 by lia.
    f_equal. symmetry.
    apply Z.mod_mod_divide. exists 256; reflexivity. }
  repeat split.
  - rewrite (Z.mod_small _ 256 Hhi).
    rewrite (Z.mod_small (message mod 256) 256)
      by (apply Z.mod_pos_bound; lia).
    exact Hval.
  - rewrite testbit_7_low, !land_127, Hval.
    rewrite (Z.mod_small (addr7 mod 128) 128)
      by (apply Z.mod_pos_bound; lia).
    reflexivity.
  - f_equal. lia.
Qed.

(** X20: the SPI traffic is well framed: in [drv_write], in [drv_read]
    and in the whole of [begin], whatever the object and the chip's
    answers, every byte is shifted out inside a transaction with chip
    select asserted, and each transaction is closed with chip select
    released. *)
Theorem spi_traffic_well_framed :
  (forall addr7 message : Z,
     well_framed false false (drv_write addr7 message) = true) /\
  (forall (addr7 : Z) (rx : Z * Z),
     well_framed false false (fst (drv_read addr7 rx)) = true) /\
  (forall (o : Members.t) (reply : Z -> Z * Z),
     well_framed false false (bus_trace (snd (begin o reply))) = true /\
     transferred_selected LOW (bus_trace (snd (begin o reply)))
       = transferred (bus_trace (snd (begin o reply))) /\
     length (transferred (bus_trace (snd (begin o reply)))) = 60%nat).
Proof.
  split; [ | split ].
  - intros addr7 message. reflexivity.
  - intros addr7 rx. reflexivity.
  - intros o reply. split; [ | split ];
      cbv -[Z.modulo Z.lor Z.land Z.shiftl Z.shiftr uint8 uint16];
      reflexivity.
Qed.

Lemma bus_trace_app (a b : list hw_event) :
  bus_trace (a ++ b) = bus_trace a ++ bus_trace b.
Proof.
  induction a as [|e a IH]; [ reflexivity | ].
  destruct e; cbn [app bus_trace]; now rewrite IH.
Qed.

Lemma bus_trace_map_Bus (l : list bus_event) : bus_trace (map Bus l) = l.
Proof. induction l as [|e l IH]; [ reflexivity | cbn; now rewrite IH ]. Qed.

Lemma bus_trace_program_register (reply : Z -> Z * Z) (addr value : Z)
    (text : string) :
  bus_trace (program_register reply addr value text)
    = drv_write addr value ++ fst (drv_read addr (reply (uint8 addr))).
Proof.
  unfold program_register.
  rewrite !bus_trace_app, !bus_trace_map_Bus. cbn [bus_trace].
  now rewrite app_nil_r.
Qed.

Lemma registers_written_write (addr7 message : Z) (rest : list bus_event) :
  registers_written (drv_write addr7 message ++ rest)
    = (Z.land addr7 127, uint16 message) :: registers_written rest.
Proof.
  rewrite drv_write_frame. cbn [app registers_written].
  rewrite testbit_7_low, !land_127.
  rewrite (Z.mod_small (addr7 mod 128) 128) by (apply Z.mod_pos_bound; lia).
  do 2 f_equal.
  unfold uint16, wrap. change (2 ^ 16) with 65536.
  rewrite (Z.div_mod (message mod 65536) 256) at 2 by lia.
  f_equal. symmetry. apply Z.mod_mod_divide. exists 256; reflexivity.
Qed.

Lemma registers_written_read (addr7 : Z) (rx : Z * Z)
    (rest : list bus_event) :
  registers_written (fst (drv_read addr7 rx) ++ rest)
    = registers_written rest.
Proof.
  rewrite drv_read_frame. cbn [fst app registers_written].
  now rewrite testbit_7_high.
Qed.

Lemma bus_trace_begin (o : Members.t) (reply : Z -> Z * Z) :
  bus_trace (snd (begin o reply)) =
    drv_write 0 8192 ++ fst (drv_read 0 (reply 0)) ++
    drv_write 3 3970 ++ fst (drv_read 3 (reply 3)) ++
    drv_write 4 512 ++ fst (drv_read 4 (reply 4)) ++
    drv_write 5 2048 ++ fst (drv_read 5 (reply 5)) ++
    drv_write 6 (Members.FILK1 o) ++ fst (drv_read 6 (reply 6)) ++
    drv_write 7 (Members.FILK2 o) ++ fst (drv_read 7 (reply 7)) ++
    drv_write 8 (Members.COMPK1 o) ++ fst (drv_read 8 (reply 8)) ++
    drv_write 9 (Members.COMPK2 o) ++ fst (drv_read 9 (reply 9)) ++
    drv_write 10 512 ++ fst (drv_read 10 (reply 10)) ++
    drv_write 11 1280 ++ fst (drv_read 11 (reply 11)) ++ [].
Proof.
  unfold begin. cbn [snd].
  rewrite !bus_trace_app, !bus_trace_program_register.
  cbn [bus_trace app]. rewrite <- !app_assoc. reflexivity.
Qed.

Lemma uint16_uint8 (a : Z) : uint16 (uint16 (uint8 a)) = a mod 256.
Proof.
  unfold uint16, uint8, wrap. change (2 ^ 16) with 65536.
  change (2 ^ 8) with 256.
  pose proof (Z.mod_pos_bound a 256 ltac:(lia)).
  rewrite !(Z.mod_small (a mod 256) 65536) by lia. reflexivity.
Qed.

(** X21: the registers [begin] programs, as a chip decoding the bus sees
    them, in order: 0x00, then 0x03 to 0x0B, the four gains taken from the
    object.  With the four-argument constructor each gain is reduced
    modulo 256 on the way, so the default FILK2 of 507 cannot be given
    through it. *)
Theorem begin_register_map (o : Members.t) (reply : Z -> Z * Z) :
  registers_written (bus_trace (snd (begin o reply))) =
    [ (0, 8192); (3, 3970); (4, 512); (5, 2048);
      (6, uint16 (Members.FILK1 o)); (7, uint16 (Members.FILK2 o));
      (8, uint16 (Members.COMPK1 o)); (9, uint16 (Members.COMPK2 o));
      (10, 512); (11, 1280) ] /\
  (forall a b c d : Z,
     registers_written
       (bus_trace (snd (begin (Driver_with_gains a b c d) reply))) =
       [ (0, 8192); (3, 3970); (4, 512); (5, 2048);
         (6, a mod 256); (7, b mod 256); (8, c mod 256); (9, d mod 256);
         (10, 512); (11, 1280) ] /\
     Members.FILK2 (Driver_with_gains a b c d) <> Members.FILK2 Driver_default).
Proof.
  assert (H : forall o',
    registers_written (bus_trace (snd (begin o' reply))) =
    [ (0, 8192); (3, 3970); (4, 512); (5, 2048);
      (6, uint16 (Members.FILK1 o')); (7, uint16 (Members.FILK2 o'));
      (8, uint16 (Members.COMPK1 o')); (9, uint16 (Members.COMPK2 o'));
      (10, 512); (11, 1280) ]).
  { intros o'. rewrite bus_trace_begin.
    repeat (rewrite registers_written_write, registers_written_read).
    reflexivity. }
  split; [ apply H | ].
  intros a b c d. split.
  - rewrite H. cbn [Driver_with_gains Members.FILK1 Members.FILK2
                    Members.COMPK1 Members.COMPK2].
    now rewrite !uint16_uint8.
  - cbn [Driver_with_gains Driver_default Members.FILK2].
    unfold uint16, uint8, wrap. change (2 ^ 16) with 65536.
    change (2 ^ 8) with 256.
    pose proof (Z.mod_pos_bound b 256 ltac:(lia)).
    rewrite (Z.mod_small (b mod 256) 65536) by lia. lia.
Qed.

(** X22: [begin] makes every pin an output before it drives it, and
    leaves the driver enabled (EN high) with the brake released, the
    direction forward, RESET low and chip select released, whichever
    constructor built the object and whatever the chip answers. *)
Theorem begin_pin_levels (o : Members.t) (reply : Z -> Z * Z) :
  (o = Driver_default \/
   exists a b c d : Z, o = Driver_with_gains a b c d) ->
  let evs := snd (begin o reply) in
  outputs_first (Members.PIN_SCS o) [] evs = true /\
  final_level (Members.PIN_SCS o) (Members.PIN_EN o) evs = Some HIGH /\
  final_level (Members.PIN_SCS o) (Members.PIN_BRAKE o) evs = Some LOW /\
  final_level (Members.PIN_SCS o) (Members.PIN_DIR o) evs = Some LOW /\
  final_level (Members.PIN_SCS o) (Members.PIN_RESET o) evs = Some LOW /\
  final_level (Members.PIN_SCS o) (Members.PIN_SCS o) evs = Some LOW /\
  final_level (Members.PIN_SCS o) (Members.PIN_CLKIN o) evs = None.
Proof.
  intros [-> | (a & b & c & d & ->)]; intros evs; subst evs;
    (split; [ | split; [ | split; [ | split; [ | split; [ | split ] ] ] ] ]);
    cbv -[Z.modulo Z.lor Z.land Z.shiftl Z.shiftr uint8 uint16];
    reflexivity.
Qed.

Lemma begin_pin_levels_witness :
  let o := Driver_with_gains 127 251 100 100 in
  let evs := snd (begin o (fun _ => (0, 0))) in
  outputs_first (Members.PIN_SCS o) [] evs = true /\
  final_level (Members.PIN_SCS o) (Members.PIN_EN o) evs = Some HIGH /\
  final_level (Members.PIN_SCS o) (Members.PIN_BRAKE o) evs = Some LOW /\
  final_level (Members.PIN_SCS o) (Members.PIN_DIR o) evs = Some LOW /\
  final_level (Members.PIN_SCS o) (Members.PIN_RESET o) evs = Some LOW /\
  final_level (Members.PIN_SCS o) (Members.PIN_SCS o) evs = Some LOW /\
  final_level (Members.PIN_SCS o) (Members.PIN_CLKIN o) evs = None.
Proof.
  intros o.
  apply (begin_pin_levels o (fun _ => (0, 0))).
  right. exists 127, 251, 100, 100. reflexivity.
Defined.
